(** * NYC-Health-DB: a shallow embedding of [nyc.py]

    The loader reads a CSV extract of restaurant inspections with pandas,
    synthesises an inspection time per row with numpy's legacy generator
    and writes five normalised tables through Python's [sqlite3] module.

    Modelling conventions.
    - A Python [str] that can be encoded as UTF-8 is a [string]; one
      [ascii] stands for one character.  A [str] that holds a lone
      surrogate cannot be bound to a statement; a statement with such a
      parameter is [unbound].
    - A Python [int] is a [Z]; an integer as SQLite holds it is an
      [int64].  A float that is a whole number is modelled by that
      number.  A missing CSV cell (pandas [nan]) is [None]; [sqlite3]
      binds it as SQL NULL.  A value bound to a TEXT column is modelled
      by the text that column stores for it.
    - [tCuisine] and [tAction] are listed in rowid order, the order in
      which a SELECT by description scans them; a fresh rowid exceeds
      every rowid of the table, so a new row goes last.  [tRest] is
      listed by [camis], which is its rowid.  [tViol] and [tInsp] are
      listed in the order of insertion, and their hidden rowids are 1,
      2, ... in that order.
    - The database file has the five tables and is written by this
      process only. *)

From Stdlib Require Import ZArith List String Ascii Bool Lia DecimalString
  Eqdep_dec.
Import ListNotations.
Local Open Scope Z_scope.

(** ** Python exceptions *)

Inductive pyclass :=
| IntegrityError       (* sqlite3 *)
| OperationalError     (* sqlite3 *)
| ProgrammingError     (* sqlite3 *)
| AttributeError
| TypeError
| FileNotFoundError
| UnicodeDecodeError
| ParserError          (* pandas.errors *)
| EmptyDataError       (* pandas.errors *)
| OverflowError
| UnicodeEncodeError
| KeyError.

(** ** Integers as SQLite holds them *)

Definition fits_int64 (z : Z) : bool :=
  (-9223372036854775808 <=? z) && (z <=? 9223372036854775807).

Record int64 := mk_int64 { Z_of :> Z; Z_of_fits : fits_int64 Z_of = true }.

(** Binding a Python [int]: [None] stands for the [OverflowError] that
    [sqlite3] raises for an [int] beyond 64 bits. *)
Definition to_int64 (z : Z) : option int64 :=
  match fits_int64 z as b return fits_int64 z = b -> option int64 with
  | true => fun H => Some (mk_int64 z H)
  | false => fun _ => None
  end eq_refl.

(** The same for a value that may be [nan], which is bound as NULL. *)
Definition to_int64_or_NULL (z : option Z) : option (option int64) :=
  match z with
  | None => Some None
  | Some z => option_map Some (to_int64 z)
  end.

Definition fits_or_NULL (z : option Z) : bool :=
  match z with None => true | Some z => fits_int64 z end.

(** ** The persisted schema (NYCDB._create_tables) *)

Record rest_row := mk_rest {
  r_camis : Z;
  r_dba : string;
  r_boro : string;
  r_building : string;
  r_street : string;
  r_zip : option Z;
  r_phone : option Z;
  r_cuisine_id : Z;
  r_camis_fits : fits_int64 r_camis = true
}.

Record insp_row := mk_insp {
  i_camis : Z;
  i_insp_date : string;
  i_insp_time : string;
  i_viol_id : string;
  i_action_id : Z;
  i_camis_fits : fits_int64 i_camis = true
}.

(** [seq_tCuisine] and [seq_tAction] are the rows of [sqlite_sequence]
    that AUTOINCREMENT keeps for the two tables (0 before any insert). *)
Record store := mk_store {
  tCuisine : list (Z * string);
  seq_tCuisine : Z;
  tViol : list (string * string);
  tAction : list (Z * string);
  seq_tAction : Z;
  tRest : list rest_row;
  tInsp : list insp_row
}.

(** The store right after [_create_tables]. *)
Definition empty_store : store := mk_store [] 0 [] [] 0 [] [].

(** ** SQL statements of the pipeline, with their bound parameters *)

(** What stops [sqlite3] from binding a parameter: an [int] beyond 64
    bits, a [str] that holds a lone surrogate. *)
Inductive binding_error :=
| int_too_large
| surrogates_not_allowed.

(** What [run_action] is called with: one of the five INSERT statements
    with parameters that [sqlite3] binds, written as SQLite receives
    them, or a statement on [table] with a parameter that cannot be
    bound. *)
Inductive action_sql :=
| INSERT_tCuisine (cuisine_desc : option string)
| INSERT_tAction (action_desc : option string)
| INSERT_tViol (viol_id viol_desc : option string)
| INSERT_tRest (camis : option int64) (dba boro building street : option string)
               (zip phone : option int64) (cuisine_id : int64)
| INSERT_tInsp (camis : option int64)
               (insp_date insp_time viol_id : option string)
               (action_id : int64)
| unbound (table : string) (b : binding_error).

(** What a raised exception carries: its class and its message.  The
    gateway's message [f'sql: {sql}\nparams: {params}'] is kept as the
    statement with its parameters, or as the table of the query. *)
Inductive message :=
| sql_params (sql : action_sql)
| query_params (table : string)
| Problem_loading_file (file : string)
| library_text (text : string).

Record exn := mk_exn { exn_class : pyclass; exn_message : message }.

Inductive outcome (A : Type) :=
| Return (a : A)
| Raise (e : exn).
Arguments Return {A} a.
Arguments Raise {A} e.

(** ** SQLite: LIKE, constraints and the INSERT statements *)

Definition lower (c : ascii) : ascii :=
  let n := nat_of_ascii c in
  if (Nat.leb 65 n && Nat.leb n 90)%bool then ascii_of_nat (n + 32) else c.

(** SQLite's LIKE without ESCAPE: [_] matches exactly one character, [%]
    any run of characters, any other character itself up to ASCII case. *)
Fixpoint like_chars (pat s : list ascii) : bool :=
  match pat with
  | [] => match s with [] => true | _ :: _ => false end
  | p :: pat' =>
      if Ascii.eqb p "%" then
        (fix any (s : list ascii) : bool :=
           like_chars pat' s
           || match s with [] => false | _ :: s' => any s' end) s
      else
        match s with
        | [] => false
        | c :: s' =>
            (Ascii.eqb p "_" || Ascii.eqb (lower p) (lower c))
            && like_chars pat' s'
        end
  end.

(** SQLite reads the text it matches as a C string: up to its first NUL
    character. *)
Fixpoint until_NUL (s : list ascii) : list ascii :=
  match s with
  | [] => []
  | c :: s' => if Ascii.eqb c Ascii.zero then [] else c :: until_NUL s'
  end.

Definition LIKE (s pat : string) : bool :=
  like_chars (list_ascii_of_string pat) (until_NUL (list_ascii_of_string s)).

(** What makes [cursor.execute] fail: a parameter that cannot be bound,
    or a result code of SQLite. *)
Inductive execute_error :=
| not_bound (b : binding_error)
| NOT_NULL_constraint_failed (column : string)
| CHECK_constraint_failed (table : string)
| UNIQUE_constraint_failed (table : string)
| FOREIGN_KEY_constraint_failed
| database_or_disk_is_full.

(** The class of the exception [sqlite3] raises for each. *)
Definition class_of (e : execute_error) : pyclass :=
  match e with
  | not_bound int_too_large => OverflowError
  | not_bound surrogates_not_allowed => UnicodeEncodeError
  | database_or_disk_is_full => OperationalError
  | _ => IntegrityError
  end.

Definition max_rowid : Z := 9223372036854775807.

(** AUTOINCREMENT: one more than the largest rowid the table ever held;
    SQLITE_FULL once the largest possible rowid has been used. *)
Definition next_autoincrement (ids : list Z) (seq : Z) : execute_error + Z :=
  let largest := fold_right Z.max seq ids in
  if max_rowid <=? largest then inl database_or_disk_is_full
  else inr (largest + 1).

(** The rowid of a row inserted without one into a table that has no
    AUTOINCREMENT: 1 in an empty table, else one more than the largest
    rowid of the table.  Once the largest possible rowid is taken SQLite
    tries rowids at random and gives up with SQLITE_FULL when it finds
    none free; the model takes the failure, [None], for a statement that
    nothing else stops. *)
Definition next_rowid (ids : list Z) : option int64 :=
  match ids with
  | [] => to_int64 1
  | id :: ids' => to_int64 (fold_right Z.max id ids' + 1)
  end.

(** The hidden rowid of the next row of [tViol] or [tInsp], whose rows
    have the rowids 1, 2, ... *)
Definition next_hidden_rowid {A} (t : list A) : Z :=
  Z.of_nat (List.length t) + 1.

Definition has_key {A} (k : Z) (key : A -> Z) (t : list A) : bool :=
  existsb (fun r => key r =? k) t.

Definition has_text {A} (k : string) (key : A -> string) (t : list A) : bool :=
  existsb (fun r => String.eqb (key r) k) t.

Definition same_insp_key (camis : Z) (insp_date insp_time viol_id : string)
    (r : insp_row) : bool :=
  (i_camis r =? camis)
  && String.eqb (i_insp_date r) insp_date
  && String.eqb (i_insp_time r) insp_time
  && String.eqb (i_viol_id r) viol_id.

(** [tRest] keeps its rows by [camis]. *)
Fixpoint insert_by_camis (r : rest_row) (t : list rest_row) : list rest_row :=
  match t with
  | [] => [r]
  | x :: t' =>
      if r_camis r <? r_camis x then r :: t else x :: insert_by_camis r t'
  end.

Definition with_tCuisine (s : store) (t : list (Z * string)) (q : Z) : store :=
  mk_store t q (tViol s) (tAction s) (seq_tAction s) (tRest s) (tInsp s).
Definition with_tAction (s : store) (t : list (Z * string)) (q : Z) : store :=
  mk_store (tCuisine s) (seq_tCuisine s) (tViol s) t q (tRest s) (tInsp s).
Definition with_tViol (s : store) (t : list (string * string)) : store :=
  mk_store (tCuisine s) (seq_tCuisine s) t (tAction s) (seq_tAction s)
           (tRest s) (tInsp s).
Definition with_tRest (s : store) (t : list rest_row) : store :=
  mk_store (tCuisine s) (seq_tCuisine s) (tViol s) (tAction s) (seq_tAction s)
           t (tInsp s).
Definition with_tInsp (s : store) (t : list insp_row) : store :=
  mk_store (tCuisine s) (seq_tCuisine s) (tViol s) (tAction s) (seq_tAction s)
           (tRest s) t.

Definition Z_of_option (z : option int64) : option Z :=
  match z with Some z => Some (Z_of z) | None => None end.

(** The INSERT into [tRest] once its NOT NULL columns are there and its
    rowid is known. *)
Definition insert_tRest (s : store) (camis : int64)
    (dba boro building street : string) (zip phone : option int64)
    (cuisine_id : int64) : execute_error + (store * Z) :=
  if has_key camis r_camis (tRest s) then inl (UNIQUE_constraint_failed "tRest")
  else if negb (has_key cuisine_id fst (tCuisine s))
  then inl FOREIGN_KEY_constraint_failed
  else inr (with_tRest s
              (insert_by_camis
                 (mk_rest camis dba boro building street (Z_of_option zip)
                          (Z_of_option phone) cuisine_id (Z_of_fits camis))
                 (tRest s)),
            Z_of camis).

(** [cursor.execute] of an INSERT on a connection with foreign keys on
    (every connection is opened by [_connect], which sets the pragma).
    The parameters are bound first.  SQLite then checks NOT NULL, then
    CHECK, then the primary key, and the foreign keys when the statement
    ends.  The result is the store as the connection then sees it and
    [cursor.lastrowid], the rowid of the new row. *)
Definition execute (sql : action_sql) (s : store)
    : execute_error + (store * Z) :=
  match sql with
  | unbound _ b => inl (not_bound b)
  | INSERT_tCuisine None => inl (NOT_NULL_constraint_failed "tCuisine.cuisine_desc")
  | INSERT_tCuisine (Some d) =>
      match next_autoincrement (map fst (tCuisine s)) (seq_tCuisine s) with
      | inl e => inl e
      | inr id => inr (with_tCuisine s (tCuisine s ++ [(id, d)]) id, id)
      end
  | INSERT_tAction None => inl (NOT_NULL_constraint_failed "tAction.action_desc")
  | INSERT_tAction (Some d) =>
      match next_autoincrement (map fst (tAction s)) (seq_tAction s) with
      | inl e => inl e
      | inr id => inr (with_tAction s (tAction s ++ [(id, d)]) id, id)
      end
  | INSERT_tViol None _ => inl (NOT_NULL_constraint_failed "tViol.viol_id")
  | INSERT_tViol (Some _) None => inl (NOT_NULL_constraint_failed "tViol.viol_desc")
  | INSERT_tViol (Some v) (Some d) =>
      if has_text v fst (tViol s) then inl (UNIQUE_constraint_failed "tViol")
      else inr (with_tViol s (tViol s ++ [(v, d)]), next_hidden_rowid (tViol s))
  | INSERT_tRest _ None _ _ _ _ _ _ => inl (NOT_NULL_constraint_failed "tRest.dba")
  | INSERT_tRest _ _ None _ _ _ _ _ => inl (NOT_NULL_constraint_failed "tRest.boro")
  | INSERT_tRest _ _ _ None _ _ _ _ => inl (NOT_NULL_constraint_failed "tRest.building")
  | INSERT_tRest _ _ _ _ None _ _ _ => inl (NOT_NULL_constraint_failed "tRest.street")
  | INSERT_tRest (Some camis) (Some dba) (Some boro) (Some building) (Some street)
                 zip phone cuisine_id =>
      insert_tRest s camis dba boro building street zip phone cuisine_id
  | INSERT_tRest None (Some dba) (Some boro) (Some building) (Some street)
                 zip phone cuisine_id =>
      if negb (has_key cuisine_id fst (tCuisine s))
      then inl FOREIGN_KEY_constraint_failed
      else match next_rowid (map r_camis (tRest s)) with
           | None => inl database_or_disk_is_full
           | Some camis =>
               insert_tRest s camis dba boro building street zip phone
                            cuisine_id
           end
  | INSERT_tInsp None _ _ _ _ => inl (NOT_NULL_constraint_failed "tInsp.camis")
  | INSERT_tInsp _ None _ _ _ => inl (NOT_NULL_constraint_failed "tInsp.insp_date")
  | INSERT_tInsp _ _ None _ _ => inl (NOT_NULL_constraint_failed "tInsp.insp_time")
  | INSERT_tInsp _ _ _ None _ => inl (NOT_NULL_constraint_failed "tInsp.viol_id")
  | INSERT_tInsp (Some camis) (Some insp_date) (Some insp_time) (Some viol_id)
                 action_id =>
      if negb (LIKE insp_date "__/__/____" && LIKE insp_time "__:__:__")
      then inl (CHECK_constraint_failed "tInsp")
      else if existsb (same_insp_key camis insp_date insp_time viol_id) (tInsp s)
      then inl (UNIQUE_constraint_failed "tInsp")
      else if negb (has_key camis r_camis (tRest s)
                    && has_text viol_id fst (tViol s)
                    && has_key action_id fst (tAction s))
      then inl FOREIGN_KEY_constraint_failed
      else inr (with_tInsp s (tInsp s ++
                  [mk_insp camis insp_date insp_time viol_id action_id
                           (Z_of_fits camis)]),
                next_hidden_rowid (tInsp s))
  end.

(** The five SELECT statements passed to [run_query], on a database
    that has the tables; each returns the rows in the order of its
    table.  [column = NULL] is never true. *)
Definition SELECT_tCuisine (cuisine_desc : option string) (s : store) : list Z :=
  match cuisine_desc with
  | None => []
  | Some d => map fst (filter (fun r => String.eqb (snd r) d) (tCuisine s))
  end.

Definition SELECT_tAction (action_desc : option string) (s : store) : list Z :=
  match action_desc with
  | None => []
  | Some d => map fst (filter (fun r => String.eqb (snd r) d) (tAction s))
  end.

Definition SELECT_tViol (viol_id : option string) (s : store)
    : list (string * string) :=
  match viol_id with
  | None => []
  | Some v => filter (fun r => String.eqb (fst r) v) (tViol s)
  end.

Definition SELECT_tRest (camis : option Z) (s : store) : list rest_row :=
  match camis with
  | None => []
  | Some c => filter (fun r => r_camis r =? c) (tRest s)
  end.

Definition SELECT_tInsp (camis : option Z)
    (insp_date insp_time viol_id : option string) (s : store) : list insp_row :=
  match camis, insp_date, insp_time, viol_id with
  | Some c, Some d, Some t, Some v => filter (same_insp_key c d t v) (tInsp s)
  | _, _, _, _ => []
  end.

(** What [run_query] is called with: a SELECT whose parameters are
    bound, as the function from the store to its rows, or a SELECT on
    [table] with a parameter that cannot be bound. *)
Inductive query_sql (A : Type) :=
| bound_query (rows : store -> list A)
| unbound_query (table : string) (b : binding_error).
Arguments bound_query {A} rows.
Arguments unbound_query {A} table b.

(** ** The persistence gateway (class BaseDB) *)

(** [self._conn]: the attribute does not exist before the first
    [_connect]; afterwards it is a connection that is open, with the
    store as its transaction sees it, or closed.  [self._connected] is
    true exactly when it is open. *)
Inductive connection :=
| no_conn
| closed_conn
| open_conn (txn : store).

(** The object: the committed database file and the connection. *)
Record NYCDB := mk_db { disk : store; conn : connection }.

Definition _connected (db : NYCDB) : bool :=
  match conn db with open_conn _ => true | _ => false end.

(** What the next statement reads: the open transaction, else the file. *)
Definition view (db : NYCDB) : store :=
  match conn db with open_conn txn => txn | _ => disk db end.

(** A computation on the object: a result or a raised exception, and the
    object afterwards. *)
Definition M (A : Type) : Type := NYCDB -> outcome A * NYCDB.

Definition ret {A} (a : A) : M A := fun db => (Return a, db).
Definition raise {A} (e : exn) : M A := fun db => (Raise e, db).
Definition bind {A B} (m : M A) (k : A -> M B) : M B :=
  fun db => match m db with
            | (Return a, db') => k a db'
            | (Raise e, db') => (Raise e, db')
            end.

Notation "x <- m ;; k" := (bind m (fun x => k))
  (at level 61, m at next level, right associativity).
Notation "m ;;; k" := (bind m (fun _ => k))
  (at level 61, right associativity).

(** [sqlite3.connect] starts from the committed file; the pragma that
    follows turns foreign keys on for the connection, which [execute]
    takes for granted. *)
Definition _connect : M unit := fun db =>
  if _connected db then (Return tt, db)
  else (Return tt, mk_db (disk db) (open_conn (disk db))).

(** [self._conn.close()] drops whatever was not committed; closing a
    closed connection does nothing. *)
Definition _close : M unit := fun db =>
  match conn db with
  | no_conn => (Raise (mk_exn AttributeError (library_text "_conn")), db)
  | _ => (Return tt, mk_db (disk db) closed_conn)
  end.

Definition rollback : M unit := fun db =>
  match conn db with
  | no_conn => (Raise (mk_exn AttributeError (library_text "_conn")), db)
  | closed_conn =>
      (Raise (mk_exn ProgrammingError
                (library_text "Cannot operate on a closed database.")), db)
  | open_conn _ => (Return tt, mk_db (disk db) (open_conn (disk db)))
  end.

Definition commit : M unit := fun db =>
  match conn db with
  | no_conn => (Raise (mk_exn AttributeError (library_text "_conn")), db)
  | closed_conn =>
      (Raise (mk_exn ProgrammingError
                (library_text "Cannot operate on a closed database.")), db)
  | open_conn txn => (Return tt, mk_db txn (open_conn txn))
  end.

(** [type(e)(message)]: the class of [e] called with one string.  Every
    class here accepts that but [UnicodeDecodeError] and
    [UnicodeEncodeError], whose constructors take exactly five
    arguments. *)
Definition retype (c : pyclass) (m : message) : outcome exn :=
  match c with
  | UnicodeDecodeError | UnicodeEncodeError =>
      Raise (mk_exn TypeError
               (library_text "function takes exactly 5 arguments (1 given)"))
  | _ => Return (mk_exn c m)
  end.

(** The exception that leaves [raise type(e)(message) from e]: the one
    built, or the one that building it raises. *)
Definition raised (c : pyclass) (m : message) : exn :=
  match retype c m with
  | Return e => e
  | Raise e => e
  end.

(** [run_query].  On a database that has the five tables a SELECT of the
    pipeline fails only while its parameters are bound; [pd.read_sql]
    lets that exception pass, no rollback is made, and [finally] closes
    the connection only when [keep_open] is off. *)
Definition run_query {A} (sql : query_sql A) (keep_open : bool) : M (list A) :=
  _connect ;;;
  fun db =>
    match sql with
    | unbound_query table b =>
        ((if keep_open then ret tt else _close) ;;;
         raise (raised (class_of (not_bound b)) (query_params table))) db
    | bound_query rows =>
        let results := rows (view db) in
        ((if keep_open then ret tt else _close) ;;; ret results) db
    end.

(** [run_action].  In the [except] branch the exception raised is the
    one under way when [finally] runs. *)
Definition run_action (sql : action_sql) (keep_open : bool) : M Z :=
  _connect ;;;
  fun db =>
    match execute sql (view db) with
    | inl e =>
        (rollback ;;;
         _close ;;;
         fun db' =>
           ((if keep_open then ret tt else _close) ;;;
            raise (raised (class_of e) (sql_params sql))) db') db
    | inr (txn, lastrowid) =>
        ((if keep_open then ret tt else _close) ;;; ret lastrowid)
          (mk_db (disk db) (open_conn txn))
    end.

(** ** The load pipeline (class NYCDB) *)

(** The statements of [load_rest] and [load_insp] as [sqlite3] binds
    their parameters; the text parameters always bind. *)
Definition sql_select_tRest (camis : option Z) : query_sql rest_row :=
  if fits_or_NULL camis then bound_query (SELECT_tRest camis)
  else unbound_query "tRest" int_too_large.

Definition sql_insert_tRest (camis : option Z)
    (dba boro building street : option string) (zip phone : option Z)
    (cuisine_id : Z) : action_sql :=
  match to_int64_or_NULL camis, to_int64_or_NULL zip, to_int64_or_NULL phone,
        to_int64 cuisine_id with
  | Some camis, Some zip, Some phone, Some cuisine_id =>
      INSERT_tRest camis dba boro building street zip phone cuisine_id
  | _, _, _, _ => unbound "tRest" int_too_large
  end.

Definition sql_select_tInsp (camis : option Z)
    (insp_date insp_time viol_id : option string) : query_sql insp_row :=
  if fits_or_NULL camis
  then bound_query (SELECT_tInsp camis insp_date insp_time viol_id)
  else unbound_query "tInsp" int_too_large.

Definition sql_insert_tInsp (camis : option Z)
    (insp_date insp_time viol_id : option string) (action_id : Z) : action_sql :=
  match to_int64_or_NULL camis, to_int64 action_id with
  | Some camis, Some action_id =>
      INSERT_tInsp camis insp_date insp_time viol_id action_id
  | _, _ => unbound "tInsp" int_too_large
  end.

Definition get_cuisine (cuisine : option string) : M Z :=
  query <- run_query (bound_query (SELECT_tCuisine cuisine)) true ;;
  match query with
  | [] => run_action (INSERT_tCuisine cuisine) true
  | cuisine_id :: _ => ret cuisine_id
  end.

Definition get_action (action_desc : option string) : M Z :=
  query <- run_query (bound_query (SELECT_tAction action_desc)) true ;;
  match query with
  | [] => run_action (INSERT_tAction action_desc) true
  | action_id :: _ => ret action_id
  end.

Definition load_rest (camis : option Z) (dba boro building street : option string)
    (zip phone : option Z) (cuisine_id : Z) : M unit :=
  query <- run_query (sql_select_tRest camis) true ;;
  match query with
  | [] => run_action (sql_insert_tRest camis dba boro building street zip phone
                                       cuisine_id) true ;;; ret tt
  | _ :: _ => ret tt
  end.

Definition load_insp (camis : option Z)
    (insp_date insp_time viol_id : option string) (action_id : Z) : M unit :=
  query <- run_query (sql_select_tInsp camis insp_date insp_time viol_id) true ;;
  match query with
  | [] => run_action (sql_insert_tInsp camis insp_date insp_time viol_id
                                       action_id) true ;;; ret tt
  | _ :: _ => ret tt
  end.

Definition load_viol (viol_id viol_desc : option string) : M unit :=
  query <- run_query (bound_query (SELECT_tViol viol_id)) true ;;
  match query with
  | [] => run_action (INSERT_tViol viol_id viol_desc) true ;;; ret tt
  | _ :: _ => ret tt
  end.

(** The object once [_connect] has run. *)
Definition connected (db : NYCDB) : NYCDB :=
  mk_db (disk db) (open_conn (view db)).

(** ** numpy's legacy generator: MT19937 and [RandomState.randint]

    The loader calls [np.random.seed] and [np.random.randint].  Their
    implementation in numpy (the Mersenne Twister seeded from an
    integer, and integers of a range drawn by masked rejection) is
    written out here, so that the times of a load can be computed. *)

Module mt19937.

Definition N : nat := 624.
Definition M : nat := 397.
Definition MATRIX_A : Z := 0x9908b0df.
Definition UPPER_MASK : Z := 0x80000000.
Definition LOWER_MASK : Z := 0x7fffffff.

Definition u32 (x : Z) : Z := Z.land x 0xffffffff.

(** The 624 words of the key and the position of the next word. *)
Record state := mk_state { key : list Z; pos : nat }.

Fixpoint seed_loop (n : nat) (p : Z) (seed : Z) : list Z :=
  match n with
  | O => []
  | S n' =>
      seed :: seed_loop n' (p + 1)
                (u32 (1812433253 * Z.lxor seed (Z.shiftr seed 30) + p + 1))
  end.

(** [np.random.seed] of an integer. *)
Definition mt19937_seed (seed : Z) : state :=
  mk_state (seed_loop N 0 (u32 seed)) N.

Fixpoint set_nth (i : nat) (v : Z) (l : list Z) : list Z :=
  match l, i with
  | [], _ => []
  | _ :: l', O => v :: l'
  | x :: l', S i' => x :: set_nth i' v l'
  end.

(** One step of the in-place regeneration loop. *)
Definition twist (mt : list Z) (kk : nat) : list Z :=
  let y := Z.lor (Z.land (nth kk mt 0) UPPER_MASK)
                 (Z.land (nth ((kk + 1) mod N) mt 0) LOWER_MASK) in
  set_nth kk (Z.lxor (Z.lxor (nth ((kk + M) mod N) mt 0) (Z.shiftr y 1))
                     (if Z.odd y then MATRIX_A else 0)) mt.

Definition mt19937_gen (mt : list Z) : list Z := fold_left twist (seq 0 N) mt.

Definition temper (y : Z) : Z :=
  let y := Z.lxor y (Z.shiftr y 11) in
  let y := Z.lxor y (Z.land (Z.shiftl y 7) 0x9d2c5680) in
  let y := Z.lxor y (Z.land (Z.shiftl y 15) 0xefc60000) in
  Z.lxor y (Z.shiftr y 18).

Definition next_uint32 (st : state) : Z * state :=
  let st := if Nat.leb N (pos st)
            then mk_state (mt19937_gen (key st)) 0 else st in
  (temper (nth (pos st) (key st) 0), mk_state (key st) (S (pos st))).

End mt19937.

(** The smallest mask of low bits that covers [max]. *)
Definition gen_mask (max : Z) : Z :=
  let mask := max in
  let mask := Z.lor mask (Z.shiftr mask 1) in
  let mask := Z.lor mask (Z.shiftr mask 2) in
  let mask := Z.lor mask (Z.shiftr mask 4) in
  let mask := Z.lor mask (Z.shiftr mask 8) in
  let mask := Z.lor mask (Z.shiftr mask 16) in
  Z.lor mask (Z.shiftr mask 32).

(** Masked rejection: draw words until one masked word is at most
    [rng].  The loop of numpy has no bound; [fuel] bounds the number of
    words drawn and [None] says that the bound was reached. *)
Fixpoint bounded_masked_uint32 (fuel : nat) (rng mask : Z)
    (st : mt19937.state) : option (Z * mt19937.state) :=
  match fuel with
  | O => None
  | S fuel' =>
      let (word, st') := mt19937.next_uint32 st in
      let val := Z.land word mask in
      if rng <? val then bounded_masked_uint32 fuel' rng mask st'
      else Some (val, st')
  end.

Fixpoint bounded_fill (fuel : nat) (off rng mask : Z) (cnt : nat)
    (st : mt19937.state) : option (list Z * mt19937.state) :=
  match cnt with
  | O => Some ([], st)
  | S cnt' =>
      match bounded_masked_uint32 fuel rng mask st with
      | None => None
      | Some (val, st') =>
          match bounded_fill fuel off rng mask cnt' st' with
          | None => None
          | Some (out, st'') => Some (off + val :: out, st'')
          end
      end
  end.

(** [randint(low, high, size)] for [low < high] and a range below
    [2^32 - 1], the branch taken for the ranges of the loader: [size]
    draws from [low] to [high - 1]. *)
Definition randint (fuel : nat) (low high : Z) (size : nat)
    (st : mt19937.state) : option (list Z * mt19937.state) :=
  let rng := high - 1 - low in
  if rng =? 0 then Some (repeat low size, st)
  else bounded_fill fuel low rng (gen_mask rng) size st.

(** ** Formatting the time *)

(** [str] of an integer. *)
Definition str (n : Z) : string := NilZero.string_of_int (Z.to_int n).

Fixpoint zeros (n : nat) : string :=
  match n with O => EmptyString | S n' => String "0" (zeros n') end.

(** [str.zfill]: zeros go after a leading sign. *)
Definition zfill (width : nat) (s : string) : string :=
  let fill := zeros (width - String.length s) in
  match s with
  | String c s' =>
      if (Ascii.eqb c "+" || Ascii.eqb c "-")%bool
      then String c (String.append fill s')
      else String.append fill s
  | EmptyString => fill
  end.

(** [f'{str(hi).zfill(2)}:{str(mi).zfill(2)}:{str(si).zfill(2)}'] *)
Definition time_string (hi mi si : Z) : string :=
  String.append (zfill 2 (str hi))
    (String.append ":" (String.append (zfill 2 (str mi))
       (String.append ":" (zfill 2 (str si))))).

(** [zip(h, m, s)] *)
Fixpoint zip3 (h m s : list Z) : list (Z * Z * Z) :=
  match h, m, s with
  | hi :: h', mi :: m', si :: s' => (hi, mi, si) :: zip3 h' m' s'
  | _, _, _ => []
  end.

(** Lines 235 to 240 of [load_nyc_file]: the three arrays drawn after
    [np.random.seed(7)] for a frame of [rows] rows. *)
Definition draws (fuel : nat) (rows : nat) : option (list (Z * Z * Z)) :=
  let st := mt19937.mt19937_seed 7 in
  match randint fuel 9 (17 + 1) rows st with
  | None => None
  | Some (h, st) =>
      match randint fuel 0 (60 + 1) rows st with
      | None => None
      | Some (m, st) =>
          match randint fuel 0 (60 + 1) rows st with
          | None => None
          | Some (s, _) => Some (zip3 h m s)
          end
      end
  end.

Definition insp_times (fuel : nat) (rows : nat) : option (list string) :=
  option_map (map (fun hms => match hms with
                              | (hi, mi, si) => time_string hi mi si
                              end))
             (draws fuel rows).

Definition is_some {A} (o : option A) : bool :=
  match o with Some _ => true | None => false end.


(** ** Loading a file (NYCDB.load_nyc_file) *)

(** One record of [df.to_dict(orient='records')], with the columns as
    renamed by [df.rename].  A field of a column that the frame does not
    have is never read. *)
Record csv_row := mk_row {
  CAMIS : option Z;
  DBA : option string;
  BORO : option string;
  BUILDING : option string;
  STREET : option string;
  ZIPCODE : option Z;
  PHONE : option Z;
  cuisine_desc : option string;
  insp_date : option string;
  action_desc : option string;
  viol_id : option string;
  viol_desc : option string
}.

(** What [pd.read_csv] does with a file: a frame, with the names of its
    columns after [df.rename] and its records, or an exception. *)
Inductive read_csv_result :=
| DataFrame (columns : list string) (records : list csv_row)
| read_csv_raises (c : pyclass).

(** The twelve columns the loader reads. *)
Definition all_columns : list string :=
  ["CAMIS"; "DBA"; "BORO"; "BUILDING"; "STREET"; "ZIPCODE"; "PHONE";
   "cuisine_desc"; "insp_date"; "action_desc"; "viol_id"; "viol_desc"]%string.

(** The files, by path. *)
Definition filesystem : Type := list (string * read_csv_result).

Fixpoint lookup_file (path : string) (fs : filesystem) : option read_csv_result :=
  match fs with
  | [] => None
  | (p, f) :: fs' => if String.eqb p path then Some f else lookup_file path fs'
  end.

Definition read_csv (fs : filesystem) (file_path : string) : read_csv_result :=
  match lookup_file file_path fs with
  | Some f => f
  | None => read_csv_raises FileNotFoundError
  end.

(** [row[key]]: a [KeyError] when the frame has no such column; the
    connection is left as it is. *)
Definition getitem {A} (columns : list string) (key : string) (value : A) : M A :=
  if existsb (String.eqb key) columns then ret value
  else raise (mk_exn KeyError (library_text key)).

(** The body of the loop over the records; [insp_time] is the column
    added by [df['insp_time'] = t].  The arguments of a call are read
    from the record, left to right, before the call. *)
Definition load_row (columns : list string) (record : csv_row * string)
    : M unit :=
  let (row, insp_time) := record in
  cuisine <- getitem columns "cuisine_desc"%string (cuisine_desc row) ;;
  cuisine_id <- get_cuisine cuisine ;;
  action <- getitem columns "action_desc"%string (action_desc row) ;;
  action_id <- get_action action ;;
  viol <- getitem columns "viol_id"%string (viol_id row) ;;
  desc <- getitem columns "viol_desc"%string (viol_desc row) ;;
  load_viol viol desc ;;;
  camis <- getitem columns "CAMIS"%string (CAMIS row) ;;
  dba <- getitem columns "DBA"%string (DBA row) ;;
  boro <- getitem columns "BORO"%string (BORO row) ;;
  building <- getitem columns "BUILDING"%string (BUILDING row) ;;
  street <- getitem columns "STREET"%string (STREET row) ;;
  zip <- getitem columns "ZIPCODE"%string (ZIPCODE row) ;;
  phone <- getitem columns "PHONE"%string (PHONE row) ;;
  load_rest camis dba boro building street zip phone cuisine_id ;;;
  camis <- getitem columns "CAMIS"%string (CAMIS row) ;;
  date <- getitem columns "insp_date"%string (insp_date row) ;;
  viol <- getitem columns "viol_id"%string (viol_id row) ;;
  load_insp camis date (Some insp_time) viol action_id.

(** The frame has the twelve columns. *)
Definition complete (columns : list string) : bool :=
  forallb (fun key => existsb (String.eqb key) columns) all_columns.

(** The body of the loop for a frame that has the twelve columns. *)
Definition load_row_all (record : csv_row * string) : M unit :=
  let (row, insp_time) := record in
  cuisine_id <- get_cuisine (cuisine_desc row) ;;
  action_id <- get_action (action_desc row) ;;
  load_viol (viol_id row) (viol_desc row) ;;;
  load_rest (CAMIS row) (DBA row) (BORO row) (BUILDING row) (STREET row)
            (ZIPCODE row) (PHONE row) cuisine_id ;;;
  load_insp (CAMIS row) (insp_date row) (Some insp_time) (viol_id row)
            action_id.

Fixpoint for_each {A} (body : A -> M unit) (l : list A) : M unit :=
  match l with
  | [] => ret tt
  | x :: l' => body x ;;; for_each body l'
  end.

(** Lines 235 to 241: the frame with its new column, one time per row.
    [None] only when the bound on the rejection loop was reached. *)
Definition add_insp_time (fuel : nat) (df : list csv_row)
    : option (list (csv_row * string)) :=
  option_map (combine df) (insp_times fuel (List.length df)).

Definition load_nyc_file (fuel : nat) (fs : filesystem) (file_path : string)
    (db : NYCDB) : option (outcome unit * NYCDB) :=
  match read_csv fs file_path with
  | read_csv_raises c =>
      Some (Raise (mk_exn c (library_text file_path)), db)
  | DataFrame columns df =>
      match add_insp_time fuel df with
      | None => None
      | Some records =>
          Some ((for_each (load_row columns) records ;;; commit ;;; _close) db)
      end
  end.

(** ** Scanning the intake directory (NYCDB.load_new_data) *)

Definition PATH_TO_LOAD : string := "data/to_load/".
Definition PATH_LOADED : string := "data/loaded/".
Definition FILE_PATTERN : string := "nyc*.csv".

(** [fnmatch] for patterns of plain characters, [?] and [*]. *)
Fixpoint fnmatch_chars (pat name : list ascii) : bool :=
  match pat with
  | [] => match name with [] => true | _ :: _ => false end
  | p :: pat' =>
      if Ascii.eqb p "*" then
        (fix any (name : list ascii) : bool :=
           fnmatch_chars pat' name
           || match name with [] => false | _ :: name' => any name' end) name
      else
        match name with
        | [] => false
        | c :: name' =>
            (Ascii.eqb p "?" || Ascii.eqb p c) && fnmatch_chars pat' name'
        end
  end.

Definition is_file_name (name : string) : bool :=
  negb (existsb (fun c => Ascii.eqb c "/") (list_ascii_of_string name)).

Fixpoint strip_prefix (pre s : string) : option string :=
  match pre with
  | EmptyString => Some s
  | String p pre' =>
      match s with
      | String c s' => if Ascii.eqb p c then strip_prefix pre' s' else None
      | EmptyString => None
      end
  end.

(** [glob(PATH_TO_LOAD + FILE_PATTERN)]: the paths of the files of the
    intake directory whose name matches, in directory order. *)
Definition glob_to_load (fs : filesystem) : list string :=
  filter (fun path =>
            match strip_prefix PATH_TO_LOAD path with
            | Some name =>
                is_file_name name
                && fnmatch_chars (list_ascii_of_string FILE_PATTERN)
                                 (list_ascii_of_string name)
            | None => false
            end)
         (map fst fs).

(** [s.replace(old, new)] for a non-empty [old]: every occurrence, left
    to right.  [skip] counts the characters of an occurrence still to
    pass over. *)
Fixpoint replace_from (skip : nat) (old new s : string) : string :=
  match s with
  | EmptyString => EmptyString
  | String c s' =>
      match skip with
      | S skip' => replace_from skip' old new s'
      | O =>
          match strip_prefix old s with
          | Some _ =>
              String.append new
                (replace_from (String.length old - 1) old new s')
          | None => String c (replace_from 0 old new s')
          end
      end
  end.

Definition replace (s old new : string) : string := replace_from 0 old new s.

Definition remove_file (path : string) (fs : filesystem) : filesystem :=
  filter (fun entry => negb (String.eqb (fst entry) path)) fs.

(** [os.rename] between directories that exist: the file takes its new
    path, replacing a file already there; a missing source raises. *)
Definition os_rename (src dst : string) (fs : filesystem) : outcome filesystem :=
  match lookup_file src fs with
  | None => Raise (mk_exn FileNotFoundError (library_text src))
  | Some f =>
      if String.eqb src dst then Return fs
      else Return (remove_file dst (remove_file src fs) ++ [(dst, f)])
  end.

(** The intake and archive files, the database object and what [print]
    has written. *)
Record world := mk_world {
  files : filesystem;
  nycdb : NYCDB;
  stdout : list string
}.

(** The [except] clause: [type(e)(f'Problem loading file: {file}')] is
    evaluated and dropped; it ends the handler normally unless the
    construction itself raises. *)
Definition handler (e : exn) (file : string) : outcome unit :=
  match retype (exn_class e) (Problem_loading_file file) with
  | Return _ => Return tt
  | Raise e' => Raise e'
  end.

(** The loop over [files]. *)
Fixpoint scan (fuel : nat) (paths : list string) (w : world)
    : option (outcome unit * world) :=
  match paths with
  | [] => Some (Return tt, w)
  | file :: paths' =>
      let out := stdout w ++ [String.append "Loading " file] in
      match load_nyc_file fuel (files w) file (nycdb w) with
      | None => None
      | Some (Return _, db') =>
          match os_rename file (replace file PATH_TO_LOAD PATH_LOADED)
                          (files w) with
          | Return fs' => scan fuel paths' (mk_world fs' db' out)
          | Raise e =>
              match handler e file with
              | Return _ => scan fuel paths' (mk_world (files w) db' out)
              | Raise e' => Some (Raise e', mk_world (files w) db' out)
              end
          end
      | Some (Raise e, db') =>
          match handler e file with
          | Return _ => scan fuel paths' (mk_world (files w) db' out)
          | Raise e' => Some (Raise e', mk_world (files w) db' out)
          end
      end
  end.

Definition load_new_data (fuel : nat) (w : world) : option (outcome unit * world) :=
  scan fuel (glob_to_load (files w)) w.

(** ** Predicates used in the statements *)

(** The rows an INSERT refers to are in the store: the cuisine of a
    restaurant; the restaurant, violation and action of an inspection. *)
Definition references_present (sql : action_sql) (s : store) : bool :=
  match sql with
  | INSERT_tRest _ _ _ _ _ _ _ cuisine_id => has_key cuisine_id fst (tCuisine s)
  | INSERT_tInsp camis _ _ viol_id action_id =>
      match camis with
      | Some c => has_key c r_camis (tRest s)
      | None => false
      end
      && match viol_id with
         | Some v => has_text v fst (tViol s)
         | None => false
         end
      && has_key action_id fst (tAction s)
  | _ => true
  end.

Definition is_digit (c : ascii) : bool :=
  (Nat.leb 48 (nat_of_ascii c) && Nat.leb (nat_of_ascii c) 57)%bool.

Definition is_slash (c : ascii) : bool := Ascii.eqb c "/".

(** The date format in the words of the specification's property: two
    digits, a slash, two digits, a slash, four digits. *)
Definition digits_date (s : string) : bool :=
  match list_ascii_of_string s with
  | [m1; m2; s1; d1; d2; s2; y1; y2; y3; y4] =>
      is_digit m1 && is_digit m2 && is_slash s1
      && is_digit d1 && is_digit d2 && is_slash s2
      && is_digit y1 && is_digit y2 && is_digit y3 && is_digit y4
  | _ => false
  end.

(** Two characters, a slash, two characters, a slash, four characters:
    the whole string, or the string up to its first NUL character. *)
Definition characters_date (s : string) : bool :=
  match until_NUL (list_ascii_of_string s) with
  | [_; _; s1; _; _; s2; _; _; _; _] => is_slash s1 && is_slash s2
  | _ => false
  end.

(** A number below 100 as two decimal digits. *)
Definition two_digits (n : Z) : string :=
  String (ascii_of_nat (48 + Z.to_nat (n / 10)))
    (String (ascii_of_nat (48 + Z.to_nat (n mod 10))) EmptyString).

(** A time of day with its hour from 9 to 17 and its minute and second
    from 0 to 60, each written with two digits. *)
Definition synthesized_time (t : string) : Prop :=
  exists hi mi si,
    9 <= hi <= 17 /\ 0 <= mi <= 60 /\ 0 <= si <= 60
    /\ t = String.append (two_digits hi)
             (String ":" (String.append (two_digits mi)
                (String ":" (two_digits si)))).

(** One successful operation of the pipeline on the object: one of the
    five resolve-or-create calls, or the commit and close that end a
    load. *)
Inductive step : NYCDB -> NYCDB -> Prop :=
| step_get_cuisine cuisine id db db' :
    get_cuisine cuisine db = (Return id, db') -> step db db'
| step_get_action action_desc id db db' :
    get_action action_desc db = (Return id, db') -> step db db'
| step_load_viol viol_id viol_desc db db' :
    load_viol viol_id viol_desc db = (Return tt, db') -> step db db'
| step_load_rest camis dba boro building street zip phone cuisine_id db db' :
    load_rest camis dba boro building street zip phone cuisine_id db
    = (Return tt, db') -> step db db'
| step_load_insp camis insp_date insp_time viol_id action_id db db' :
    load_insp camis insp_date insp_time viol_id action_id db
    = (Return tt, db') -> step db db'
| step_commit_close db db' :
    (commit ;;; _close) db = (Return tt, db') -> step db db'.

(** Any number of successful operations, within a load or across loads:
    the store is carried over from each to the next. *)
Inductive steps : NYCDB -> NYCDB -> Prop :=
| steps_nil db : steps db db
| steps_cons db db' db'' : step db db' -> steps db' db'' -> steps db db''.

(** What the pipeline does to a store: nothing, or one row added under
    a key that was absent. *)
Inductive grows : store -> store -> Prop :=
| grows_same s : grows s s
| grows_tCuisine s id d :
    grows s (with_tCuisine s (tCuisine s ++ [(id, d)]) id)
| grows_tAction s id d :
    grows s (with_tAction s (tAction s ++ [(id, d)]) id)
| grows_tViol s v d :
    SELECT_tViol (Some v) s = [] ->
    grows s (with_tViol s (tViol s ++ [(v, d)]))
| grows_tRest s r :
    SELECT_tRest (Some (r_camis r)) s = [] ->
    grows s (with_tRest s (insert_by_camis r (tRest s)))
| grows_tInsp s r :
    SELECT_tInsp (Some (i_camis r)) (Some (i_insp_date r))
                 (Some (i_insp_time r)) (Some (i_viol_id r)) s = [] ->
    grows s (with_tInsp s (tInsp s ++ [r])).

Inductive grows_star : store -> store -> Prop :=
| grows_star_nil s : grows_star s s
| grows_star_cons s s' s'' : grows s s' -> grows_star s' s'' -> grows_star s s''.

(** Every lookup of a record finds a row: its cuisine, action,
    violation, restaurant and inspection are in the store. *)
Definition resolved (s : store) (record : csv_row * string) : Prop :=
  let (row, insp_time) := record in
  SELECT_tCuisine (cuisine_desc row) s <> []
  /\ SELECT_tAction (action_desc row) s <> []
  /\ SELECT_tViol (viol_id row) s <> []
  /\ SELECT_tRest (CAMIS row) s <> []
  /\ SELECT_tInsp (CAMIS row) (insp_date row) (Some insp_time) (viol_id row) s
     <> [].

(** An operation that returned left the connection open on a store
    grown from the one it found, and did not touch the file. *)
Definition carried_on (db db' : NYCDB) : Prop :=
  disk db' = disk db
  /\ conn db' = open_conn (view db')
  /\ grows (view db) (view db').

(** Every lookup on the later store returns what it returned on the
    earlier one, followed by the rows added since. *)
Definition grown_lookups (s s' : store) : Prop :=
  (forall c, exists more, SELECT_tCuisine c s' = SELECT_tCuisine c s ++ more)
  /\ (forall a, exists more, SELECT_tAction a s' = SELECT_tAction a s ++ more)
  /\ (forall v, exists more, SELECT_tViol v s' = SELECT_tViol v s ++ more)
  /\ (forall c, exists more, SELECT_tRest c s' = SELECT_tRest c s ++ more)
  /\ (forall c d t v, exists more,
         SELECT_tInsp c d t v s' = SELECT_tInsp c d t v s ++ more).

(** The ranges of the three draws of a row. *)
Definition draw_in_range (hms : Z * Z * Z) : Prop :=
  match hms with
  | (hi, mi, si) => 9 <= hi <= 17 /\ 0 <= mi <= 60 /\ 0 <= si <= 60
  end.

(** No file is one that [pd.read_csv] rejects with an exception of a
    class that cannot be built from one message: [UnicodeDecodeError]
    for a file that is not UTF-8. *)
Definition decodable (fs : filesystem) : Prop :=
  forall path c, In (path, read_csv_raises c) fs ->
                 c <> UnicodeDecodeError /\ c <> UnicodeEncodeError.

(** The invariant of the schema: every restaurant refers to a cuisine of
    the store, every inspection to a restaurant, a violation and an
    action of the store. *)
Definition consistent (s : store) : Prop :=
  (forall r, In r (tRest s) ->
             has_key (r_cuisine_id r) fst (tCuisine s) = true)
  /\ (forall i, In i (tInsp s) ->
                has_key (i_camis i) r_camis (tRest s) = true
                /\ has_text (i_viol_id i) fst (tViol s) = true
                /\ has_key (i_action_id i) fst (tAction s) = true).

(** ** Sample data *)

Definition sample_row : csv_row :=
  mk_row (Some 41) (Some "CAFE"%string) (Some "Queens"%string) (Some "1"%string)
         (Some "Main St"%string) (Some 11101) None (Some "Thai"%string)
         (Some "01/02/2020"%string) (Some "Violations were cited"%string)
         (Some "04L"%string) (Some "Evidence of mice"%string).

(** The store once a file holding [sample_row] alone is loaded into an
    empty database. *)
Definition sample_store : store :=
  mk_store [(1, "Thai"%string)] 1
           [("04L"%string, "Evidence of mice"%string)]
           [(1, "Violations were cited"%string)] 1
           [mk_rest 41 "CAFE" "Queens" "1" "Main St" (Some 11101) None 1 eq_refl]
           [mk_insp 41 "01/02/2020" "13:25:54" "04L" 1 eq_refl].

Definition new_db : NYCDB := mk_db empty_store closed_conn.

(** An intake directory with a file that is not UTF-8 and a good one. *)
Definition sample_files : filesystem :=
  [("data/to_load/nyc_a.csv"%string, read_csv_raises UnicodeDecodeError);
   ("data/to_load/nyc_b.csv"%string, DataFrame all_columns [sample_row])].

(** ** Invariants of the store and of the pipeline *)

(** The composite primary key of an inspection. *)
Definition insp_key (r : insp_row) : Z * string * string * string :=
  (i_camis r, i_insp_date r, i_insp_time r, i_viol_id r).

(** No two rows of a table share a key: the identifiers and the
    descriptions of the cuisines and of the actions, the violation
    codes, the restaurant identifiers, the keys of the inspections. *)
Definition unique_keys (s : store) : Prop :=
  NoDup (map fst (tCuisine s))
  /\ NoDup (map snd (tCuisine s))
  /\ NoDup (map fst (tAction s))
  /\ NoDup (map snd (tAction s))
  /\ NoDup (map fst (tViol s))
  /\ NoDup (map r_camis (tRest s))
  /\ NoDup (map insp_key (tInsp s)).

(** Every number of the list is below all the numbers after it. *)
Fixpoint increasing (l : list Z) : Prop :=
  match l with
  | [] => True
  | x :: l' => Forall (fun y => x < y) l' /\ increasing l'
  end.

(** The rows of the three tables whose rowid is a column are listed by
    increasing rowid, so that the order of the list is the order of a
    scan. *)
Definition rowid_order (s : store) : Prop :=
  increasing (map fst (tCuisine s))
  /\ increasing (map fst (tAction s))
  /\ increasing (map r_camis (tRest s)).

(** The first list is the second with some of its elements left out. *)
Inductive subsequence {A : Type} : list A -> list A -> Prop :=
| subsequence_nil : subsequence [] []
| subsequence_skip x l l' : subsequence l l' -> subsequence l (x :: l')
| subsequence_keep x l l' : subsequence l l' -> subsequence (x :: l) (x :: l').

(** Every table of the later store holds the rows of the earlier one,
    unchanged and in their order: four tables with rows added at the
    end, [tRest] with rows added where their [camis] puts them. *)
Definition only_added (s s' : store) : Prop :=
  (exists more, tCuisine s' = tCuisine s ++ more)
  /\ (exists more, tAction s' = tAction s ++ more)
  /\ (exists more, tViol s' = tViol s ++ more)
  /\ subsequence (tRest s) (tRest s')
  /\ (exists more, tInsp s' = tInsp s ++ more).

(** The lookup that precedes an INSERT in its resolve-or-create
    function finds no row. *)
Definition lookup_misses (sql : action_sql) (s : store) : Prop :=
  match sql with
  | INSERT_tCuisine cuisine => SELECT_tCuisine cuisine s = []
  | INSERT_tAction action_desc => SELECT_tAction action_desc s = []
  | INSERT_tViol viol_id _ => SELECT_tViol viol_id s = []
  | INSERT_tRest camis _ _ _ _ _ _ _ => SELECT_tRest (Z_of_option camis) s = []
  | INSERT_tInsp camis insp_date insp_time viol_id _ =>
      SELECT_tInsp (Z_of_option camis) insp_date insp_time viol_id s = []
  | unbound _ _ => True
  end.

(** What a resolve-or-create call that returns does to the store its
    connection sees: nothing, or the INSERT that follows a lookup that
    found nothing. *)
Inductive resolves : store -> store -> Prop :=
| resolves_found s : resolves s s
| resolves_created sql s s' lastrowid :
    lookup_misses sql s ->
    execute sql s = inr (s', lastrowid) ->
    resolves s s'.

Inductive resolves_star : store -> store -> Prop :=
| resolves_star_nil s : resolves_star s s
| resolves_star_cons s s' s'' :
    resolves s s' -> resolves_star s' s'' -> resolves_star s s''.

(** What any part of a load before its commit does to the object,
    whether it returns or raises: the committed store is left alone, and
    the connection sees a store that resolve-or-create calls made from
    the committed store or from the store it saw before. *)
Definition carried (db db' : NYCDB) : Prop :=
  disk db' = disk db
  /\ (resolves_star (disk db) (view db')
      \/ resolves_star (view db) (view db')).

(** The three loaders have one shape: a lookup, and an INSERT when it
    finds nothing. *)
Definition insert_if_absent {A} (query : query_sql A) (sql : action_sql)
    (db : NYCDB) : outcome unit * NYCDB :=
  match query with
  | unbound_query table b =>
      (Raise (raised (class_of (not_bound b)) (query_params table)),
       connected db)
  | bound_query rows =>
      match rows (view db) with
      | _ :: _ => (Return tt, connected db)
      | [] =>
          match execute sql (view db) with
          | inl e => (Raise (raised (class_of e) (sql_params sql)),
                      mk_db (disk db) closed_conn)
          | inr (txn, _) => (Return tt, mk_db (disk db) (open_conn txn))
          end
      end
  end.

(** The classes of the exceptions of the pipeline: each can be built
    from one message. *)
Definition pipeline_class (c : pyclass) : Prop :=
  c = IntegrityError \/ c = OperationalError \/ c = OverflowError
  \/ c = KeyError.

(** Whatever a resolve-or-create call does, it leaves the committed
    store alone.  When it returns, the connection is open on a store
    that [resolves] relates to the one it found.  When it raises from
    its INSERT the connection is closed; when it raises from its SELECT
    the connection is open on the store it found. *)
Definition resolve_outcome {A} (db : NYCDB) (r : outcome A * NYCDB) : Prop :=
  disk (snd r) = disk db
  /\ match fst r with
     | Return _ => conn (snd r) = open_conn (view (snd r))
                   /\ resolves (view db) (view (snd r))
     | Raise e => (conn (snd r) = closed_conn \/ snd r = connected db)
                  /\ pipeline_class (exn_class e)
     end.

(** What every call of the loop body does, whether it returns or
    raises. *)
Definition well_behaved {A} (m : M A) : Prop :=
  forall db,
    carried db (snd (m db))
    /\ forall e, fst (m db) = Raise e -> pipeline_class (exn_class e).

(** ** More sample data *)

(** A row without a violation code, as the feed has for an inspection
    that found nothing. *)
Definition row_without_violation : csv_row :=
  mk_row (Some 50) (Some "DINER"%string) (Some "Bronx"%string) (Some "2"%string)
         (Some "Elm St"%string) None None (Some "American"%string)
         (Some "03/04/2021"%string) (Some "No violations"%string) None None.

(** An intake directory with a file that does not parse and a good one,
    on a new database. *)
Definition sample_world : world :=
  mk_world [("data/to_load/nyc_a.csv"%string, read_csv_raises ParserError);
            ("data/to_load/nyc_b.csv"%string, DataFrame all_columns [sample_row])]
           new_db [].

Definition sample_world_scanned : world :=
  mk_world [("data/to_load/nyc_a.csv"%string, read_csv_raises ParserError);
            ("data/loaded/nyc_b.csv"%string, DataFrame all_columns [sample_row])]
           (mk_db sample_store closed_conn)
           ["Loading data/to_load/nyc_a.csv"%string;
            "Loading data/to_load/nyc_b.csv"%string].

(** A file whose second row has no violation code. *)
Definition files_with_bad_row : filesystem :=
  [("data/to_load/nyc_c.csv"%string,
    DataFrame all_columns [sample_row; row_without_violation])].

(** A second row, and an export that was one row long and then two. *)
Definition second_row : csv_row :=
  mk_row (Some 50) (Some "DINER"%string) (Some "Bronx"%string) (Some "2"%string)
         (Some "Elm St"%string) None None (Some "American"%string)
         (Some "03/04/2021"%string) (Some "Violations were cited"%string)
         (Some "10F"%string) (Some "Non-food contact surface"%string).

Definition grown_files : filesystem :=
  [("data/to_load/nyc_1.csv"%string, DataFrame all_columns [sample_row]);
   ("data/to_load/nyc_2.csv"%string, DataFrame all_columns [sample_row; second_row])].

(** The store once [nyc_1.csv] and then [nyc_2.csv] are loaded. *)
Definition grown_store : store :=
  mk_store [(1, "Thai"%string); (2, "American"%string)] 2
           [("04L"%string, "Evidence of mice"%string);
            ("10F"%string, "Non-food contact surface"%string)]
           [(1, "Violations were cited"%string)] 1
           [mk_rest 41 "CAFE" "Queens" "1" "Main St" (Some 11101) None 1 eq_refl;
            mk_rest 50 "DINER" "Bronx" "2" "Elm St" None None 2 eq_refl]
           [mk_insp 41 "01/02/2020" "13:25:54" "04L" 1 eq_refl;
            mk_insp 41 "01/02/2020" "13:03:23" "04L" 1 eq_refl;
            mk_insp 50 "03/04/2021" "15:19:39" "10F" 1 eq_refl].

(** ** Reversing the archive (NYCDB.revert) *)

(** [glob(PATH_LOADED + FILE_PATTERN)] *)
Definition glob_loaded (fs : filesystem) : list string :=
  filter (fun path =>
            match strip_prefix PATH_LOADED path with
            | Some name =>
                is_file_name name
                && fnmatch_chars (list_ascii_of_string FILE_PATTERN)
                                 (list_ascii_of_string name)
            | None => false
            end)
         (map fst fs).

(** The loop of [revert]; no exception is caught. *)
Fixpoint revert_loop (paths : list string) (fs : filesystem)
    : outcome unit * filesystem :=
  match paths with
  | [] => (Return tt, fs)
  | file :: paths' =>
      match os_rename file (replace file PATH_LOADED PATH_TO_LOAD) fs with
      | Return fs' => revert_loop paths' fs'
      | Raise e => (Raise e, fs)
      end
  end.

Definition revert (w : world) : outcome unit * world :=
  let (o, fs) := revert_loop (glob_loaded (files w)) (files w) in
  (o, mk_world fs (nycdb w) (stdout w)).

(** The paths of a directory: its files, each under its own name. *)
Definition well_formed (fs : filesystem) : Prop := NoDup (map fst fs).

(** An archive with one loaded file. *)
Definition archived_files : filesystem :=
  [("data/to_load/nyc_a.csv"%string, read_csv_raises ParserError);
   ("data/loaded/nyc_b.csv"%string, DataFrame all_columns [sample_row])].


(** ** Files that fail after their first writes *)

(** A row whose identifier is beyond 64 bits: its cuisine, action and
    violation are written before [load_rest] fails to bind it. *)
Definition overflow_row : csv_row :=
  mk_row (Some 9223372036854775808) (Some "BISTRO"%string)
         (Some "Manhattan"%string) (Some "3"%string) (Some "Oak St"%string)
         None None (Some "American"%string) (Some "05/06/2022"%string)
         (Some "Closed"%string) (Some "10F"%string)
         (Some "Non-food contact surface"%string).

(** A restaurant whose identifier is below the one of [sample_row]. *)
Definition low_row : csv_row :=
  mk_row (Some 7) (Some "DELI"%string) (Some "Brooklyn"%string)
         (Some "9"%string) (Some "Pine St"%string) None None
         (Some "American"%string) (Some "03/04/2021"%string)
         (Some "Violations were cited"%string) (Some "10F"%string)
         (Some "Non-food contact surface"%string).

Definition mixed_files : filesystem :=
  [("data/to_load/nyc_a.csv"%string, DataFrame all_columns [overflow_row]);
   ("data/to_load/nyc_b.csv"%string, read_csv_raises ParserError);
   ("data/to_load/nyc_c.csv"%string,
    DataFrame all_columns [sample_row; low_row])].

(** An intake directory on a database that holds [sample_row]: a file
    that fails with the connection left open, a file that does not
    parse, and a file of two rows. *)
Definition mixed_world : world :=
  mk_world mixed_files (mk_db sample_store closed_conn) [].

(** What the connection holds once [nyc_a.csv] has failed: the rows of
    [sample_store] and, not committed, the cuisine, the action and the
    violation of [overflow_row]. *)
Definition pending_store : store :=
  mk_store [(1, "Thai"%string); (2, "American"%string)] 2
           [("04L"%string, "Evidence of mice"%string);
            ("10F"%string, "Non-food contact surface"%string)]
           [(1, "Violations were cited"%string); (2, "Closed"%string)] 2
           [mk_rest 41 "CAFE" "Queens" "1" "Main St" (Some 11101) None 1 eq_refl]
           [mk_insp 41 "01/02/2020" "13:25:54" "04L" 1 eq_refl].

Definition pending_db : NYCDB := mk_db sample_store (open_conn pending_store).

(** The store once [mixed_world] is scanned. *)
Definition mixed_store : store :=
  mk_store [(1, "Thai"%string); (2, "American"%string)] 2
           [("04L"%string, "Evidence of mice"%string);
            ("10F"%string, "Non-food contact surface"%string)]
           [(1, "Violations were cited"%string); (2, "Closed"%string)] 2
           [mk_rest 7 "DELI" "Brooklyn" "9" "Pine St" None None 2 eq_refl;
            mk_rest 41 "CAFE" "Queens" "1" "Main St" (Some 11101) None 1 eq_refl]
           [mk_insp 41 "01/02/2020" "13:25:54" "04L" 1 eq_refl;
            mk_insp 41 "01/02/2020" "13:03:23" "04L" 1 eq_refl;
            mk_insp 7 "03/04/2021" "15:19:39" "10F" 1 eq_refl].

Definition mixed_world_scanned : world :=
  mk_world
    [("data/to_load/nyc_a.csv"%string, DataFrame all_columns [overflow_row]);
     ("data/to_load/nyc_b.csv"%string, read_csv_raises ParserError);
     ("data/loaded/nyc_c.csv"%string,
      DataFrame all_columns [sample_row; low_row])]
    (mk_db mixed_store closed_conn)
    ["Loading data/to_load/nyc_a.csv"%string;
     "Loading data/to_load/nyc_b.csv"%string;
     "Loading data/to_load/nyc_c.csv"%string].



(** Every frame of the directory has at most a hundred rows. *)
Definition small_frames (fs : filesystem) : Prop :=
  forall path columns df,
    In (path, DataFrame columns df) fs -> (List.length df <= 100)%nat.
(** ** Creating the database (BaseDB.__init__, _check_exists,
       NYCDB.__init__, _create_tables)

    The paths are POSIX paths ([os.sep] is a slash) and the path given
    to the constructor is in normal form, so that [os.path.normpath]
    returns it.  What the functions print is left out. *)

Definition PATH_DB : string := "data/nyc_health.sqlite".

(** [s.split(sep)] for a separator of one character. *)
Fixpoint str_split (sep : ascii) (s : string) : list string :=
  match s with
  | EmptyString => [EmptyString]
  | String c s' =>
      if Ascii.eqb c sep then EmptyString :: str_split sep s'
      else match str_split sep s' with
           | part :: parts => String c part :: parts
           | [] => [String c EmptyString]
           end
  end.

(** [sep.join(parts)] *)
Fixpoint str_join (sep : string) (parts : list string) : string :=
  match parts with
  | [] => EmptyString
  | part :: parts' =>
      match parts' with
      | [] => part
      | _ :: _ => String.append part (String.append sep (str_join sep parts'))
      end
  end.

Module Bootstrap.

(** A database file: the tables created in it and their rows. *)
Record sqlite_db := mk_sqlite { tables : list string; rows : store }.

(** What the constructor sees of the machine: the directories that
    exist and the database files, by path. *)
Record machine := mk_machine {
  directories : list string;
  databases : list (string * sqlite_db)
}.

Inductive error :=
| FileNotFound (message : string)     (* FileNotFoundError; from the system, the path *)
| FileExists (path : string)          (* FileExistsError *)
| Operational (message : string).     (* sqlite3.OperationalError *)

Definition mem (path : string) (paths : list string) : bool :=
  existsb (String.eqb path) paths.

(** [os.path.exists]; the empty path does not exist. *)
Definition os_path_exists (path : string) (m : machine) : bool :=
  negb (String.eqb path "")
  && (mem path (directories m) || mem path (map fst (databases m))).

(** The directory a path lies in; the empty path stands for the
    working directory. *)
Definition dirname (path : string) : string :=
  str_join "/" (removelast (str_split "/" path)).

Definition parent_exists (path : string) (m : machine) : bool :=
  String.eqb (dirname path) "" || mem (dirname path) (directories m).

(** [os.mkdir] *)
Definition os_mkdir (path : string) (m : machine) : error + machine :=
  if String.eqb path "" then inl (FileNotFound path)
  else if os_path_exists path m then inl (FileExists path)
  else if negb (parent_exists path m) then inl (FileNotFound path)
  else inr (mk_machine (directories m ++ [path]) (databases m)).

(** [sqlite3.connect] followed by a close: a file that does not exist is
    created, empty, when its directory exists. *)
Definition sqlite3_connect (path : string) (m : machine) : error + machine :=
  if mem path (directories m)
  then inl (Operational "unable to open database file")
  else if mem path (map fst (databases m)) then inr m
  else if negb (parent_exists path m)
  then inl (Operational "unable to open database file")
  else inr (mk_machine (directories m)
                       (databases m ++ [(path, mk_sqlite [] empty_store)])).

Fixpoint find_db (path : string) (dbs : list (string * sqlite_db))
    : option sqlite_db :=
  match dbs with
  | [] => None
  | (p, d) :: dbs' => if String.eqb path p then Some d else find_db path dbs'
  end.

Fixpoint set_db (path : string) (d : sqlite_db)
    (dbs : list (string * sqlite_db)) : list (string * sqlite_db) :=
  match dbs with
  | [] => []
  | (p, d') :: dbs' =>
      if String.eqb path p then (p, d) :: dbs'
      else (p, d') :: set_db path d dbs'
  end.

(** [run_action] of a CREATE TABLE statement, with [keep_open] off: the
    statement is committed as it runs; it fails when the table
    exists (the statement is named by its table). *)
Definition create_table (name : string) (path : string) (m : machine)
    : error + machine :=
  match sqlite3_connect path m with
  | inl e => inl e
  | inr m1 =>
      match find_db path (databases m1) with
      | None => inl (Operational "unable to open database file")
      | Some d =>
          if mem name (tables d)
          then inl (Operational (String.append "sql: CREATE TABLE " name))
          else inr (mk_machine (directories m1)
                      (set_db path (mk_sqlite (tables d ++ [name]) (rows d))
                              (databases m1)))
      end
  end.

Definition table_names : list string :=
  ["tCuisine"; "tViol"; "tAction"; "tRest"; "tInsp"]%string.

(** [_create_tables]: the five statements in turn; the first failure
    ends it. *)
Fixpoint create_tables (names : list string) (path : string) (m : machine)
    : option error * machine :=
  match names with
  | [] => (None, m)
  | name :: names' =>
      match create_table name path m with
      | inl e => (Some e, m)
      | inr m' => create_tables names' path m'
      end
  end.

Definition _create_tables (path : string) (m : machine) : option error * machine :=
  create_tables table_names path m.

(** The paths [_check_exists] looks at: the path cut after each of its
    parts. *)
Definition prefixes (path : string) : list string :=
  let path_parts := str_split "/" path in
  map (fun i => str_join "/" (firstn (i + 1) path_parts))
      (seq 0 (List.length path_parts)).

(** The loop of [_check_exists] over the indices left, with
    [self._existed] and [self._conn] as they stand. *)
Fixpoint check_loop (create : bool) (path : string) (path_parts : list string)
    (n : nat) (indices : list nat) (existed : bool) (c : connection)
    (m : machine) : (error + bool * connection) * machine :=
  match indices with
  | [] => (inr (existed, c), m)
  | i :: indices' =>
      let part := str_join "/" (firstn (i + 1) path_parts) in
      if os_path_exists part m
      then check_loop create path path_parts n indices' existed c m
      else if negb create
      then (inl (FileNotFound (String.append part " does not exist.")), m)
      else if Nat.eqb i (n - 1)
      then match sqlite3_connect path m with
           | inl e => (inl e, m)
           | inr m' =>
               check_loop create path path_parts n indices' false closed_conn m'
           end
      else match os_mkdir part m with
           | inl e => (inl e, m)
           | inr m' => check_loop create path path_parts n indices' false c m'
           end
  end.

Definition _check_exists (create : bool) (path : string) (m : machine)
    : (error + bool * connection) * machine :=
  let path_parts := str_split "/" path in
  let n := List.length path_parts in
  check_loop create path path_parts n (seq 0 n) true no_conn m.

(** [NYCDB.__init__]: the object's [_existed] and [_conn] when it
    returns. *)
Definition NYCDB_init (create : bool) (m : machine)
    : (error + bool * connection) * machine :=
  match _check_exists create PATH_DB m with
  | (inl e, m') => (inl e, m')
  | (inr (existed, c), m') =>
      if existed then (inr (existed, c), m')
      else match _create_tables PATH_DB m' with
           | (Some e, m'') => (inl e, m'')
           | (None, m'') => (inr (existed, closed_conn), m'')
           end
  end.

(** Nothing that existed is gone: directories and database files are
    only added. *)
Definition keeps (m m' : machine) : Prop :=
  exists dirs dbs,
    directories m' = directories m ++ dirs
    /\ databases m' = databases m ++ dbs.

Definition empty_machine : machine := mk_machine [] [].

(** A machine where the directory and a database file without tables
    are there. *)
Definition machine_with_empty_file : machine :=
  mk_machine ["data"%string] [(PATH_DB, mk_sqlite [] empty_store)].

End Bootstrap.

(** * Integers that fit 64 bits *)

Lemma fits_irrelevant (z : Z) (p q : fits_int64 z = true) : p = q.
Proof. apply UIP_dec, Bool.bool_dec. Qed.

Lemma to_int64_Some (z : Z) (i : int64) : to_int64 z = Some i -> Z_of i = z.
Proof.
  unfold to_int64.
  generalize (eq_refl (fits_int64 z)).
  generalize (fits_int64 z) at 2 3.
  intros [|] H E; [|discriminate]. injection E as <-. reflexivity.
Qed.

Lemma to_int64_fits (z : Z) :
  fits_int64 z = true -> exists i, to_int64 z = Some i /\ Z_of i = z.
Proof.
  intros F. unfold to_int64.
  generalize (eq_refl (fits_int64 z)).
  generalize (fits_int64 z) at 2 3.
  intros [|] H; [|congruence]. eexists. split; reflexivity.
Qed.

Lemma to_int64_None (z : Z) : to_int64 z = None -> fits_int64 z = false.
Proof.
  intros E. destruct (fits_int64 z) eqn:F; [|reflexivity].
  destruct (to_int64_fits z F) as (i & Hi & _). congruence.
Qed.

Lemma to_int64_or_NULL_Some (z : option Z) (i : option int64) :
  to_int64_or_NULL z = Some i -> Z_of_option i = z.
Proof.
  destruct z as [z|]; simpl.
  - destruct (to_int64 z) as [j|] eqn:E; [|discriminate].
    intros H; injection H as <-. simpl. f_equal. apply to_int64_Some, E.
  - intros H; injection H as <-. reflexivity.
Qed.

Lemma to_int64_or_NULL_fits (z : option Z) :
  fits_or_NULL z = true ->
  exists i, to_int64_or_NULL z = Some i /\ Z_of_option i = z.
Proof.
  destruct z as [z|]; simpl; intros F.
  - destruct (to_int64_fits z F) as (i & -> & Hi). exists (Some i).
    split; [reflexivity | simpl; congruence].
  - exists None. split; reflexivity.
Qed.

(** * Properties of the gateway *)

Lemma connect_eq (db : NYCDB) : _connect db = (Return tt, connected db).
Proof.
  destruct db as [d c]; unfold _connect, connected, _connected, view.
  destruct c; reflexivity.
Qed.

Lemma view_connected (db : NYCDB) : view (connected db) = view db.
Proof. reflexivity. Qed.

Lemma connected_idem (db : NYCDB) : connected (connected db) = connected db.
Proof. reflexivity. Qed.

Lemma run_query_keep_open {A} (rows : store -> list A) (db : NYCDB) :
  run_query (bound_query rows) true db
  = (Return (rows (view db)), connected db).
Proof. unfold run_query, bind. rewrite connect_eq. reflexivity. Qed.

(** A SELECT whose parameters cannot be bound raises and leaves the
    connection open, with whatever its transaction holds. *)
Lemma run_query_unbound {A} (table : string) (b : binding_error) (db : NYCDB) :
  run_query (@unbound_query A table b) true db
  = (Raise (raised (class_of (not_bound b)) (query_params table)),
     connected db).
Proof. unfold run_query, bind. rewrite connect_eq. reflexivity. Qed.

Lemma raised_class (c : pyclass) (m : message) :
  c <> UnicodeDecodeError -> c <> UnicodeEncodeError ->
  raised c m = mk_exn c m.
Proof. intros H1 H2. destruct c; try reflexivity; contradiction. Qed.

(** The failures of SQLite itself and of an [int] that is too large
    have a class that is rebuilt from the message. *)
Lemma raised_class_of (e : execute_error) (m : message) :
  e <> not_bound surrogates_not_allowed ->
  raised (class_of e) m = mk_exn (class_of e) m.
Proof.
  intros H. destruct e as [[|]| | | | |]; try reflexivity.
  contradiction H; reflexivity.
Qed.

Lemma run_action_raises (sql : action_sql) (keep_open : bool) (db : NYCDB)
    (e : execute_error) :
  execute sql (view db) = inl e ->
  run_action sql keep_open db
  = (Raise (raised (class_of e) (sql_params sql)), mk_db (disk db) closed_conn).
Proof.
  intros He. unfold run_action, bind. rewrite connect_eq, view_connected, He.
  destruct keep_open; reflexivity.
Qed.

Lemma run_action_returns (sql : action_sql) (db : NYCDB) (txn : store)
    (lastrowid : Z) :
  execute sql (view db) = inr (txn, lastrowid) ->
  run_action sql true db = (Return lastrowid, mk_db (disk db) (open_conn txn)).
Proof.
  intros He. unfold run_action, bind. rewrite connect_eq, view_connected, He.
  reflexivity.
Qed.

(** What [run_action] does for every failure whose class is rebuilt from
    one message: the exception has the class of the failure and carries
    the statement; the transaction is rolled back and the connection is
    closed whatever [keep_open] says, so nothing written since the last
    commit survives. *)
Lemma run_action_failure (sql : action_sql) (keep_open : bool) (db : NYCDB)
    (e : execute_error) :
  execute sql (view db) = inl e ->
  e <> not_bound surrogates_not_allowed ->
  exists db',
    run_action sql keep_open db
    = (Raise (mk_exn (class_of e) (sql_params sql)), db')
    /\ _connected db' = false
    /\ conn db' = closed_conn
    /\ disk db' = disk db
    /\ view db' = disk db.
Proof.
  intros He Hne. eexists. split.
  - rewrite (run_action_raises _ _ _ _ He), raised_class_of by exact Hne.
    reflexivity.
  - repeat split.
Qed.

(** The rollback of the [except] branch, on its own: the transaction
    under way is dropped and the connection stays open on the committed
    store. *)
Example rollback_drops_transaction :
  let pending := with_tCuisine empty_store [(1, "Thai"%string)] 1 in
  rollback (mk_db empty_store (open_conn pending))
  = (Return tt, mk_db empty_store (open_conn empty_store)).
Proof. reflexivity. Qed.

(** The rows of a transaction under way go with the failed statement. *)
Example run_action_failure_in_flight :
  let pending := with_tCuisine empty_store [(1, "Thai"%string)] 1 in
  run_action (INSERT_tCuisine None) true (mk_db empty_store (open_conn pending))
  = (Raise (mk_exn IntegrityError (sql_params (INSERT_tCuisine None))),
     mk_db empty_store closed_conn).
Proof. reflexivity. Qed.

(** C7.  The statement of [run_action] fails with [UnicodeEncodeError]
    when a [str] parameter holds a lone surrogate.  The exception that
    [run_action] then raises is not of that class and does not carry the
    statement: building [UnicodeEncodeError] from one message raises
    [TypeError], and that [TypeError] is what leaves [run_action], after
    the rollback and the close. *)
Theorem run_action_loses_encode_failure (table : string) (keep_open : bool)
    (db : NYCDB) :
  execute (unbound table surrogates_not_allowed) (view (connected db))
  = inl (not_bound surrogates_not_allowed)
  /\ class_of (not_bound surrogates_not_allowed) = UnicodeEncodeError
  /\ run_action (unbound table surrogates_not_allowed) keep_open db
     = (Raise (mk_exn TypeError
                 (library_text "function takes exactly 5 arguments (1 given)")),
        mk_db (disk db) closed_conn).
Proof.
  split; [reflexivity|]. split; [reflexivity|].
  rewrite (run_action_raises _ _ _ (not_bound surrogates_not_allowed));
    reflexivity.
Qed.

(** * Constraints enforced at write time *)

Lemma execute_without_references (sql : action_sql) (s : store) :
  references_present sql s = false ->
  exists e, execute sql s = inl e /\ class_of e = IntegrityError.
Proof.
  destruct sql as [d | d | v d | camis dba boro building street zip phone cid
                   | camis date time v aid | table b]; simpl; try discriminate.
  - intros H.
    destruct dba, boro, building, street, camis as [camis|];
      try (eexists; split; reflexivity).
    + unfold insert_tRest.
      destruct (has_key camis r_camis (tRest s));
        [eexists; split; reflexivity|].
      rewrite H. eexists; split; reflexivity.
    + rewrite H. eexists; split; reflexivity.
  - intros H.
    destruct camis as [camis|], date, time, v as [v|];
      try (eexists; split; reflexivity).
    destruct (negb _); [eexists; split; reflexivity|].
    destruct (existsb _ _); [eexists; split; reflexivity|].
    rewrite H. eexists; split; reflexivity.
Qed.

Lemma class_of_IntegrityError (e : execute_error) (m : message) :
  class_of e = IntegrityError -> raised (class_of e) m = mk_exn IntegrityError m.
Proof. intros ->. reflexivity. Qed.

(** C2.  With foreign keys on, an INSERT into [tInsp] whose restaurant,
    violation or action is not in the store at that moment, and an
    INSERT into [tRest] whose cuisine is not, raises [IntegrityError]
    with the statement as context; the object is left closed on the
    committed store, which is unchanged, so the row is not persisted. *)
Theorem referential_integrity (sql : action_sql) (keep_open : bool) (db : NYCDB) :
  references_present sql (view db) = false ->
  exists db',
    run_action sql keep_open db
    = (Raise (mk_exn IntegrityError (sql_params sql)), db')
    /\ conn db' = closed_conn
    /\ disk db' = disk db
    /\ view db' = disk db.
Proof.
  intros H. destruct (execute_without_references _ _ H) as (e & He & Hc).
  exists (mk_db (disk db) closed_conn).
  rewrite (run_action_raises _ _ _ _ He), (class_of_IntegrityError _ _ Hc).
  repeat split.
Qed.

Lemma lower_slash (c : ascii) :
  Ascii.eqb (lower "/") (lower c) = is_slash c.
Proof.
  destruct c as [[|] [|] [|] [|] [|] [|] [|] [|]]; reflexivity.
Qed.

(** The CHECK on [insp_date] is the two-two-four pattern of characters. *)
Lemma LIKE_date (d : string) : LIKE d "__/__/____" = characters_date d.
Proof.
  unfold LIKE, characters_date.
  destruct (until_NUL (list_ascii_of_string d)) as [|c1 [|c2 [|c3 [|c4 [|c5 [|c6 [|c7
    [|c8 [|c9 [|c10 [|c11 l]]]]]]]]]]]; try reflexivity;
    cbn -[lower is_slash]; rewrite !lower_slash;
    rewrite ?andb_true_r, ?andb_false_r; reflexivity.
Qed.

Lemma execute_bad_date (camis : option int64) (d : string)
    (t v : option string) (a : int64) (s : store) :
  characters_date d = false ->
  exists e, execute (INSERT_tInsp camis (Some d) t v a) s = inl e
            /\ class_of e = IntegrityError.
Proof.
  intros H. simpl. destruct camis as [camis|], t as [t|], v as [v|];
    try (eexists; split; reflexivity).
  rewrite LIKE_date, H. simpl. eexists; split; reflexivity.
Qed.

(** C5, as amended.  The CHECK constraint knows characters, not digits,
    and reads the date up to its first NUL character: every write of a
    [tInsp] row whose date, read so, is not two characters, a slash, two
    characters, a slash and four characters raises [IntegrityError], and
    the row is not persisted. *)
Theorem date_format_validation (camis : option int64) (d : string)
    (t v : option string) (a : int64) (keep_open : bool) (db : NYCDB) :
  characters_date d = false ->
  exists db',
    run_action (INSERT_tInsp camis (Some d) t v a) keep_open db
    = (Raise (mk_exn IntegrityError
                (sql_params (INSERT_tInsp camis (Some d) t v a))), db')
    /\ conn db' = closed_conn
    /\ disk db' = disk db
    /\ view db' = disk db.
Proof.
  intros H. destruct (execute_bad_date camis d t v a (view db) H) as (e & He & Hc).
  exists (mk_db (disk db) closed_conn).
  rewrite (run_action_raises _ _ _ _ He), (class_of_IntegrityError _ _ Hc).
  repeat split.
Qed.

(** C5, as stated, fails: a date of letters in the two-two-four shape is
    not of the digit format, yet the row is written, committed and
    persisted without any exception. *)
Lemma date_of_letters_is_persisted :
  let s := mk_store [(1, "Thai"%string)] 1
                    [("04L"%string, "Evidence of mice"%string)]
                    [(1, "Violations were cited"%string)] 1
                    [mk_rest 41 "CAFE" "Queens" "1" "Main St" None None 1
                             eq_refl] [] in
  let written := mk_insp 41 "ab/cd/efgh" "09:00:00" "04L" 1 eq_refl in
  digits_date "ab/cd/efgh" = false
  /\ (load_insp (Some 41) (Some "ab/cd/efgh"%string) (Some "09:00:00"%string)
                (Some "04L"%string) 1 ;;; commit ;;; _close)
       (mk_db s closed_conn)
     = (Return tt, mk_db (with_tInsp s [written]) closed_conn).
Proof. split; reflexivity. Qed.

(** The CHECK reads the date as SQLite reads a C string: a date of
    fifteen characters whose first ten have the shape and whose eleventh
    is NUL passes it, and the row is persisted with the whole date. *)
Example date_with_NUL_is_persisted :
  let s := mk_store [(1, "Thai"%string)] 1
                    [("04L"%string, "Evidence of mice"%string)]
                    [(1, "Violations were cited"%string)] 1
                    [mk_rest 41 "CAFE" "Queens" "1" "Main St" None None 1
                             eq_refl] [] in
  let date := String.append "01/02/2020" (String Ascii.zero "junk") in
  let written := mk_insp 41 date "09:00:00" "04L" 1 eq_refl in
  String.length date = 15%nat
  /\ digits_date date = false
  /\ characters_date date = true
  /\ (load_insp (Some 41) (Some date) (Some "09:00:00"%string)
                (Some "04L"%string) 1 ;;; commit ;;; _close)
       (mk_db s closed_conn)
     = (Return tt, mk_db (with_tInsp s [written]) closed_conn).
Proof. repeat split. Qed.

(** * Duplicate inspections *)

Lemma filter_nonempty {A} (f : A -> bool) (l : list A) (x : A) :
  In x l -> f x = true -> filter f l <> [].
Proof.
  intros Hin Hf Hnil.
  assert (Hx : In x (filter f l)) by (apply filter_In; auto).
  rewrite Hnil in Hx. exact Hx.
Qed.

(** C9.  When [tInsp] already holds a row with the same restaurant,
    date, time and violation, [load_insp] returns without inserting,
    whatever action it was given: the lookup compares the four key
    columns only, and the stored row keeps its action. *)
Theorem load_insp_existing_key (camis : Z) (d t v : string) (a : Z)
    (db : NYCDB) (r : insp_row) :
  In r (tInsp (view db)) ->
  same_insp_key camis d t v r = true ->
  exists db',
    load_insp (Some camis) (Some d) (Some t) (Some v) a db = (Return tt, db')
    /\ disk db' = disk db
    /\ view db' = view db
    /\ In r (tInsp (view db')).
Proof.
  intros Hin Hkey. exists (connected db).
  assert (Hfits : fits_int64 camis = true).
  { unfold same_insp_key in Hkey. apply andb_prop in Hkey. destruct Hkey as [Hkey _].
    apply andb_prop in Hkey. destruct Hkey as [Hkey _].
    apply andb_prop in Hkey. destruct Hkey as [Hkey _].
    apply Z.eqb_eq in Hkey. rewrite <- Hkey. apply i_camis_fits. }
  unfold load_insp, bind, sql_select_tInsp. simpl fits_or_NULL. rewrite Hfits.
  rewrite run_query_keep_open.
  pose proof (filter_nonempty _ _ _ Hin Hkey) as Hne.
  unfold SELECT_tInsp.
  destruct (filter (same_insp_key camis d t v) (tInsp (view db))) as [|x q];
    [contradiction|].
  repeat split. exact Hin.
Qed.

(** * The resolve-or-create operations *)

Lemma carried_on_connected (db : NYCDB) : carried_on db (connected db).
Proof. repeat split. apply grows_same. Qed.

Lemma filter_snoc {A} (f : A -> bool) (l : list A) (x : A) :
  filter f (l ++ [x]) = filter f l ++ (if f x then [x] else []).
Proof. rewrite filter_app. reflexivity. Qed.

Lemma map_fst_nil {A B} (l : list (A * B)) : map fst l = [] -> l = [].
Proof. destruct l; [reflexivity | discriminate]. Qed.

Lemma has_key_filter {A} (k : Z) (key : A -> Z) (t : list A) :
  has_key k key t = false -> filter (fun r => key r =? k) t = [].
Proof.
  unfold has_key. induction t as [|x t IH]; simpl; [reflexivity|].
  destruct (key x =? k); simpl; [discriminate | exact IH].
Qed.

Lemma has_text_filter {A} (k : string) (key : A -> string) (t : list A) :
  has_text k key t = false -> filter (fun r => String.eqb (key r) k) t = [].
Proof.
  unfold has_text. induction t as [|x t IH]; simpl; [reflexivity|].
  destruct (String.eqb (key x) k); simpl; [discriminate | exact IH].
Qed.

(** ** Rows of [tRest] *)

Lemma In_insert_by_camis (r x : rest_row) (t : list rest_row) :
  In x (insert_by_camis r t) <-> x = r \/ In x t.
Proof.
  induction t as [|y t IH]; simpl.
  - intuition congruence.
  - destruct (r_camis r <? r_camis y); simpl; [intuition congruence|].
    rewrite IH. intuition congruence.
Qed.

Lemma filter_insert_by_camis (f : rest_row -> bool) (r : rest_row)
    (t : list rest_row) :
  f r = false -> filter f (insert_by_camis r t) = filter f t.
Proof.
  intros Hr. induction t as [|y t IH]; simpl; [now rewrite Hr|].
  destruct (r_camis r <? r_camis y); simpl.
  - now rewrite Hr.
  - now rewrite IH.
Qed.

Lemma filter_insert_by_camis_new (f : rest_row -> bool) (r : rest_row)
    (t : list rest_row) :
  f r = true -> filter f t = [] -> filter f (insert_by_camis r t) = [r].
Proof.
  intros Hr. induction t as [|y t IH]; simpl; [now rewrite Hr|].
  destruct (f y) eqn:Hy; [discriminate|]. intros Ht.
  destruct (r_camis r <? r_camis y); simpl.
  - now rewrite Hr, Hy, Ht.
  - rewrite Hy. apply IH, Ht.
Qed.

Lemma fold_max_bounds (ids : list Z) (seq : Z) :
  seq <= fold_right Z.max seq ids
  /\ forall id, In id ids -> id <= fold_right Z.max seq ids.
Proof.
  induction ids as [|x ids [IH1 IH2]]; simpl.
  - split; [lia | contradiction].
  - split; [lia|]. intros id [<- | Hin]; [lia|].
    specialize (IH2 id Hin). lia.
Qed.

(** The rowid SQLite picks for a row that comes without one is not in
    the table. *)
Lemma next_rowid_fresh {A} (key : A -> Z) (t : list A) (c : int64) :
  next_rowid (map key t) = Some c -> has_key c key t = false.
Proof.
  intros H. unfold has_key.
  destruct (existsb (fun r => key r =? c) t) eqn:E; [|reflexivity].
  apply existsb_exists in E. destruct E as (r & Hin & Hr).
  apply Z.eqb_eq in Hr. exfalso.
  destruct t as [|x t]; [contradiction|].
  simpl in H. apply to_int64_Some in H.
  pose proof (fold_max_bounds (map key t) (key x)) as [B1 B2].
  destruct Hin as [<- | Hin]; [lia|].
  specialize (B2 (key r) (in_map key _ _ Hin)). lia.
Qed.

(** What a successful INSERT into [tRest] has done. *)
Lemma insert_tRest_returns (s s' : store) (camis : int64)
    (dba boro building street : string) (zip phone : option int64)
    (cuisine_id : int64) (lastrowid : Z) :
  insert_tRest s camis dba boro building street zip phone cuisine_id
  = inr (s', lastrowid) ->
  has_key camis r_camis (tRest s) = false
  /\ has_key cuisine_id fst (tCuisine s) = true
  /\ s' = with_tRest s
            (insert_by_camis
               (mk_rest camis dba boro building street (Z_of_option zip)
                        (Z_of_option phone) cuisine_id (Z_of_fits camis))
               (tRest s))
  /\ lastrowid = camis.
Proof.
  unfold insert_tRest.
  destruct (has_key camis r_camis (tRest s)); [discriminate|].
  destruct (has_key cuisine_id fst (tCuisine s)); [|discriminate].
  simpl. intros H; injection H as <- <-. repeat split.
Qed.

Lemma execute_tRest_returns (camis : option int64)
    (dba boro building street : option string) (zip phone : option int64)
    (cuisine_id : int64) (s s' : store) (lastrowid : Z) :
  execute (INSERT_tRest camis dba boro building street zip phone cuisine_id) s
  = inr (s', lastrowid) ->
  exists r,
    s' = with_tRest s (insert_by_camis r (tRest s))
    /\ has_key (r_camis r) r_camis (tRest s) = false
    /\ has_key cuisine_id fst (tCuisine s) = true
    /\ r_cuisine_id r = cuisine_id
    /\ lastrowid = r_camis r
    /\ forall c, camis = Some c -> r_camis r = c.
Proof.
  simpl. destruct dba, boro, building, street, camis as [camis|];
    try discriminate.
  - intros H. apply insert_tRest_returns in H.
    destruct H as (H1 & H2 & -> & ->). eexists. split; [reflexivity|].
    simpl. repeat split; try assumption. intros c Hc; injection Hc as <-.
    reflexivity.
  - destruct (negb _); [discriminate|].
    destruct (next_rowid _) as [c|] eqn:N; [|discriminate].
    intros H. apply insert_tRest_returns in H.
    destruct H as (H1 & H2 & -> & ->). eexists. split; [reflexivity|].
    simpl. repeat split; try assumption. discriminate.
Qed.

(** A lookup that finds a row was made with a key that binds. *)
Lemma SELECT_tRest_fits (camis : option Z) (s : store) :
  SELECT_tRest camis s <> [] -> fits_or_NULL camis = true.
Proof.
  destruct camis as [c|]; simpl; [|reflexivity]. intros H.
  destruct (filter _ _) as [|r q] eqn:F; [contradiction|].
  assert (Hr : In r (filter (fun r => r_camis r =? c) (tRest s)))
    by (rewrite F; left; reflexivity).
  apply filter_In in Hr. destruct Hr as [_ Hr]. apply Z.eqb_eq in Hr.
  rewrite <- Hr. apply r_camis_fits.
Qed.


(** ** The five functions, case by case *)

(** The outcome of [run_action] with [keep_open], by the outcome of the
    statement. *)
Lemma run_action_keep_open (sql : action_sql) (db : NYCDB) :
  run_action sql true db
  = match execute sql (view db) with
    | inl e => (Raise (raised (class_of e) (sql_params sql)),
                mk_db (disk db) closed_conn)
    | inr (txn, lastrowid) =>
        (Return lastrowid, mk_db (disk db) (open_conn txn))
    end.
Proof.
  destruct (execute sql (view db)) as [e | [txn r]] eqn:He.
  - apply run_action_raises, He.
  - apply run_action_returns, He.
Qed.

Ltac open_op :=
  unfold get_cuisine, get_action, load_viol, load_rest, load_insp, bind, ret;
  rewrite ?run_query_keep_open.

Lemma get_cuisine_eq (cuisine : option string) (db : NYCDB) :
  get_cuisine cuisine db
  = match SELECT_tCuisine cuisine (view db) with
    | cuisine_id :: _ => (Return cuisine_id, connected db)
    | [] =>
        match execute (INSERT_tCuisine cuisine) (view db) with
        | inl e => (Raise (raised (class_of e)
                             (sql_params (INSERT_tCuisine cuisine))),
                    mk_db (disk db) closed_conn)
        | inr (txn, lastrowid) =>
            (Return lastrowid, mk_db (disk db) (open_conn txn))
        end
    end.
Proof.
  open_op. destruct (SELECT_tCuisine cuisine (view db)); [|reflexivity].
  rewrite run_action_keep_open, view_connected. reflexivity.
Qed.

Lemma get_action_eq (action_desc : option string) (db : NYCDB) :
  get_action action_desc db
  = match SELECT_tAction action_desc (view db) with
    | action_id :: _ => (Return action_id, connected db)
    | [] =>
        match execute (INSERT_tAction action_desc) (view db) with
        | inl e => (Raise (raised (class_of e)
                             (sql_params (INSERT_tAction action_desc))),
                    mk_db (disk db) closed_conn)
        | inr (txn, lastrowid) =>
            (Return lastrowid, mk_db (disk db) (open_conn txn))
        end
    end.
Proof.
  open_op. destruct (SELECT_tAction action_desc (view db)); [|reflexivity].
  rewrite run_action_keep_open, view_connected. reflexivity.
Qed.

Lemma insert_if_absent_eq {A} (query : query_sql A) (sql : action_sql)
    (db : NYCDB) :
  (x <- run_query query true ;;
   match x with
   | [] => run_action sql true ;;; ret tt
   | _ :: _ => ret tt
   end) db
  = insert_if_absent query sql db.
Proof.
  unfold bind, ret, insert_if_absent. destruct query as [rows | table b].
  - rewrite run_query_keep_open. destruct (rows (view db)); [|reflexivity].
    rewrite run_action_keep_open, view_connected.
    destruct (execute sql (view db)) as [e | [txn r]]; reflexivity.
  - rewrite run_query_unbound. reflexivity.
Qed.

Lemma load_viol_eq (v d : option string) (db : NYCDB) :
  load_viol v d db
  = insert_if_absent (bound_query (SELECT_tViol v)) (INSERT_tViol v d) db.
Proof. apply insert_if_absent_eq. Qed.

Lemma load_rest_eq (camis : option Z) (dba boro building street : option string)
    (zip phone : option Z) (cuisine_id : Z) (db : NYCDB) :
  load_rest camis dba boro building street zip phone cuisine_id db
  = insert_if_absent (sql_select_tRest camis)
      (sql_insert_tRest camis dba boro building street zip phone cuisine_id) db.
Proof. apply insert_if_absent_eq. Qed.

Lemma load_insp_eq (camis : option Z) (d t v : option string) (a : Z)
    (db : NYCDB) :
  load_insp camis d t v a db
  = insert_if_absent (sql_select_tInsp camis d t v)
      (sql_insert_tInsp camis d t v a) db.
Proof. apply insert_if_absent_eq. Qed.

(** The statement [load_rest] passes to [run_action]: the INSERT with
    its parameters bound, or a statement that cannot be bound. *)
Lemma sql_insert_tRest_cases (camis : option Z)
    (dba boro building street : option string) (zip phone : option Z)
    (cuisine_id : Z) :
  (exists c z p k,
      sql_insert_tRest camis dba boro building street zip phone cuisine_id
      = INSERT_tRest c dba boro building street z p k
      /\ Z_of_option c = camis /\ Z_of k = cuisine_id)
  \/ sql_insert_tRest camis dba boro building street zip phone cuisine_id
     = unbound "tRest" int_too_large.
Proof.
  unfold sql_insert_tRest.
  destruct (to_int64_or_NULL camis) as [c|] eqn:Ec; [|right; reflexivity].
  destruct (to_int64_or_NULL zip) as [z|]; [|right; reflexivity].
  destruct (to_int64_or_NULL phone) as [p|]; [|right; reflexivity].
  destruct (to_int64 cuisine_id) as [k|] eqn:Ek; [|right; reflexivity].
  left. exists c, z, p, k. split; [reflexivity|].
  split; [apply to_int64_or_NULL_Some, Ec | apply to_int64_Some, Ek].
Qed.

Lemma sql_insert_tInsp_cases (camis : option Z) (d t v : option string)
    (action_id : Z) :
  (exists c a,
      sql_insert_tInsp camis d t v action_id = INSERT_tInsp c d t v a
      /\ Z_of_option c = camis /\ Z_of a = action_id)
  \/ sql_insert_tInsp camis d t v action_id = unbound "tInsp" int_too_large.
Proof.
  unfold sql_insert_tInsp.
  destruct (to_int64_or_NULL camis) as [c|] eqn:Ec; [|right; reflexivity].
  destruct (to_int64 action_id) as [a|] eqn:Ea; [|right; reflexivity].
  left. exists c, a. split; [reflexivity|].
  split; [apply to_int64_or_NULL_Some, Ec | apply to_int64_Some, Ea].
Qed.

(** ** A lookup that finds its row *)

Lemma get_cuisine_found (cuisine : option string) (db : NYCDB) (id : Z)
    (more : list Z) :
  SELECT_tCuisine cuisine (view db) = id :: more ->
  get_cuisine cuisine db = (Return id, connected db).
Proof. intros H. rewrite get_cuisine_eq, H. reflexivity. Qed.

Lemma get_action_found (action_desc : option string) (db : NYCDB) (id : Z)
    (more : list Z) :
  SELECT_tAction action_desc (view db) = id :: more ->
  get_action action_desc db = (Return id, connected db).
Proof. intros H. rewrite get_action_eq, H. reflexivity. Qed.


Lemma load_rest_found (camis : option Z)
    (dba boro building street : option string)
    (zip phone : option Z) (cuisine_id : Z) (db : NYCDB) :
  SELECT_tRest camis (view db) <> [] ->
  load_rest camis dba boro building street zip phone cuisine_id db
  = (Return tt, connected db).
Proof.
  intros H. rewrite load_rest_eq. unfold insert_if_absent, sql_select_tRest.
  rewrite (SELECT_tRest_fits _ _ H).
  destruct (SELECT_tRest camis (view db)); [contradiction | reflexivity].
Qed.


(** ** A call that returns *)

Lemma get_cuisine_returns (cuisine : option string) (id : Z) (db db' : NYCDB) :
  get_cuisine cuisine db = (Return id, db') ->
  carried_on db db'
  /\ exists more, SELECT_tCuisine cuisine (view db') = id :: more.
Proof.
  rewrite get_cuisine_eq.
  destruct (SELECT_tCuisine cuisine (view db)) as [|id0 more] eqn:Hq.
  - destruct cuisine as [d|]; simpl execute; [|discriminate].
    destruct (next_autoincrement _ _) as [e | id1]; [discriminate|].
    intros H; injection H as <- <-. split.
    + repeat split. apply grows_tCuisine.
    + exists []. simpl in *. rewrite filter_snoc, String.eqb_refl, map_app.
      apply map_fst_nil in Hq. rewrite Hq. reflexivity.
  - intros H; injection H as <- <-. split.
    + apply carried_on_connected.
    + exists more. exact Hq.
Qed.

Lemma get_action_returns (action_desc : option string) (id : Z)
    (db db' : NYCDB) :
  get_action action_desc db = (Return id, db') ->
  carried_on db db'
  /\ exists more, SELECT_tAction action_desc (view db') = id :: more.
Proof.
  rewrite get_action_eq.
  destruct (SELECT_tAction action_desc (view db)) as [|id0 more] eqn:Hq.
  - destruct action_desc as [d|]; simpl execute; [|discriminate].
    destruct (next_autoincrement _ _) as [e | id1]; [discriminate|].
    intros H; injection H as <- <-. split.
    + repeat split. apply grows_tAction.
    + exists []. simpl in *. rewrite filter_snoc, String.eqb_refl, map_app.
      apply map_fst_nil in Hq. rewrite Hq. reflexivity.
  - intros H; injection H as <- <-. split.
    + apply carried_on_connected.
    + exists more. exact Hq.
Qed.

Lemma load_viol_returns (v d : option string) (db db' : NYCDB) :
  load_viol v d db = (Return tt, db') ->
  carried_on db db' /\ SELECT_tViol v (view db') <> [].
Proof.
  rewrite load_viol_eq. unfold insert_if_absent.
  destruct (SELECT_tViol v (view db)) as [|r more] eqn:Hq.
  - destruct v as [v|], d as [d|]; simpl execute; try discriminate.
    destruct (has_text v fst (tViol (view db))); [discriminate|].
    intros H; injection H as <-. split.
    + repeat split. apply grows_tViol, Hq.
    + simpl. rewrite filter_snoc. simpl. rewrite String.eqb_refl.
      intros Hnil. apply app_eq_nil in Hnil. destruct Hnil; discriminate.
  - intros H; injection H as <-. split.
    + apply carried_on_connected.
    + simpl. rewrite view_connected, Hq. discriminate.
Qed.

(** A restaurant that comes without a [camis] is stored under the next
    rowid: no lookup by [camis] finds it. *)
Lemma load_rest_returns (camis : option Z)
    (dba boro building street : option string)
    (zip phone : option Z) (cuisine_id : Z) (db db' : NYCDB) :
  load_rest camis dba boro building street zip phone cuisine_id db
  = (Return tt, db') ->
  carried_on db db'
  /\ (camis <> None -> SELECT_tRest camis (view db') <> []).
Proof.
  rewrite load_rest_eq. unfold insert_if_absent, sql_select_tRest.
  destruct (fits_or_NULL camis); [|discriminate].
  destruct (SELECT_tRest camis (view db)) as [|r more] eqn:Hq.
  - destruct (sql_insert_tRest_cases camis dba boro building street zip phone
                cuisine_id) as [(c & z & p & k & -> & Hc & Hk) | ->];
      [|discriminate].
    destruct (execute _ (view db)) as [e | [txn id]] eqn:E; [discriminate|].
    intros H; injection H as <-.
    apply execute_tRest_returns in E.
    destruct E as (r & -> & Hkey & Hcuisine & _ & _ & Hr).
    apply has_key_filter in Hkey. split.
    + repeat split. apply grows_tRest. exact Hkey.
    + intros Hsome. destruct c as [c|]; simpl in Hc; subst camis;
        [|contradiction]. simpl.
      rewrite (Hr c eq_refl) in *.
      rewrite filter_insert_by_camis_new; [discriminate | | exact Hkey].
      rewrite (Hr c eq_refl). apply Z.eqb_refl.
  - intros H; injection H as <-. split.
    + apply carried_on_connected.
    + intros _. rewrite view_connected, Hq. discriminate.
Qed.

Lemma same_insp_key_refl (r : insp_row) :
  same_insp_key (i_camis r) (i_insp_date r) (i_insp_time r) (i_viol_id r) r
  = true.
Proof.
  unfold same_insp_key. rewrite Z.eqb_refl, !String.eqb_refl. reflexivity.
Qed.

Lemma load_insp_returns (camis : option Z) (d t v : option string) (a : Z)
    (db db' : NYCDB) :
  load_insp camis d t v a db = (Return tt, db') ->
  carried_on db db' /\ SELECT_tInsp camis d t v (view db') <> [].
Proof.
  rewrite load_insp_eq. unfold insert_if_absent, sql_select_tInsp.
  destruct (fits_or_NULL camis); [|discriminate].
  destruct (SELECT_tInsp camis d t v (view db)) as [|r more] eqn:Hq.
  - destruct (sql_insert_tInsp_cases camis d t v a)
      as [(c & k & -> & Hc & Hk) | ->]; [|discriminate].
    destruct c as [c|], d as [d|], t as [t|], v as [v|]; simpl execute;
      try discriminate.
    destruct (negb (LIKE _ _ && LIKE _ _)); [discriminate|].
    destruct (existsb _ _); [discriminate|].
    destruct (negb _); [discriminate|].
    intros H; injection H as <-. simpl in Hc. subst camis. split.
    + repeat split.
      apply (grows_tInsp _ (mk_insp c d t v k (Z_of_fits c))), Hq.
    + unfold SELECT_tInsp. simpl. rewrite filter_snoc.
      pose proof (same_insp_key_refl (mk_insp c d t v k (Z_of_fits c))) as Hk'.
      simpl in Hk'. rewrite Hk'.
      intros Hnil. apply app_eq_nil in Hnil. destruct Hnil; discriminate.
  - intros H; injection H as <-. split.
    + apply carried_on_connected.
    + rewrite view_connected, Hq. discriminate.
Qed.

(** * Rows are only ever added *)

Lemma grown_lookups_refl (s : store) : grown_lookups s s.
Proof.
  repeat split; intros; exists []; symmetry; apply app_nil_r.
Qed.

Lemma grown_lookups_trans (s1 s2 s3 : store) :
  grown_lookups s1 s2 -> grown_lookups s2 s3 -> grown_lookups s1 s3.
Proof.
  intros (A1 & B1 & C1 & D1 & E1) (A2 & B2 & C2 & D2 & E2).
  repeat split; intros.
  - destruct (A1 c) as [m1 H1], (A2 c) as [m2 H2].
    exists (m1 ++ m2). rewrite H2, H1, app_assoc. reflexivity.
  - destruct (B1 a) as [m1 H1], (B2 a) as [m2 H2].
    exists (m1 ++ m2). rewrite H2, H1, app_assoc. reflexivity.
  - destruct (C1 v) as [m1 H1], (C2 v) as [m2 H2].
    exists (m1 ++ m2). rewrite H2, H1, app_assoc. reflexivity.
  - destruct (D1 c) as [m1 H1], (D2 c) as [m2 H2].
    exists (m1 ++ m2). rewrite H2, H1, app_assoc. reflexivity.
  - destruct (E1 c d t v) as [m1 H1], (E2 c d t v) as [m2 H2].
    exists (m1 ++ m2). rewrite H2, H1, app_assoc. reflexivity.
Qed.

Ltac lookups_unchanged := intros; exists []; symmetry; apply app_nil_r.

Lemma grows_lookups (s s' : store) : grows s s' -> grown_lookups s s'.
Proof.
  intros G. destruct G as [s | s id d | s id d | s v d H | s r H | s r H].
  - apply grown_lookups_refl.
  - repeat split; try lookups_unchanged.
    intros [c|]; simpl; [|exists []; reflexivity].
    rewrite filter_app, map_app. eexists; reflexivity.
  - repeat split; try lookups_unchanged.
    intros [a|]; simpl; [|exists []; reflexivity].
    rewrite filter_app, map_app. eexists; reflexivity.
  - repeat split; try lookups_unchanged.
    intros [v'|]; simpl; [|exists []; reflexivity].
    rewrite filter_app. eexists; reflexivity.
  - repeat split; try lookups_unchanged.
    intros [c|]; unfold SELECT_tRest in *; simpl; [|exists []; reflexivity].
    destruct (r_camis r =? c) eqn:E.
    + apply Z.eqb_eq in E. subst c.
      rewrite filter_insert_by_camis_new by (auto using Z.eqb_refl).
      simpl in H. rewrite H. exists [r]. reflexivity.
    + rewrite filter_insert_by_camis by exact E.
      exists []. symmetry; apply app_nil_r.
  - repeat split; try lookups_unchanged.
    intros [c|] [d|] [t|] [v|]; unfold SELECT_tInsp; simpl;
      try (exists []; reflexivity).
    rewrite filter_app. eexists; reflexivity.
Qed.

Lemma grows_star_lookups (s s' : store) : grows_star s s' -> grown_lookups s s'.
Proof.
  induction 1 as [s | s s' s'' G _ IH].
  - apply grown_lookups_refl.
  - eapply grown_lookups_trans; [apply grows_lookups, G | exact IH].
Qed.



Lemma commit_close_returns (db db' : NYCDB) :
  (commit ;;; _close) db = (Return tt, db') ->
  db' = mk_db (view db) closed_conn /\ _connected db = true.
Proof.
  destruct db as [d [| |txn]]; unfold bind, commit, _close; simpl;
    try discriminate.
  intros H; injection H as <-. split; reflexivity.
Qed.

Lemma step_grows (db db' : NYCDB) : step db db' -> grows (view db) (view db').
Proof.
  intros S. destruct S as [? ? ? ? H | ? ? ? ? H | ? ? ? ? H
                           | ? ? ? ? ? ? ? ? ? ? H | ? ? ? ? ? ? ? H | ? ? H].
  - apply get_cuisine_returns in H. apply H.
  - apply get_action_returns in H. apply H.
  - apply load_viol_returns in H. apply H.
  - apply load_rest_returns in H. apply H.
  - apply load_insp_returns in H. apply H.
  - apply commit_close_returns in H. destruct H as [-> _]. apply grows_same.
Qed.

Lemma steps_grows_star (db db' : NYCDB) :
  steps db db' -> grows_star (view db) (view db').
Proof.
  induction 1 as [db | db db' db'' S _ IH].
  - apply grows_star_nil.
  - eapply grows_star_cons; [apply step_grows, S | exact IH].
Qed.

(** * Stability of the resolved identifiers *)

(** C3.  Once [get_cuisine] or [get_action] has returned an identifier
    for a description, found or freshly inserted, every later call with
    that description returns the same identifier, after any number of
    successful operations of the pipeline in between, in the same load
    or in later ones. *)
Theorem get_or_create_stable (resolve : option string -> M Z)
    (key : option string) (id : Z) (db db1 db2 : NYCDB) :
  resolve = get_cuisine \/ resolve = get_action ->
  resolve key db = (Return id, db1) ->
  steps db1 db2 ->
  exists db3, resolve key db2 = (Return id, db3).
Proof.
  intros R H S. apply steps_grows_star, grows_star_lookups in S.
  destruct S as (HC & HA & _). destruct R as [-> | ->].
  - apply get_cuisine_returns in H. destruct H as [_ [more Hq]].
    destruct (HC key) as [more' Hq']. rewrite Hq in Hq'.
    exists (connected db2). eapply get_cuisine_found. exact Hq'.
  - apply get_action_returns in H. destruct H as [_ [more Hq]].
    destruct (HA key) as [more' Hq']. rewrite Hq in Hq'.
    exists (connected db2). eapply get_action_found. exact Hq'.
Qed.

(** * First write wins *)


(** * The synthesized inspection times *)

(** The model of the generator reproduces the first values numpy gives
    for two seeds. *)
Example randint_seed_0 :
  option_map fst (randint 64 0 10 5 (mt19937.mt19937_seed 0))
  = Some [5; 0; 3; 3; 7].
Proof. vm_compute. reflexivity. Qed.

Example randint_seed_42 :
  option_map fst (randint 64 0 100 10 (mt19937.mt19937_seed 42))
  = Some [51; 92; 14; 71; 60; 20; 82; 86; 74; 74].
Proof. vm_compute. reflexivity. Qed.

Lemma bounded_masked_uint32_range (fuel : nat) (rng mask : Z)
    (st st' : mt19937.state) (val : Z) :
  0 <= mask ->
  bounded_masked_uint32 fuel rng mask st = Some (val, st') ->
  0 <= val <= rng.
Proof.
  intros Hmask. revert st.
  induction fuel as [|fuel IH]; intros st; cbn [bounded_masked_uint32];
    [discriminate|].
  destruct (mt19937.next_uint32 st) as [word st1].
  destruct (rng <? Z.land word mask) eqn:E.
  - apply IH.
  - intros H; injection H as <- <-. apply Z.ltb_ge in E. split; [|exact E].
    apply Z.land_nonneg. right. exact Hmask.
Qed.

Lemma bounded_fill_range (fuel : nat) (off rng mask : Z) (cnt : nat)
    (st st' : mt19937.state) (out : list Z) :
  0 <= mask ->
  bounded_fill fuel off rng mask cnt st = Some (out, st') ->
  List.length out = cnt /\ Forall (fun x => off <= x <= off + rng) out.
Proof.
  intros Hmask. revert st out.
  induction cnt as [|cnt IH]; intros st out; cbn [bounded_fill].
  - intros H; injection H as <- <-. split; [reflexivity | constructor].
  - destruct (bounded_masked_uint32 fuel rng mask st) as [[val st1]|] eqn:E1;
      [|discriminate].
    destruct (bounded_fill fuel off rng mask cnt st1) as [[out1 st2]|] eqn:E2;
      [|discriminate].
    intros H; injection H as <- <-.
    apply bounded_masked_uint32_range in E1; [|exact Hmask].
    apply IH in E2. destruct E2 as [L F]. split; [simpl; congruence|].
    constructor; [lia | exact F].
Qed.

Lemma randint_range (fuel : nat) (low high : Z) (size : nat)
    (st st' : mt19937.state) (out : list Z) :
  0 <= gen_mask (high - 1 - low) ->
  randint fuel low high size st = Some (out, st') ->
  List.length out = size /\ Forall (fun x => low <= x <= high - 1) out.
Proof.
  intros Hmask. unfold randint. destruct (high - 1 - low =? 0) eqn:E.
  - apply Z.eqb_eq in E. intros H; injection H as <- <-. split.
    + apply repeat_length.
    + apply Forall_forall. intros x Hx. apply repeat_spec in Hx. lia.
  - intros H. apply bounded_fill_range in H; [|exact Hmask].
    destruct H as [L F]. split; [exact L|].
    eapply Forall_impl; [|exact F]. simpl. intros; lia.
Qed.

Lemma zip3_range (h m s : list Z) (n : nat) :
  List.length h = n -> List.length m = n -> List.length s = n ->
  Forall (fun x => 9 <= x <= 17) h ->
  Forall (fun x => 0 <= x <= 60) m ->
  Forall (fun x => 0 <= x <= 60) s ->
  List.length (zip3 h m s) = n /\ Forall draw_in_range (zip3 h m s).
Proof.
  revert m s n. induction h as [|hi h IH]; intros m s n Lh Lm Ls Fh Fm Fs.
  - simpl in *. split; [exact Lh | constructor].
  - destruct m as [|mi m]; [simpl in *; congruence|].
    destruct s as [|si s]; [simpl in *; congruence|].
    destruct n as [|n]; [discriminate|].
    inversion Fh; inversion Fm; inversion Fs; subst.
    simpl in Lh, Lm, Ls.
    destruct (IH m s n) as [L F]; try congruence; try assumption.
    split; [simpl; congruence|].
    constructor; [simpl; auto | exact F].
Qed.

Lemma draws_range (fuel rows : nat) (l : list (Z * Z * Z)) :
  draws fuel rows = Some l ->
  List.length l = rows /\ Forall draw_in_range l.
Proof.
  unfold draws.
  destruct (randint fuel 9 (17 + 1) rows _) as [[h st1]|] eqn:E1;
    [|discriminate].
  destruct (randint fuel 0 (60 + 1) rows st1) as [[m st2]|] eqn:E2;
    [|discriminate].
  destruct (randint fuel 0 (60 + 1) rows st2) as [[s st3]|] eqn:E3;
    [|discriminate].
  intros H; injection H as <-.
  apply randint_range in E1; [|vm_compute; discriminate].
  apply randint_range in E2; [|vm_compute; discriminate].
  apply randint_range in E3; [|vm_compute; discriminate].
  destruct E1 as [L1 F1], E2 as [L2 F2], E3 as [L3 F3].
  apply zip3_range; assumption.
Qed.

Lemma zfill_two_digits_nat (k : nat) :
  (k < 100)%nat -> zfill 2 (str (Z.of_nat k)) = two_digits (Z.of_nat k).
Proof.
  intros H. do 100 (destruct k as [|k]; [reflexivity|]). lia.
Qed.

Lemma zfill_two_digits (n : Z) :
  0 <= n <= 99 -> zfill 2 (str n) = two_digits n.
Proof.
  intros H. rewrite <- (Z2Nat.id n) by lia. apply zfill_two_digits_nat. lia.
Qed.

Lemma time_string_synthesized (hms : Z * Z * Z) :
  draw_in_range hms ->
  synthesized_time (match hms with (hi, mi, si) => time_string hi mi si end).
Proof.
  destruct hms as [[hi mi] si]. intros (Hh & Hm & Hs).
  exists hi, mi, si. repeat split; try lia.
  unfold time_string. rewrite !zfill_two_digits by lia. reflexivity.
Qed.

Lemma insp_times_range (fuel rows : nat) (t : list string) :
  insp_times fuel rows = Some t ->
  List.length t = rows /\ Forall synthesized_time t.
Proof.
  unfold insp_times. destruct (draws fuel rows) as [l|] eqn:E; [|discriminate].
  intros H; injection H as <-. apply draws_range in E. destruct E as [L F].
  split; [rewrite length_map; exact L|].
  apply Forall_map. eapply Forall_impl; [|exact F].
  apply time_string_synthesized.
Qed.

Lemma combine_fst {A B} (l : list A) (l' : list B) :
  List.length l = List.length l' -> map fst (combine l l') = l.
Proof.
  revert l'. induction l as [|x l IH]; intros [|y l'] H; simpl in *;
    try congruence. f_equal. apply IH. congruence.
Qed.

Lemma combine_snd {A B} (l : list A) (l' : list B) :
  List.length l = List.length l' -> map snd (combine l l') = l'.
Proof.
  revert l'. induction l as [|x l IH]; intros [|y l'] H; simpl in *;
    try congruence. f_equal. apply IH. congruence.
Qed.

(** C8.  Every row of the frame gets a time, and every time is made of
    an hour from 9 to 17, a minute from 0 to 60 and a second from 0 to
    60, each written as two digits with a leading zero where needed and
    joined by colons. *)
Theorem synthesized_time_range (fuel : nat) (df : list csv_row)
    (records : list (csv_row * string)) :
  add_insp_time fuel df = Some records ->
  map fst records = df /\ Forall synthesized_time (map snd records).
Proof.
  unfold add_insp_time.
  destruct (insp_times fuel (List.length df)) as [t|] eqn:E; [|discriminate].
  intros H; injection H as <-. apply insp_times_range in E.
  destruct E as [L F]. split.
  - apply combine_fst. congruence.
  - rewrite combine_snd by congruence. exact F.
Qed.

(** C10.  The times a load assigns are a function of the number of rows
    alone: two frames with the same number of rows get the same times,
    row for row, whatever the rows hold.  And the number of rows matters:
    the seed is set again at each load and the minutes are drawn after
    all the hours, so the same row heading a file of one row and a file
    of two rows gets 13:25:54 in the first and 13:03:23 in the second. *)
Theorem insp_times_by_row_count :
  (forall (fuel : nat) (df1 df2 : list csv_row),
      List.length df1 = List.length df2 ->
      option_map (map snd) (add_insp_time fuel df1)
      = option_map (map snd) (add_insp_time fuel df2))
  /\ (forall row other : csv_row,
         add_insp_time 64 [row] = Some [(row, "13:25:54"%string)]
         /\ add_insp_time 64 [row; other]
            = Some [(row, "13:03:23"%string); (other, "15:19:39"%string)]).
Proof.
  split.
  - intros fuel df1 df2 L. unfold add_insp_time. rewrite <- L.
    destruct (insp_times fuel (List.length df1)) as [t|] eqn:E; [|reflexivity].
    apply insp_times_range in E. destruct E as [Lt _]. simpl.
    rewrite !combine_snd by congruence. reflexivity.
  - intros row other. split; vm_compute; reflexivity.
Qed.

(** The bound on the rejection loop does not matter once it suffices. *)
Lemma bounded_masked_uint32_fuel (fuel fuel' : nat) (rng mask : Z)
    (st : mt19937.state) (r : Z * mt19937.state) :
  (fuel <= fuel')%nat ->
  bounded_masked_uint32 fuel rng mask st = Some r ->
  bounded_masked_uint32 fuel' rng mask st = Some r.
Proof.
  revert fuel' st. induction fuel as [|fuel IH]; intros fuel' st Hle;
    cbn [bounded_masked_uint32]; [discriminate|].
  destruct fuel' as [|fuel']; [lia|]. cbn [bounded_masked_uint32].
  destruct (mt19937.next_uint32 st) as [word st1].
  destruct (rng <? Z.land word mask); [|auto].
  apply IH. lia.
Qed.

Lemma bounded_fill_fuel (fuel fuel' : nat) (off rng mask : Z) (cnt : nat)
    (st : mt19937.state) (r : list Z * mt19937.state) :
  (fuel <= fuel')%nat ->
  bounded_fill fuel off rng mask cnt st = Some r ->
  bounded_fill fuel' off rng mask cnt st = Some r.
Proof.
  intros Hle. revert st r.
  induction cnt as [|cnt IH]; intros st r; cbn [bounded_fill]; [auto|].
  destruct (bounded_masked_uint32 fuel rng mask st) as [[val st1]|] eqn:E1;
    [|discriminate].
  rewrite (bounded_masked_uint32_fuel _ _ _ _ _ _ Hle E1).
  destruct (bounded_fill fuel off rng mask cnt st1) as [[out st2]|] eqn:E2;
    [|discriminate].
  rewrite (IH _ _ E2). auto.
Qed.

Lemma randint_fuel (fuel fuel' : nat) (low high : Z) (size : nat)
    (st : mt19937.state) (r : list Z * mt19937.state) :
  (fuel <= fuel')%nat ->
  randint fuel low high size st = Some r ->
  randint fuel' low high size st = Some r.
Proof.
  intros Hle. unfold randint. destruct (high - 1 - low =? 0); [auto|].
  apply bounded_fill_fuel, Hle.
Qed.

Lemma insp_times_fuel (fuel fuel' rows : nat) (t : list string) :
  (fuel <= fuel')%nat ->
  insp_times fuel rows = Some t -> insp_times fuel' rows = Some t.
Proof.
  intros Hle. unfold insp_times, draws.
  destruct (randint fuel 9 (17 + 1) rows _) as [[h st1]|] eqn:E1;
    [|discriminate].
  rewrite (randint_fuel _ _ _ _ _ _ _ Hle E1).
  destruct (randint fuel 0 (60 + 1) rows st1) as [[m st2]|] eqn:E2;
    [|discriminate].
  rewrite (randint_fuel _ _ _ _ _ _ _ Hle E2).
  destruct (randint fuel 0 (60 + 1) rows st2) as [[s st3]|] eqn:E3;
    [|discriminate].
  rewrite (randint_fuel _ _ _ _ _ _ _ Hle E3). auto.
Qed.

Lemma load_nyc_file_fuel (fuel fuel' : nat) (fs : filesystem)
    (file_path : string) (db : NYCDB) (r : outcome unit * NYCDB) :
  (fuel <= fuel')%nat ->
  load_nyc_file fuel fs file_path db = Some r ->
  load_nyc_file fuel' fs file_path db = Some r.
Proof.
  intros Hle. unfold load_nyc_file, add_insp_time.
  destruct (read_csv fs file_path) as [columns df | c]; [|auto].
  destruct (insp_times fuel (List.length df)) as [t|] eqn:E; [|discriminate].
  rewrite (insp_times_fuel _ _ _ _ Hle E). auto.
Qed.

(** A bound of sixteen words for each draw is enough for a frame of a
    thousand rows. *)
Example insp_times_thousand_rows :
  option_map (@List.length string) (insp_times 16 1000) = Some 1000%nat.
Proof. vm_compute. reflexivity. Qed.

(** And for every frame of at most a hundred rows. *)
Lemma insp_times_hundred_rows :
  forallb (fun rows => is_some (insp_times 16 rows)) (seq 0 101) = true.
Proof. vm_compute. reflexivity. Qed.

Lemma insp_times_total (fuel rows : nat) :
  (16 <= fuel)%nat -> (rows <= 100)%nat ->
  exists t, insp_times fuel rows = Some t.
Proof.
  intros Hf Hr. pose proof insp_times_hundred_rows as H.
  rewrite forallb_forall in H. specialize (H rows).
  destruct (insp_times 16 rows) as [t|] eqn:E.
  - exists t. apply (insp_times_fuel 16 fuel rows t Hf E).
  - assert (Hin : In rows (seq 0 101)) by (apply in_seq; lia).
    specialize (H Hin). discriminate.
Qed.

(** A decimal digit is not the NUL character. *)
Lemma digit_not_NUL (n : Z) :
  0 <= n <= 9 -> Ascii.eqb (ascii_of_nat (48 + Z.to_nat n)) Ascii.zero = false.
Proof.
  intros H. assert (E : (Z.to_nat n <= 9)%nat) by lia.
  revert E. generalize (Z.to_nat n). intros k Hk.
  do 10 (destruct k as [|k]; [reflexivity|]). lia.
Qed.

Lemma until_NUL_two_digits (n : Z) (rest : list ascii) :
  0 <= n <= 99 ->
  until_NUL (list_ascii_of_string (two_digits n) ++ rest)
  = list_ascii_of_string (two_digits n) ++ until_NUL rest.
Proof.
  intros H. unfold two_digits. cbn [list_ascii_of_string app until_NUL].
  rewrite !digit_not_NUL; [reflexivity | |].
  - pose proof (Z.mod_pos_bound n 10). lia.
  - assert (n / 10 < 10) by (apply Z.div_lt_upper_bound; lia).
    assert (0 <= n / 10) by (apply Z.div_pos; lia). lia.
Qed.

(** The synthesized times pass the CHECK on [insp_time]. *)
Lemma synthesized_time_passes_check (t : string) :
  synthesized_time t -> LIKE t "__:__:__" = true.
Proof.
  intros (hi & mi & si & Hh & Hm & Hs & ->). unfold LIKE.
  assert (E : forall (a b : string) (c : ascii),
             list_ascii_of_string (String.append a (String c b))
             = list_ascii_of_string a ++ c :: list_ascii_of_string b).
  { intros a b c. induction a as [|x a IH]; simpl; [reflexivity|].
    now rewrite IH. }
  rewrite !E.
  rewrite until_NUL_two_digits by lia. cbn [until_NUL].
  change (Ascii.eqb ":" Ascii.zero) with false. cbv iota.
  rewrite until_NUL_two_digits by lia. cbn [until_NUL].
  change (Ascii.eqb ":" Ascii.zero) with false. cbv iota.
  rewrite <- (app_nil_r (list_ascii_of_string (two_digits si))) at 1.
  rewrite until_NUL_two_digits by lia.
  unfold two_digits. reflexivity.
Qed.

(** * Loading a file twice *)

Lemma nonempty_app {A} (l more : list A) : l <> [] -> l ++ more <> [].
Proof. destruct l; [contradiction | discriminate]. Qed.

Lemma resolved_grown (s s' : store) (record : csv_row * string) :
  grown_lookups s s' -> resolved s record -> resolved s' record.
Proof.
  intros (HC & HA & HV & HR & HI) H. destruct record as [row t].
  destruct H as (H1 & H2 & H3 & H4 & H5). unfold resolved.
  destruct (HC (cuisine_desc row)) as [m1 ->].
  destruct (HA (action_desc row)) as [m2 ->].
  destruct (HV (viol_id row)) as [m3 ->].
  destruct (HR (CAMIS row)) as [m4 ->].
  destruct (HI (CAMIS row) (insp_date row) (Some t) (viol_id row)) as [m5 ->].
  repeat split; apply nonempty_app; assumption.
Qed.

Lemma carried_on_view (db db' : NYCDB) :
  carried_on db db' -> grown_lookups (view db) (view db').
Proof. intros (_ & _ & G). apply grows_lookups, G. Qed.

(** ** Reading the record *)

Lemma bind_returns {A B} (m : M A) (k : A -> M B) (db db' : NYCDB) (b : B) :
  (x <- m ;; k x) db = (Return b, db') ->
  exists a db1, m db = (Return a, db1) /\ k a db1 = (Return b, db').
Proof.
  unfold bind. destruct (m db) as [[a|e] db1]; [|discriminate].
  intros H. exists a, db1. split; [reflexivity | exact H].
Qed.

Lemma getitem_returns {A} (columns : list string) (key : string) (v a : A)
    (db db1 : NYCDB) :
  getitem columns key v db = (Return a, db1) ->
  a = v /\ db1 = db /\ existsb (String.eqb key) columns = true.
Proof.
  unfold getitem. destruct (existsb (String.eqb key) columns);
    [|discriminate].
  intros H; injection H as <- <-. repeat split.
Qed.

Lemma getitem_complete {A} (columns : list string) (key : string) (v : A) :
  complete columns = true -> In key all_columns ->
  getitem columns key v = ret v.
Proof.
  intros C Hin. unfold complete in C. rewrite forallb_forall in C.
  unfold getitem. rewrite (C key Hin). reflexivity.
Qed.

(** On a frame with the twelve columns the body is the five calls. *)
Lemma load_row_complete (columns : list string) (record : csv_row * string)
    (db : NYCDB) :
  complete columns = true ->
  load_row columns record db = load_row_all record db.
Proof.
  intros C. destruct record as [row t]. unfold load_row.
  rewrite !(getitem_complete columns _ _ C) by (simpl; tauto).
  reflexivity.
Qed.

Ltac read_item H :=
  let E := fresh "E" in
  let K := fresh "K" in
  apply bind_returns in H; destruct H as (? & ? & E & H);
  apply getitem_returns in E; destruct E as (-> & -> & K).

Ltac call_op H :=
  apply bind_returns in H; destruct H as (? & ? & _ & H).

(** A body that returns has read the twelve columns. *)
Lemma load_row_returns_complete (columns : list string)
    (record : csv_row * string) (db db' : NYCDB) :
  load_row columns record db = (Return tt, db') -> complete columns = true.
Proof.
  destruct record as [row t]. unfold load_row. intros H.
  read_item H. call_op H. read_item H. call_op H.
  read_item H. read_item H. call_op H.
  do 7 read_item H. call_op H.
  do 2 read_item H.
  unfold complete, all_columns. cbn [forallb].
  repeat match goal with
         | K : existsb _ columns = true |- _ => rewrite K; clear K
         end.
  reflexivity.
Qed.

Lemma for_each_complete (columns : list string)
    (records : list (csv_row * string)) (db : NYCDB) :
  complete columns = true ->
  for_each (load_row columns) records db = for_each load_row_all records db.
Proof.
  intros C. revert db. induction records as [|record records IH]; intros db;
    [reflexivity|].
  simpl. unfold bind. rewrite (load_row_complete _ _ _ C).
  destruct (load_row_all record db) as [[[]|e] db1]; [apply IH | reflexivity].
Qed.

Lemma for_each_returns_complete (columns : list string)
    (records : list (csv_row * string)) (db db' : NYCDB) :
  records <> [] ->
  for_each (load_row columns) records db = (Return tt, db') ->
  complete columns = true.
Proof.
  destruct records as [|record records]; [contradiction|]. intros _.
  simpl. unfold bind.
  destruct (load_row columns record db) as [[[]|e] db1] eqn:E; [|discriminate].
  intros _. eapply load_row_returns_complete, E.
Qed.

(** ** The records of a frame *)

(** A record that went through the loop body has all its rows in the
    store the connection sees. *)
Lemma load_row_returns (record : csv_row * string) (db db' : NYCDB) :
  load_row_all record db = (Return tt, db') ->
  disk db' = disk db
  /\ conn db' = open_conn (view db')
  /\ grown_lookups (view db) (view db')
  /\ resolved (view db') record.
Proof.
  destruct record as [row t]. unfold load_row_all, bind.
  destruct (get_cuisine (cuisine_desc row) db) as [[cid|e] db1] eqn:E1;
    [|discriminate].
  destruct (get_action (action_desc row) db1) as [[aid|e] db2] eqn:E2;
    [|discriminate].
  destruct (load_viol (viol_id row) (viol_desc row) db2) as [[[]|e] db3] eqn:E3;
    [|discriminate].
  destruct (load_rest (CAMIS row) (DBA row) (BORO row) (BUILDING row)
              (STREET row) (ZIPCODE row) (PHONE row) cid db3)
    as [[[]|e] db4] eqn:E4; [|discriminate].
  intros E5.
  apply get_cuisine_returns in E1. destruct E1 as [C1 [m1 Q1]].
  apply get_action_returns in E2. destruct E2 as [C2 [m2 Q2]].
  apply load_viol_returns in E3. destruct E3 as [C3 Q3].
  apply load_rest_returns in E4. destruct E4 as [C4 Q4].
  apply load_insp_returns in E5. destruct E5 as [C5 Q5].
  assert (Hcamis : CAMIS row <> None).
  { intros Hn. rewrite Hn in Q5. apply Q5. reflexivity. }
  specialize (Q4 Hcamis).
  pose proof (carried_on_view _ _ C1) as G1.
  pose proof (carried_on_view _ _ C2) as G2.
  pose proof (carried_on_view _ _ C3) as G3.
  pose proof (carried_on_view _ _ C4) as G4.
  pose proof (carried_on_view _ _ C5) as G5.
  destruct C1 as (D1 & _ & _), C2 as (D2 & _ & _), C3 as (D3 & _ & _),
           C4 as (D4 & _ & _), C5 as (D5 & O5 & _).
  split; [congruence|]. split; [exact O5|]. split.
  - eauto using grown_lookups_trans.
  - pose proof (grown_lookups_trans _ _ _ G4 G5) as G45.
    pose proof (grown_lookups_trans _ _ _ G3 G45) as G35.
    pose proof (grown_lookups_trans _ _ _ G2 G35) as G25.
    destruct G25 as (HC & _), G35 as (_ & HA & _), G45 as (_ & _ & HV & _),
             G5 as (_ & _ & _ & HR & _).
    unfold resolved. repeat split.
    + destruct (HC (cuisine_desc row)) as [x ->].
      apply nonempty_app. rewrite Q1. discriminate.
    + destruct (HA (action_desc row)) as [x ->].
      apply nonempty_app. rewrite Q2. discriminate.
    + destruct (HV (viol_id row)) as [x ->].
      apply nonempty_app. exact Q3.
    + destruct (HR (CAMIS row)) as [x ->].
      apply nonempty_app. exact Q4.
    + exact Q5.
Qed.


Lemma for_each_returns (records : list (csv_row * string)) (db db' : NYCDB) :
  for_each load_row_all records db = (Return tt, db') ->
  disk db' = disk db
  /\ grown_lookups (view db) (view db')
  /\ Forall (resolved (view db')) records
  /\ match records with
     | [] => db' = db
     | _ :: _ => conn db' = open_conn (view db')
     end.
Proof.
  revert db. induction records as [|record records IH]; intros db; simpl.
  - unfold ret. intros H; injection H as <-.
    split; [reflexivity|]. split; [apply grown_lookups_refl|].
    split; [constructor | reflexivity].
  - unfold bind.
    destruct (load_row_all record db) as [[[]|e] db1] eqn:E1; [|discriminate].
    intros E2. apply load_row_returns in E1.
    destruct E1 as (D1 & O1 & G1 & R1).
    apply IH in E2. destruct E2 as (D2 & G2 & R2 & T2).
    split; [congruence|]. split; [eauto using grown_lookups_trans|].
    split.
    + constructor; [exact (resolved_grown _ _ _ G2 R1) | exact R2].
    + destruct records; [subst db'; exact O1 | exact T2].
Qed.






(** A file with a header and no data row does not load from a closed
    connection: [commit] finds no open connection and raises. *)
Lemma empty_frame_raises (fuel : nat) (fs : filesystem) (file_path : string)
    (columns : list string) (db : NYCDB) :
  read_csv fs file_path = DataFrame columns [] ->
  _connected db = false ->
  exists e,
    load_nyc_file fuel fs file_path db = Some (Raise e, db)
    /\ (exn_class e = AttributeError \/ exn_class e = ProgrammingError).
Proof.
  intros Hread Hclosed. unfold load_nyc_file. rewrite Hread.
  destruct db as [d [| |txn]]; [| |discriminate].
  - eexists. split; [reflexivity | left; reflexivity].
  - eexists. split; [reflexivity | right; reflexivity].
Qed.

(** It loads only into a connection that an earlier call left open, and
    then its second load raises, whatever the store holds. *)
Lemma empty_frame_on_open_connection (fuel : nat) (fs : filesystem)
    (file_path : string) (columns : list string) (d txn : store) :
  read_csv fs file_path = DataFrame columns [] ->
  load_nyc_file fuel fs file_path (mk_db d (open_conn txn))
  = Some (Return tt, mk_db txn closed_conn)
  /\ load_nyc_file fuel fs file_path (mk_db txn closed_conn)
     = Some (Raise (mk_exn ProgrammingError
                      (library_text "Cannot operate on a closed database.")),
             mk_db txn closed_conn).
Proof.
  intros Hread. unfold load_nyc_file. rewrite Hread.
  split; reflexivity.
Qed.


(** * Whatever a call of the pipeline does *)

Lemma pipeline_class_of (e : execute_error) :
  e <> not_bound surrogates_not_allowed -> pipeline_class (class_of e).
Proof.
  unfold pipeline_class. intros H.
  destruct e as [[|]| | | | |]; simpl; auto. contradiction H; reflexivity.
Qed.

Lemma pipeline_class_raised (c : pyclass) (m : message) :
  pipeline_class c -> raised c m = mk_exn c m.
Proof.
  intros [-> | [-> | [-> | ->]]]; reflexivity.
Qed.

(** A statement of the pipeline never fails on a surrogate. *)
Lemma execute_encodes (sql : action_sql) (s : store) (e : execute_error) :
  (forall table, sql <> unbound table surrogates_not_allowed) ->
  execute sql s = inl e -> e <> not_bound surrogates_not_allowed.
Proof.
  intros Hsql.
  destruct sql as [d | d | v d | camis dba boro building street zip phone cid
                   | camis date time v aid | table b]; simpl.
  - destruct d; [|intros H; injection H as <-; discriminate].
    destruct (next_autoincrement _ _) as [e0|id] eqn:N; [|discriminate].
    unfold next_autoincrement in N. destruct (max_rowid <=? _); [|discriminate].
    injection N as <-. intros H; injection H as <-. discriminate.
  - destruct d; [|intros H; injection H as <-; discriminate].
    destruct (next_autoincrement _ _) as [e0|id] eqn:N; [|discriminate].
    unfold next_autoincrement in N. destruct (max_rowid <=? _); [|discriminate].
    injection N as <-. intros H; injection H as <-. discriminate.
  - destruct v, d; try (intros H; injection H as <-; discriminate).
    destruct (has_text _ _ _); [|discriminate].
    intros H; injection H as <-; discriminate.
  - unfold insert_tRest.
    destruct dba, boro, building, street, camis as [camis|];
      try (intros H; injection H as <-; discriminate).
    + destruct (has_key _ _ _); [intros H; injection H as <-; discriminate|].
      destruct (negb _); [|discriminate].
      intros H; injection H as <-; discriminate.
    + destruct (negb _); [intros H; injection H as <-; discriminate|].
      destruct (next_rowid _) as [c|];
        [|intros H; injection H as <-; discriminate].
      destruct (has_key c r_camis (tRest s));
        [intros H; injection H as <-; discriminate|].
      cbv iota. discriminate.
  - destruct camis as [camis|], date, time, v;
      try (intros H; injection H as <-; discriminate).
    destruct (negb _); [intros H; injection H as <-; discriminate|].
    destruct (existsb _ _); [intros H; injection H as <-; discriminate|].
    destruct (negb _); [|discriminate].
    intros H; injection H as <-; discriminate.
  - intros H; injection H as <-. destruct b; [discriminate|].
    contradiction (Hsql table). reflexivity.
Qed.

Lemma run_action_outcome (sql : action_sql) (db : NYCDB) :
  (forall table, sql <> unbound table surrogates_not_allowed) ->
  lookup_misses sql (view db) ->
  resolve_outcome db (run_action sql true db).
Proof.
  intros Hsql Hmiss. rewrite run_action_keep_open. unfold resolve_outcome.
  destruct (execute sql (view db)) as [e | [txn r]] eqn:E; simpl.
  - pose proof (pipeline_class_of e (execute_encodes _ _ _ Hsql E)) as P.
    rewrite (pipeline_class_raised _ _ P). simpl.
    split; [reflexivity|]. split; [left; reflexivity | exact P].
  - split; [reflexivity|]. split; [reflexivity|].
    eapply resolves_created; [exact Hmiss | exact E].
Qed.

Lemma insert_if_absent_outcome {A} (query : query_sql A) (sql : action_sql)
    (db : NYCDB) :
  (forall table, query <> unbound_query table surrogates_not_allowed) ->
  (forall table, sql <> unbound table surrogates_not_allowed) ->
  (forall rows, query = bound_query rows -> rows (view db) = [] ->
                lookup_misses sql (view db)) ->
  resolve_outcome db (insert_if_absent query sql db).
Proof.
  intros Hq Hsql Hmiss. unfold insert_if_absent, resolve_outcome.
  destruct query as [rows | table b].
  - destruct (rows (view db)) as [|x found] eqn:F.
    + destruct (execute sql (view db)) as [e | [txn r]] eqn:E; simpl.
      * pose proof (pipeline_class_of e (execute_encodes _ _ _ Hsql E)) as P.
        rewrite (pipeline_class_raised _ _ P). simpl.
        split; [reflexivity|]. split; [left; reflexivity | exact P].
      * split; [reflexivity|]. split; [reflexivity|].
        eapply resolves_created; [exact (Hmiss rows eq_refl F) | exact E].
    + simpl. split; [reflexivity|]. split; [reflexivity | apply resolves_found].
  - destruct b; [|contradiction (Hq table); reflexivity]. simpl.
    split; [reflexivity|]. split; [right; reflexivity|].
    right; right; left; reflexivity.
Qed.

Lemma get_cuisine_outcome (cuisine : option string) (db : NYCDB) :
  resolve_outcome db (get_cuisine cuisine db).
Proof.
  unfold get_cuisine, bind. rewrite run_query_keep_open.
  destruct (SELECT_tCuisine cuisine (view db)) as [|id more] eqn:Q.
  - assert (O : resolve_outcome (connected db)
                  (run_action (INSERT_tCuisine cuisine) true (connected db))).
    { apply run_action_outcome; [discriminate | exact Q]. }
    unfold resolve_outcome in *.
    destruct (run_action _ true (connected db)) as [[id|e] db1]; simpl in *.
    + exact O.
    + destruct O as (D & [O1 | ->] & O2).
      * split; [exact D|]. split; [left; exact O1 | exact O2].
      * split; [reflexivity|]. split; [right; reflexivity | exact O2].
  - simpl. split; [reflexivity|]. split; [reflexivity | apply resolves_found].
Qed.

Lemma get_action_outcome (action_desc : option string) (db : NYCDB) :
  resolve_outcome db (get_action action_desc db).
Proof.
  unfold get_action, bind. rewrite run_query_keep_open.
  destruct (SELECT_tAction action_desc (view db)) as [|id more] eqn:Q.
  - assert (O : resolve_outcome (connected db)
                  (run_action (INSERT_tAction action_desc) true (connected db))).
    { apply run_action_outcome; [discriminate | exact Q]. }
    unfold resolve_outcome in *.
    destruct (run_action _ true (connected db)) as [[id|e] db1]; simpl in *.
    + exact O.
    + destruct O as (D & [O1 | ->] & O2).
      * split; [exact D|]. split; [left; exact O1 | exact O2].
      * split; [reflexivity|]. split; [right; reflexivity | exact O2].
  - simpl. split; [reflexivity|]. split; [reflexivity | apply resolves_found].
Qed.

Lemma load_viol_outcome (v d : option string) (db : NYCDB) :
  resolve_outcome db (load_viol v d db).
Proof.
  rewrite load_viol_eq. apply insert_if_absent_outcome; try discriminate.
  intros rows H; injection H as <-. auto.
Qed.

Lemma load_rest_outcome (camis : option Z)
    (dba boro building street : option string)
    (zip phone : option Z) (cuisine_id : Z) (db : NYCDB) :
  resolve_outcome db
    (load_rest camis dba boro building street zip phone cuisine_id db).
Proof.
  rewrite load_rest_eq. apply insert_if_absent_outcome.
  - unfold sql_select_tRest. destruct (fits_or_NULL camis); discriminate.
  - destruct (sql_insert_tRest_cases camis dba boro building street zip phone
                cuisine_id) as [(c & z & p & k & -> & _) | ->]; discriminate.
  - unfold sql_select_tRest. destruct (fits_or_NULL camis); [|discriminate].
    intros rows H; injection H as <-. intros Q.
    destruct (sql_insert_tRest_cases camis dba boro building street zip phone
                cuisine_id) as [(c & z & p & k & -> & Hc & _) | ->];
      [|exact I].
    simpl. rewrite Hc. exact Q.
Qed.

Lemma load_insp_outcome (camis : option Z) (d t v : option string) (a : Z)
    (db : NYCDB) :
  resolve_outcome db (load_insp camis d t v a db).
Proof.
  rewrite load_insp_eq. apply insert_if_absent_outcome.
  - unfold sql_select_tInsp. destruct (fits_or_NULL camis); discriminate.
  - destruct (sql_insert_tInsp_cases camis d t v a)
      as [(c & k & -> & _) | ->]; discriminate.
  - unfold sql_select_tInsp. destruct (fits_or_NULL camis); [|discriminate].
    intros rows H; injection H as <-. intros Q.
    destruct (sql_insert_tInsp_cases camis d t v a)
      as [(c & k & -> & Hc & _) | ->]; [|exact I].
    simpl. rewrite Hc. exact Q.
Qed.

Lemma step_resolves (db db' : NYCDB) :
  step db db' -> resolves (view db) (view db').
Proof.
  intros S.
  destruct S as [c id ? ? H | a id ? ? H | v d ? ? H
                 | camis dba boro building street zip phone cid ? ? H
                 | camis date time v aid ? ? H | ? ? H].
  - pose proof (get_cuisine_outcome c db) as O. rewrite H in O. apply O.
  - pose proof (get_action_outcome a db) as O. rewrite H in O. apply O.
  - pose proof (load_viol_outcome v d db) as O. rewrite H in O. apply O.
  - pose proof (load_rest_outcome camis dba boro building street zip phone
                  cid db) as O. rewrite H in O. apply O.
  - pose proof (load_insp_outcome camis date time v aid db) as O.
    rewrite H in O. apply O.
  - apply commit_close_returns in H. destruct H as [-> _].
    apply resolves_found.
Qed.

(** ** The object through a load *)

Lemma resolves_star_trans (s1 s2 s3 : store) :
  resolves_star s1 s2 -> resolves_star s2 s3 -> resolves_star s1 s3.
Proof.
  induction 1 as [s | s s' s'' R _ IH]; intros H; [exact H|].
  eapply resolves_star_cons; [exact R | apply IH, H].
Qed.

Lemma carried_refl (db : NYCDB) : carried db db.
Proof. split; [reflexivity | right; apply resolves_star_nil]. Qed.

Lemma carried_trans (db1 db2 db3 : NYCDB) :
  carried db1 db2 -> carried db2 db3 -> carried db1 db3.
Proof.
  intros [D1 V1] [D2 V2]. split; [congruence|]. rewrite D1 in V2.
  destruct V2 as [V2 | V2]; [left; exact V2|].
  destruct V1 as [V1 | V1].
  - left. eapply resolves_star_trans; eauto.
  - right. eapply resolves_star_trans; eauto.
Qed.

Lemma resolve_outcome_carried {A} (db : NYCDB) (r : outcome A * NYCDB) :
  resolve_outcome db r -> carried db (snd r).
Proof.
  destruct r as [[a|e] db']; unfold resolve_outcome; simpl; intros (D & O).
  - destruct O as [_ R]. split; [exact D|]. right.
    eapply resolves_star_cons; [exact R | apply resolves_star_nil].
  - destruct O as [[C | ->] _].
    + split; [exact D|]. left. unfold view. rewrite C, D.
      apply resolves_star_nil.
    + split; [reflexivity | right; apply resolves_star_nil].
Qed.

Lemma resolve_outcome_well_behaved {A} (m : M A) :
  (forall db, resolve_outcome db (m db)) -> well_behaved m.
Proof.
  intros H db. split; [apply resolve_outcome_carried, H|].
  intros e He. specialize (H db). unfold resolve_outcome in H.
  destruct (m db) as [[a|e'] db']; simpl in *; [discriminate|].
  injection He as ->. apply H.
Qed.

Lemma well_behaved_ret {A} (a : A) : well_behaved (ret a).
Proof. intros db. split; [apply carried_refl | discriminate]. Qed.

Lemma well_behaved_bind {A B} (m : M A) (k : A -> M B) :
  well_behaved m -> (forall a, well_behaved (k a)) ->
  well_behaved (x <- m ;; k x).
Proof.
  intros Hm Hk db. unfold bind. specialize (Hm db).
  destruct (m db) as [[a|e] db1]; simpl in *.
  - destruct Hm as [C _]. destruct (Hk a db1) as [C' P'].
    split; [eapply carried_trans; eauto | exact P'].
  - destruct Hm as [C P]. split; [exact C|].
    intros e0 He; injection He as <-. apply P. reflexivity.
Qed.

Lemma well_behaved_getitem {A} (columns : list string) (key : string) (v : A) :
  well_behaved (getitem columns key v).
Proof.
  intros db. unfold getitem.
  destruct (existsb (String.eqb key) columns); simpl.
  - split; [apply carried_refl | discriminate].
  - split; [apply carried_refl|]. intros e He; injection He as <-.
    right; right; right; reflexivity.
Qed.

Lemma well_behaved_load_row (columns : list string)
    (record : csv_row * string) :
  well_behaved (load_row columns record).
Proof.
  destruct record as [row t]. unfold load_row.
  repeat first
    [ apply well_behaved_getitem
    | apply resolve_outcome_well_behaved; intros ?;
      first [ apply get_cuisine_outcome | apply get_action_outcome
            | apply load_viol_outcome | apply load_rest_outcome
            | apply load_insp_outcome ]
    | apply well_behaved_bind; [|intros ?] ].
Qed.

Lemma well_behaved_for_each (columns : list string)
    (records : list (csv_row * string)) :
  well_behaved (for_each (load_row columns) records).
Proof.
  induction records as [|record records IH]; simpl.
  - apply well_behaved_ret.
  - apply well_behaved_bind; [apply well_behaved_load_row | intros _; exact IH].
Qed.

(** The classes of the exceptions that leave a load: those of the loop,
    those of [commit] on a connection that is not open, and whatever
    [pd.read_csv] raises. *)
Lemma load_nyc_file_outcome (fuel : nat) (fs : filesystem) (file_path : string)
    (db db' : NYCDB) (o : outcome unit) :
  load_nyc_file fuel fs file_path db = Some (o, db') ->
  match o with
  | Return _ =>
      exists dbm, carried db dbm /\ db' = mk_db (view dbm) closed_conn
  | Raise e =>
      carried db db'
      /\ (pipeline_class (exn_class e)
          \/ exn_class e = ProgrammingError
          \/ exn_class e = AttributeError
          \/ read_csv fs file_path = read_csv_raises (exn_class e))
  end.
Proof.
  unfold load_nyc_file.
  destruct (read_csv fs file_path) as [columns df | c].
  - destruct (add_insp_time fuel df) as [records|]; [|discriminate].
    intros H; injection H as H. revert H. unfold bind at 1.
    destruct (well_behaved_for_each columns records db) as [C P].
    destruct (for_each (load_row columns) records db) as [[[]|e1] dbm];
      simpl in *.
    + destruct dbm as [d [| |txn]]; unfold bind, commit, _close; simpl;
        intros H; injection H as <- <-; simpl.
      * split; [exact C | right; right; left; reflexivity].
      * split; [exact C | right; left; reflexivity].
      * exists (mk_db d (open_conn txn)). split; [exact C | reflexivity].
    + intros H; injection H as <- <-. split; [exact C|]. left. apply P.
      reflexivity.
  - intros H; injection H as <- <-. split; [apply carried_refl|].
    right; right; right. reflexivity.
Qed.

(** A load that raises has not touched the committed store. *)
Lemma load_nyc_file_raise_disk (fuel : nat) (fs : filesystem)
    (file_path : string) (db db' : NYCDB) (e : exn) :
  load_nyc_file fuel fs file_path db = Some (Raise e, db') ->
  disk db' = disk db.
Proof. intros H. apply load_nyc_file_outcome in H. apply H. Qed.

Section Invariant.

(** A property of stores that every resolve-or-create call keeps. *)
Variable Inv : store -> Prop.
Hypothesis Inv_resolves : forall s s', resolves s s' -> Inv s -> Inv s'.

Lemma resolves_star_invariant (s s' : store) :
  resolves_star s s' -> Inv s -> Inv s'.
Proof.
  induction 1 as [s | s s1 s2 R _ IH]; intros H; [exact H|].
  apply IH. eapply Inv_resolves; eauto.
Qed.

Lemma steps_invariant (db db' : NYCDB) :
  steps db db' -> Inv (view db) -> Inv (view db').
Proof.
  induction 1 as [db | db db1 db2 S _ IH]; intros H; [exact H|].
  apply IH. eapply Inv_resolves; [apply step_resolves, S | exact H].
Qed.

Lemma carried_invariant (db db' : NYCDB) :
  carried db db' -> Inv (disk db) -> Inv (view db) ->
  Inv (disk db') /\ Inv (view db').
Proof.
  intros [D V] Hd Hv. split; [rewrite D; exact Hd|].
  destruct V as [V | V]; eapply resolves_star_invariant; eauto.
Qed.

(** The property holds of what is committed and of what the connection
    sees after a load, however the load ended. *)
Lemma load_nyc_file_invariant (fuel : nat) (fs : filesystem)
    (file_path : string) (db db' : NYCDB) (o : outcome unit) :
  Inv (disk db) -> Inv (view db) ->
  load_nyc_file fuel fs file_path db = Some (o, db') ->
  Inv (disk db') /\ Inv (view db').
Proof.
  intros Hd Hv H. apply load_nyc_file_outcome in H. destruct o as [[]|e].
  - destruct H as (dbm & C & ->).
    destruct (carried_invariant _ _ C Hd Hv) as [_ Hm]. split; exact Hm.
  - destruct H as [C _]. apply (carried_invariant _ _ C Hd Hv).
Qed.

Lemma scan_invariant (fuel : nat) (paths : list string) (w w' : world)
    (o : outcome unit) :
  Inv (disk (nycdb w)) -> Inv (view (nycdb w)) ->
  scan fuel paths w = Some (o, w') ->
  Inv (disk (nycdb w')) /\ Inv (view (nycdb w')).
Proof.
  revert w. induction paths as [|file paths IH]; intros w Hd Hv.
  - simpl. intros H; injection H as _ <-. split; assumption.
  - cbn [scan].
    destruct (load_nyc_file fuel (files w) file (nycdb w))
      as [[o1 db1]|] eqn:E; [|discriminate].
    destruct (load_nyc_file_invariant _ _ _ _ _ _ Hd Hv E) as [Hd1 Hv1].
    destruct o1 as [[]|e].
    + destruct (os_rename file _ (files w)) as [fs'|e].
      * apply IH; assumption.
      * destruct (handler e file).
        -- apply IH; assumption.
        -- intros H; injection H as _ <-. split; assumption.
    + destruct (handler e file).
      * apply IH; assumption.
      * intros H; injection H as _ <-. split; assumption.
Qed.

End Invariant.

(** * Scanning the intake directory *)

(** A file keeps its name when it moves to the archive. *)
Lemma strip_prefix_to_load (s : string) :
  is_file_name s = true -> strip_prefix PATH_TO_LOAD s = None.
Proof.
  unfold is_file_name, PATH_TO_LOAD.
  destruct s as [|c1 [|c2 [|c3 [|c4 [|c5 s]]]]]; cbn [strip_prefix];
    intros H;
    repeat match goal with
           | |- (if Ascii.eqb ?a ?b then _ else None) = None =>
               destruct (Ascii.eqb_spec a b); [subst | reflexivity]
           end; try reflexivity.
  simpl in H. discriminate.
Qed.

Lemma is_file_name_tail (c : ascii) (s : string) :
  is_file_name (String c s) = true -> is_file_name s = true.
Proof.
  unfold is_file_name. simpl. destruct (Ascii.eqb c "/"); simpl;
    [discriminate | auto].
Qed.

Lemma replace_file_name (name : string) :
  is_file_name name = true ->
  replace_from 0 PATH_TO_LOAD PATH_LOADED name = name.
Proof.
  induction name as [|c name IH]; intros H; [reflexivity|].
  cbn [replace_from]. rewrite (strip_prefix_to_load _ H).
  rewrite IH by (eapply is_file_name_tail; exact H). reflexivity.
Qed.

Lemma archive_path (name : string) :
  is_file_name name = true ->
  replace (String.append PATH_TO_LOAD name) PATH_TO_LOAD PATH_LOADED
  = String.append PATH_LOADED name.
Proof.
  intros H. pose proof (replace_file_name name H) as E.
  unfold replace, PATH_TO_LOAD, PATH_LOADED in *. simpl.
  rewrite E. reflexivity.
Qed.

Lemma lookup_file_In (path : string) (fs : filesystem) (f : read_csv_result) :
  lookup_file path fs = Some f -> In (path, f) fs.
Proof.
  induction fs as [|[p g] fs IH]; simpl; [discriminate|].
  destruct (String.eqb_spec p path) as [->|_].
  - intros H; injection H as <-. left; reflexivity.
  - intros H. right. apply IH, H.
Qed.

(** Every exception that leaves a load of a decodable directory has a
    class that can be built from one message. *)
Lemma load_nyc_file_raise_class (fuel : nat) (fs : filesystem)
    (file_path : string) (db db' : NYCDB) (e : exn) :
  decodable fs ->
  load_nyc_file fuel fs file_path db = Some (Raise e, db') ->
  exn_class e <> UnicodeDecodeError /\ exn_class e <> UnicodeEncodeError.
Proof.
  intros Hfs H. apply load_nyc_file_outcome in H.
  destruct H as [_ [P | [P | [P | P]]]].
  - destruct P as [-> | [-> | [-> | ->]]]; split; discriminate.
  - rewrite P. split; discriminate.
  - rewrite P. split; discriminate.
  - unfold read_csv in P.
    destruct (lookup_file file_path fs) as [f|] eqn:L.
    + subst f. apply lookup_file_In in L. eapply Hfs, L.
    + injection P as <-. split; discriminate.
Qed.

Lemma handler_returns (e : exn) (file : string) :
  exn_class e <> UnicodeDecodeError /\ exn_class e <> UnicodeEncodeError ->
  handler e file = Return tt.
Proof.
  unfold handler, retype. intros [H1 H2].
  destruct (exn_class e); try reflexivity; contradiction.
Qed.

Lemma os_rename_decodable (src dst : string) (fs fs' : filesystem) :
  decodable fs -> os_rename src dst fs = Return fs' -> decodable fs'.
Proof.
  intros Hfs. unfold os_rename.
  destruct (lookup_file src fs) as [f|] eqn:L; [|discriminate].
  destruct (String.eqb src dst).
  - intros H; injection H as <-. exact Hfs.
  - intros H; injection H as <-. intros path c Hin.
    apply in_app_or in Hin. destruct Hin as [Hin | [Hin | []]].
    + unfold remove_file in Hin. apply filter_In in Hin. destruct Hin as [Hin _].
      apply filter_In in Hin. destruct Hin as [Hin _]. eapply Hfs, Hin.
    + injection Hin as _ ->. apply lookup_file_In in L. eapply Hfs, L.
Qed.

Lemma os_rename_raise_class (src dst : string) (fs : filesystem) (e : exn) :
  os_rename src dst fs = Raise e ->
  exn_class e <> UnicodeDecodeError /\ exn_class e <> UnicodeEncodeError.
Proof.
  unfold os_rename. destruct (lookup_file src fs).
  - destruct (String.eqb src dst); discriminate.
  - intros H; injection H as <-. split; discriminate.
Qed.

(** The part of the scan that holds: when no file is undecodable, no
    failure leaves the loop; the scan returns and has announced every
    file of its list. *)
Lemma scan_isolates_failures (fuel : nat) (paths : list string) (w : world)
    (r : outcome unit * world) :
  decodable (files w) ->
  scan fuel paths w = Some r ->
  exists w',
    r = (Return tt, w')
    /\ stdout w' = stdout w ++ map (String.append "Loading ") paths.
Proof.
  revert w. induction paths as [|file paths IH]; intros w Hfs.
  - simpl. intros H; injection H as <-. exists w. split; [reflexivity|].
    symmetry; apply app_nil_r.
  - cbn [scan].
    destruct (load_nyc_file fuel (files w) file (nycdb w))
      as [[[[]|e] db']|] eqn:E; [| |discriminate].
    + destruct (os_rename file _ (files w)) as [fs'|e] eqn:R.
      * intros H. apply IH in H; [|eapply os_rename_decodable; eauto].
        destruct H as (w' & -> & Hout). exists w'. split; [reflexivity|].
        rewrite Hout. simpl. rewrite <- app_assoc. reflexivity.
      * rewrite handler_returns by (eapply os_rename_raise_class; eauto).
        intros H. apply IH in H; [|exact Hfs].
        destruct H as (w' & -> & Hout). exists w'. split; [reflexivity|].
        rewrite Hout. simpl. rewrite <- app_assoc. reflexivity.
    + rewrite handler_returns by (eapply load_nyc_file_raise_class; eauto).
      intros H. apply IH in H; [|exact Hfs].
      destruct H as (w' & -> & Hout). exists w'. split; [reflexivity|].
      rewrite Hout. simpl. rewrite <- app_assoc. reflexivity.
Qed.

(** * Loads are sequences of operations *)

Lemma steps_trans (db1 db2 db3 : NYCDB) :
  steps db1 db2 -> steps db2 db3 -> steps db1 db3.
Proof.
  induction 1 as [db | db db' db'' S _ IH]; intros H; [exact H|].
  eapply steps_cons; [exact S | apply IH, H].
Qed.

Lemma step_steps (db db' : NYCDB) : step db db' -> steps db db'.
Proof. intros S. eapply steps_cons; [exact S | apply steps_nil]. Qed.

Lemma load_row_steps (record : csv_row * string) (db db' : NYCDB) :
  load_row_all record db = (Return tt, db') -> steps db db'.
Proof.
  destruct record as [row t]. unfold load_row_all, bind.
  destruct (get_cuisine (cuisine_desc row) db) as [[cid|e] db1] eqn:E1;
    [|discriminate].
  destruct (get_action (action_desc row) db1) as [[aid|e] db2] eqn:E2;
    [|discriminate].
  destruct (load_viol (viol_id row) (viol_desc row) db2) as [[[]|e] db3] eqn:E3;
    [|discriminate].
  destruct (load_rest (CAMIS row) (DBA row) (BORO row) (BUILDING row)
              (STREET row) (ZIPCODE row) (PHONE row) cid db3)
    as [[[]|e] db4] eqn:E4; [|discriminate].
  intros E5.
  eapply steps_cons; [eapply step_get_cuisine, E1|].
  eapply steps_cons; [eapply step_get_action, E2|].
  eapply steps_cons; [eapply step_load_viol, E3|].
  eapply steps_cons; [eapply step_load_rest, E4|].
  eapply step_steps, step_load_insp, E5.
Qed.

Lemma for_each_steps (records : list (csv_row * string)) (db db' : NYCDB) :
  for_each load_row_all records db = (Return tt, db') -> steps db db'.
Proof.
  revert db. induction records as [|record records IH]; intros db; simpl.
  - unfold ret. intros H; injection H as <-. apply steps_nil.
  - unfold bind.
    destruct (load_row_all record db) as [[[]|e] db1] eqn:E1; [|discriminate].
    intros E2. eapply steps_trans; [eapply load_row_steps, E1 | apply IH, E2].
Qed.

(** A load that returns is a sequence of successful operations. *)
Lemma load_nyc_file_steps (fuel : nat) (fs : filesystem) (file_path : string)
    (db db' : NYCDB) :
  load_nyc_file fuel fs file_path db = Some (Return tt, db') -> steps db db'.
Proof.
  unfold load_nyc_file.
  destruct (read_csv fs file_path) as [columns df | c]; [|discriminate].
  destruct (add_insp_time fuel df) as [records|]; [|discriminate].
  intros H; injection H as H. revert H. unfold bind at 1.
  destruct (for_each (load_row columns) records db) as [[[]|e] dbm] eqn:E1;
    [|discriminate].
  intros E2. eapply steps_trans; [|apply step_steps, step_commit_close, E2].
  destruct records as [|record records].
  - simpl in E1. unfold ret in E1. injection E1 as <-. apply steps_nil.
  - assert (C : complete columns = true)
      by (eapply for_each_returns_complete; [|exact E1]; discriminate).
    rewrite for_each_complete in E1 by exact C.
    eapply for_each_steps, E1.
Qed.

(** * Referential integrity as an invariant *)

Lemma has_key_app {A} (k : Z) (key : A -> Z) (t more : list A) :
  has_key k key t = true -> has_key k key (t ++ more) = true.
Proof.
  unfold has_key. rewrite existsb_app. intros ->. reflexivity.
Qed.

Lemma has_text_app {A} (k : string) (key : A -> string) (t more : list A) :
  has_text k key t = true -> has_text k key (t ++ more) = true.
Proof.
  unfold has_text. rewrite existsb_app. intros ->. reflexivity.
Qed.

Lemma has_key_insert (k : Z) (r : rest_row) (t : list rest_row) :
  has_key k r_camis t = true -> has_key k r_camis (insert_by_camis r t) = true.
Proof.
  unfold has_key. intros H. apply existsb_exists in H.
  destruct H as (x & Hin & Hx). apply existsb_exists. exists x.
  split; [apply In_insert_by_camis; right; exact Hin | exact Hx].
Qed.

(** A statement that succeeds had its references in the store. *)
Lemma execute_references (sql : action_sql) (s s' : store) (r : Z) :
  execute sql s = inr (s', r) -> references_present sql s = true.
Proof.
  intros H. destruct (references_present sql s) eqn:E; [reflexivity|].
  destruct (execute_without_references _ _ E) as (e & He & _). congruence.
Qed.

Lemma execute_consistent (sql : action_sql) (s s' : store) (r : Z) :
  consistent s -> execute sql s = inr (s', r) -> consistent s'.
Proof.
  intros [HR HI] H. pose proof (execute_references _ _ _ _ H) as Hrefs.
  destruct sql as [d | d | v d | camis dba boro building street zip phone cid
                   | camis date time v aid | table b].
  - simpl in H. destruct d as [d|]; [|discriminate].
    destruct (next_autoincrement _ _) as [e|id]; [discriminate|].
    injection H as <- _. split; simpl.
    + intros x Hx. apply has_key_app, HR, Hx.
    + exact HI.
  - simpl in H. destruct d as [d|]; [|discriminate].
    destruct (next_autoincrement _ _) as [e|id]; [discriminate|].
    injection H as <- _. split; simpl.
    + exact HR.
    + intros i Hi. destruct (HI i Hi) as (H1 & H2 & H3).
      repeat split; try assumption. apply has_key_app, H3.
  - simpl in H. destruct v as [v|], d as [d|]; try discriminate.
    destruct (has_text v fst (tViol s)); [discriminate|].
    injection H as <- _. split; simpl.
    + exact HR.
    + intros i Hi. destruct (HI i Hi) as (H1 & H2 & H3).
      repeat split; try assumption. apply has_text_app, H2.
  - apply execute_tRest_returns in H.
    destruct H as (row & -> & _ & Hc & Hrow & _). split; simpl.
    + intros x Hx. apply In_insert_by_camis in Hx.
      destruct Hx as [-> | Hx]; [rewrite Hrow; exact Hc | apply HR, Hx].
    + intros i Hi. destruct (HI i Hi) as (H1 & H2 & H3).
      repeat split; try assumption. apply has_key_insert, H1.
  - simpl in H, Hrefs.
    destruct camis as [camis|], date as [date|], time as [time|], v as [v|];
      try discriminate.
    destruct (negb (LIKE _ _ && LIKE _ _)); [discriminate|].
    destruct (existsb _ _); [discriminate|].
    rewrite Hrefs in H. simpl in H. injection H as <- _. split; simpl.
    + exact HR.
    + intros i Hi. apply in_app_or in Hi. destruct Hi as [Hi | [<- | []]].
      * apply HI, Hi.
      * simpl. apply andb_prop in Hrefs. destruct Hrefs as [Hrefs H3].
        apply andb_prop in Hrefs. destruct Hrefs as [H1 H2]. auto.
  - discriminate.
Qed.

Lemma resolves_consistent (s s' : store) :
  resolves s s' -> consistent s -> consistent s'.
Proof.
  intros [s0 | sql s0 s1 r _ E] H; [exact H|].
  eapply execute_consistent; eauto.
Qed.

Lemma step_disk (db db' : NYCDB) :
  step db db' -> disk db' = disk db \/ disk db' = view db.
Proof.
  intros S.
  destruct S as [c id ? ? H | a id ? ? H | v d ? ? H
                 | camis dba boro building street zip phone cid ? ? H
                 | camis date time v aid ? ? H | ? ? H].
  - pose proof (get_cuisine_outcome c db) as O. rewrite H in O. left; apply O.
  - pose proof (get_action_outcome a db) as O. rewrite H in O. left; apply O.
  - pose proof (load_viol_outcome v d db) as O. rewrite H in O. left; apply O.
  - pose proof (load_rest_outcome camis dba boro building street zip phone
                  cid db) as O. rewrite H in O. left; apply O.
  - pose proof (load_insp_outcome camis date time v aid db) as O.
    rewrite H in O. left; apply O.
  - apply commit_close_returns in H. destruct H as [-> _]. right; reflexivity.
Qed.

Lemma step_consistent (db db' : NYCDB) :
  consistent (disk db) -> consistent (view db) -> step db db' ->
  consistent (disk db') /\ consistent (view db').
Proof.
  intros Hd Hv S. split.
  - destruct (step_disk _ _ S) as [-> | ->]; assumption.
  - eapply resolves_consistent; [apply step_resolves, S | exact Hv].
Qed.

(** The pipeline keeps the store consistent: no sequence of successful
    operations, commits included, persists a row with a missing
    reference. *)
Lemma steps_consistent (db db' : NYCDB) :
  consistent (disk db) -> consistent (view db) -> steps db db' ->
  consistent (disk db') /\ consistent (view db').
Proof.
  intros Hd Hv S. induction S as [db | db db1 db2 S _ IH]; [split; assumption|].
  destruct (step_consistent _ _ Hd Hv S) as [Hd1 Hv1]. apply IH; assumption.
Qed.

Lemma load_nyc_file_consistent (fuel : nat) (fs : filesystem)
    (file_path : string) (db db' : NYCDB) :
  consistent (disk db) -> consistent (view db) ->
  load_nyc_file fuel fs file_path db = Some (Return tt, db') ->
  consistent (disk db').
Proof.
  intros Hd Hv H. apply load_nyc_file_steps in H.
  apply (steps_consistent _ _ Hd Hv H).
Qed.

(** * The scan on an undecodable file *)

(** C6.  With an intake directory that holds a file pandas cannot decode
    and then a good file, the scan does not return: building the
    exception of the handler raises [TypeError], which leaves
    [load_new_data]; the good file is never announced nor loaded and
    stays in the intake directory, and the database stays empty. *)
Theorem scan_stops_at_undecodable_file :
  glob_to_load sample_files
  = ["data/to_load/nyc_a.csv"%string; "data/to_load/nyc_b.csv"%string]
  /\ load_new_data 64 (mk_world sample_files new_db [])
     = Some (Raise (mk_exn TypeError
                      (library_text
                         "function takes exactly 5 arguments (1 given)")),
             mk_world sample_files new_db
                      ["Loading data/to_load/nyc_a.csv"%string]).
Proof. split; vm_compute; reflexivity. Qed.

(** With a first file that fails in any other way the same scan goes on:
    the failed file stays, the good one is loaded and archived under its
    name. *)
Example scan_goes_on_after_ParserError :
  load_new_data 64
    (mk_world [("data/to_load/nyc_a.csv"%string, read_csv_raises ParserError);
               ("data/to_load/nyc_b.csv"%string, DataFrame all_columns [sample_row])]
              new_db [])
  = Some (Return tt,
          mk_world [("data/to_load/nyc_a.csv"%string, read_csv_raises ParserError);
                    ("data/loaded/nyc_b.csv"%string, DataFrame all_columns [sample_row])]
                   (mk_db sample_store closed_conn)
                   ["Loading data/to_load/nyc_a.csv"%string;
                    "Loading data/to_load/nyc_b.csv"%string]).
Proof. vm_compute. reflexivity. Qed.

(** * Instances *)

Lemma referential_integrity_witness :
  let sql := INSERT_tInsp (Some (mk_int64 41 eq_refl))
               (Some "01/02/2020"%string) (Some "09:00:00"%string)
               (Some "04L"%string) (mk_int64 1 eq_refl) in
  references_present sql (view new_db) = false
  /\ exists db',
       run_action sql true new_db
       = (Raise (mk_exn IntegrityError (sql_params sql)), db')
       /\ conn db' = closed_conn
       /\ disk db' = disk new_db
       /\ view db' = disk new_db.
Proof.
  split; [reflexivity|].
  apply (referential_integrity _ true new_db). reflexivity.
Defined.

Lemma date_format_validation_witness :
  characters_date "2020-01-02" = false
  /\ exists db',
       run_action (INSERT_tInsp (Some (mk_int64 41 eq_refl))
                     (Some "2020-01-02"%string) (Some "09:00:00"%string)
                     (Some "04L"%string) (mk_int64 1 eq_refl))
                  true (mk_db sample_store closed_conn)
       = (Raise (mk_exn IntegrityError
                   (sql_params (INSERT_tInsp (Some (mk_int64 41 eq_refl))
                                  (Some "2020-01-02"%string)
                                  (Some "09:00:00"%string)
                                  (Some "04L"%string) (mk_int64 1 eq_refl)))),
          db')
       /\ conn db' = closed_conn
       /\ disk db' = sample_store
       /\ view db' = sample_store.
Proof.
  split; [reflexivity|].
  apply (date_format_validation (Some (mk_int64 41 eq_refl)) "2020-01-02"
           (Some "09:00:00"%string) (Some "04L"%string) (mk_int64 1 eq_refl)
           true (mk_db sample_store closed_conn)).
  reflexivity.
Defined.

Lemma load_insp_existing_key_witness :
  let stored := mk_insp 41 "01/02/2020" "13:25:54" "04L" 1 eq_refl in
  let db := mk_db sample_store closed_conn in
  In stored (tInsp (view db))
  /\ same_insp_key 41 "01/02/2020" "13:25:54" "04L" stored = true
  /\ exists db',
       load_insp (Some 41) (Some "01/02/2020"%string) (Some "13:25:54"%string)
                 (Some "04L"%string) 2 db = (Return tt, db')
       /\ disk db' = disk db
       /\ view db' = view db
       /\ In stored (tInsp (view db')).
Proof.
  assert (Hin : In (mk_insp 41 "01/02/2020" "13:25:54" "04L" 1 eq_refl)
                   (tInsp (view (mk_db sample_store closed_conn))))
    by (left; reflexivity).
  split; [exact Hin|]. split; [reflexivity|].
  apply (load_insp_existing_key 41 "01/02/2020" "13:25:54" "04L" 2
           (mk_db sample_store closed_conn) _ Hin).
  reflexivity.
Defined.

Lemma get_or_create_stable_witness :
  let db1 := mk_db empty_store
               (open_conn (with_tCuisine empty_store [(1, "Thai"%string)] 1)) in
  let db2 := mk_db empty_store
               (open_conn (with_tCuisine empty_store
                             [(1, "Thai"%string); (2, "Pizza"%string)] 2)) in
  get_cuisine (Some "Thai"%string) new_db = (Return 1, db1)
  /\ steps db1 db2
  /\ exists db3, get_cuisine (Some "Thai"%string) db2 = (Return 1, db3).
Proof.
  intros db1 db2.
  assert (H : get_cuisine (Some "Thai"%string) new_db = (Return 1, db1))
    by reflexivity.
  assert (S : steps db1 db2).
  { apply step_steps.
    apply (step_get_cuisine (Some "Pizza"%string) 2). reflexivity. }
  split; [exact H|]. split; [exact S|].
  exact (get_or_create_stable get_cuisine (Some "Thai"%string) 1 new_db db1 db2
           (or_introl eq_refl) H S).
Defined.


Lemma synthesized_time_range_witness :
  add_insp_time 64 [sample_row] = Some [(sample_row, "13:25:54"%string)]
  /\ map fst [(sample_row, "13:25:54"%string)] = [sample_row]
  /\ Forall synthesized_time (map snd [(sample_row, "13:25:54"%string)]).
Proof.
  assert (H : add_insp_time 64 [sample_row]
              = Some [(sample_row, "13:25:54"%string)])
    by (vm_compute; reflexivity).
  split; [exact H|].
  exact (synthesized_time_range 64 [sample_row] _ H).
Defined.

Lemma insp_times_by_row_count_witness :
  let other := mk_row (Some 50) None None None None None None None None None None None in
  List.length [sample_row] = List.length [other]
  /\ option_map (map snd) (add_insp_time 64 [sample_row])
     = option_map (map snd) (add_insp_time 64 [other]).
Proof.
  intros other. split; [reflexivity|].
  apply (proj1 insp_times_by_row_count 64%nat [sample_row] [other]). reflexivity.
Defined.

(** * Invariants kept by the resolve-or-create calls *)

(** A fresh AUTOINCREMENT rowid is above every rowid of the table. *)
Lemma next_autoincrement_fresh (ids : list Z) (seq id : Z) :
  next_autoincrement ids seq = inr id -> Forall (fun x => x < id) ids.
Proof.
  unfold next_autoincrement.
  destruct (max_rowid <=? fold_right Z.max seq ids); [discriminate|].
  intros H; injection H as <-. apply Forall_forall. intros x Hx.
  destruct (fold_max_bounds ids seq) as [_ B]. specialize (B x Hx). lia.
Qed.

Lemma Forall_lt_not_In (ids : list Z) (id : Z) :
  Forall (fun x => x < id) ids -> ~ In id ids.
Proof.
  intros F Hin. rewrite Forall_forall in F. specialize (F id Hin). lia.
Qed.

Lemma NoDup_snoc {A} (l : list A) (x : A) :
  NoDup l -> ~ In x l -> NoDup (l ++ [x]).
Proof.
  intros Hl Hx. induction l as [|y l IH]; simpl.
  - constructor; [intros [] | constructor].
  - inversion Hl as [|? ? Hy Hl']; subst. constructor.
    + intros Hin. apply in_app_or in Hin. destruct Hin as [Hin | [-> | []]].
      * contradiction.
      * apply Hx. left; reflexivity.
    + apply IH; [exact Hl'|]. intros Hin. apply Hx. right; exact Hin.
Qed.

Lemma increasing_snoc (l : list Z) (x : Z) :
  increasing l -> Forall (fun y => y < x) l -> increasing (l ++ [x]).
Proof.
  induction l as [|y l IH]; simpl; intros Hl Hx.
  - split; [constructor | exact I].
  - destruct Hl as [Hy Hl]. inversion Hx as [|? ? Hyx Hx']; subst. split.
    + apply Forall_app. split; [exact Hy | constructor; [exact Hyx | constructor]].
    + apply IH; assumption.
Qed.

Lemma has_key_false {A} (k : Z) (key : A -> Z) (t : list A) :
  has_key k key t = false -> ~ In k (map key t).
Proof.
  unfold has_key. intros H Hin. apply in_map_iff in Hin.
  destruct Hin as (r & <- & Hr).
  assert (E : existsb (fun r0 => key r0 =? key r) t = true).
  { apply existsb_exists. exists r. split; [exact Hr | apply Z.eqb_refl]. }
  congruence.
Qed.

Lemma has_text_false {A} (k : string) (key : A -> string) (t : list A) :
  has_text k key t = false -> ~ In k (map key t).
Proof.
  unfold has_text. intros H Hin. apply in_map_iff in Hin.
  destruct Hin as (r & <- & Hr).
  assert (E : existsb (fun r0 => String.eqb (key r0) (key r)) t = true).
  { apply existsb_exists. exists r. split; [exact Hr | apply String.eqb_refl]. }
  congruence.
Qed.

Lemma same_insp_key_false (camis : Z) (d t v : string) (rows : list insp_row) :
  existsb (same_insp_key camis d t v) rows = false ->
  ~ In (camis, d, t, v) (map insp_key rows).
Proof.
  intros H Hin. apply in_map_iff in Hin. destruct Hin as (r & Hk & Hr).
  assert (E : existsb (same_insp_key camis d t v) rows = true).
  { apply existsb_exists. exists r. split; [exact Hr|].
    unfold insp_key in Hk. injection Hk as <- <- <- <-.
    apply same_insp_key_refl. }
  congruence.
Qed.

Lemma no_description (d : string) (t : list (Z * string)) :
  map fst (filter (fun r => String.eqb (snd r) d) t) = [] ->
  ~ In d (map snd t).
Proof.
  intros H Hin. apply map_fst_nil in H. apply in_map_iff in Hin.
  destruct Hin as (r & <- & Hr).
  assert (E : In r (filter (fun r0 => String.eqb (snd r0) (snd r)) t)).
  { apply filter_In. split; [exact Hr | apply String.eqb_refl]. }
  rewrite H in E. exact E.
Qed.

(** ** A row that takes its place in [tRest] *)

Lemma In_map_insert_by_camis (k : Z) (r : rest_row) (t : list rest_row) :
  In k (map r_camis (insert_by_camis r t))
  <-> k = r_camis r \/ In k (map r_camis t).
Proof.
  rewrite !in_map_iff. split.
  - intros (x & <- & Hx). apply In_insert_by_camis in Hx.
    destruct Hx as [-> | Hx]; [left; reflexivity|].
    right. exists x. split; [reflexivity | exact Hx].
  - intros [-> | (x & <- & Hx)].
    + exists r. split; [reflexivity|]. apply In_insert_by_camis. left; reflexivity.
    + exists x. split; [reflexivity|]. apply In_insert_by_camis. right; exact Hx.
Qed.

Lemma NoDup_insert_by_camis (r : rest_row) (t : list rest_row) :
  NoDup (map r_camis t) -> ~ In (r_camis r) (map r_camis t) ->
  NoDup (map r_camis (insert_by_camis r t)).
Proof.
  induction t as [|x t IH]; simpl; intros Hn Hr.
  - constructor; [intros [] | constructor].
  - inversion Hn as [|? ? Hx Hn']; subst.
    destruct (r_camis r <? r_camis x); simpl.
    + constructor; [exact Hr | exact Hn].
    + constructor.
      * intros Hin. apply In_map_insert_by_camis in Hin.
        destruct Hin as [E | Hin]; [|contradiction].
        apply Hr. left. exact E.
      * apply IH; [exact Hn'|]. intros Hin. apply Hr. right. exact Hin.
Qed.

Lemma increasing_insert_by_camis (r : rest_row) (t : list rest_row) :
  increasing (map r_camis t) -> ~ In (r_camis r) (map r_camis t) ->
  increasing (map r_camis (insert_by_camis r t)).
Proof.
  induction t as [|x t IH]; simpl; intros Hi Hr.
  - split; [constructor | exact I].
  - destruct Hi as [Hx Hi].
    destruct (r_camis r <? r_camis x) eqn:L; simpl.
    + apply Z.ltb_lt in L. split; [|split; assumption].
      constructor; [exact L|].
      eapply Forall_impl; [|exact Hx]. simpl. intros; lia.
    + apply Z.ltb_ge in L. split.
      * apply Forall_forall. intros k Hk. apply In_map_insert_by_camis in Hk.
        destruct Hk as [-> | Hk].
        -- assert (r_camis x <> r_camis r) by (intros E; apply Hr; left; exact E).
           lia.
        -- rewrite Forall_forall in Hx. apply Hx, Hk.
      * apply IH; [exact Hi|]. intros Hin. apply Hr. right. exact Hin.
Qed.

Lemma subsequence_refl {A} (l : list A) : subsequence l l.
Proof.
  induction l as [|x l IH]; [apply subsequence_nil|].
  apply subsequence_keep, IH.
Qed.

Lemma subsequence_trans {A} (l1 l2 l3 : list A) :
  subsequence l1 l2 -> subsequence l2 l3 -> subsequence l1 l3.
Proof.
  intros H12 H23. revert l1 H12.
  induction H23 as [| x l2 l3 _ IH | x l2 l3 _ IH]; intros l1 H12.
  - exact H12.
  - constructor. apply IH, H12.
  - inversion H12 as [| ? ? ? H | ? ? ? H]; subst.
    + apply subsequence_skip, IH, H.
    + apply subsequence_keep, IH, H.
Qed.

Lemma subsequence_insert_by_camis (r : rest_row) (t : list rest_row) :
  subsequence t (insert_by_camis r t).
Proof.
  induction t as [|x t IH]; simpl.
  - apply subsequence_skip, subsequence_nil.
  - destruct (r_camis r <? r_camis x).
    + apply subsequence_skip, subsequence_refl.
    + apply subsequence_keep, IH.
Qed.

Lemma subsequence_In {A} (l l' : list A) (x : A) :
  subsequence l l' -> In x l -> In x l'.
Proof.
  induction 1 as [| y l l' _ IH | y l l' _ IH]; simpl; intros Hin.
  - exact Hin.
  - right. apply IH, Hin.
  - destruct Hin as [-> | Hin]; [left; reflexivity | right; apply IH, Hin].
Qed.

(** ** The four invariants *)

Lemma resolves_unique_keys (s s' : store) :
  resolves s s' -> unique_keys s -> unique_keys s'.
Proof.
  intros R (U1 & U2 & U3 & U4 & U5 & U6 & U7).
  destruct R as [s | sql s s' r Hmiss H]; [repeat split; assumption|].
  destruct sql as [d | d | v d | camis dba boro building street zip phone cid
                   | camis date time v aid | table b].
  - simpl in H, Hmiss. destruct d as [d|]; [|discriminate].
    destruct (next_autoincrement _ _) as [e|id] eqn:N; [discriminate|].
    injection H as <- _. unfold unique_keys; simpl. rewrite !map_app. simpl.
    repeat split; try assumption.
    + apply NoDup_snoc; [exact U1|].
      apply Forall_lt_not_In, (next_autoincrement_fresh _ _ _ N).
    + apply NoDup_snoc; [exact U2 | apply no_description, Hmiss].
  - simpl in H, Hmiss. destruct d as [d|]; [|discriminate].
    destruct (next_autoincrement _ _) as [e|id] eqn:N; [discriminate|].
    injection H as <- _. unfold unique_keys; simpl. rewrite !map_app. simpl.
    repeat split; try assumption.
    + apply NoDup_snoc; [exact U3|].
      apply Forall_lt_not_In, (next_autoincrement_fresh _ _ _ N).
    + apply NoDup_snoc; [exact U4 | apply no_description, Hmiss].
  - simpl in H. destruct v as [v|], d as [d|]; try discriminate.
    destruct (has_text v fst (tViol s)) eqn:K; [discriminate|].
    injection H as <- _. unfold unique_keys; simpl. rewrite !map_app. simpl.
    repeat split; try assumption.
    apply NoDup_snoc; [exact U5 | apply has_text_false, K].
  - apply execute_tRest_returns in H. destruct H as (row & -> & K & _).
    unfold unique_keys; simpl. repeat split; try assumption.
    apply NoDup_insert_by_camis; [exact U6 | apply has_key_false, K].
  - simpl in H.
    destruct camis as [camis|], date as [date|], time as [time|], v as [v|];
      try discriminate.
    destruct (negb (LIKE _ _ && LIKE _ _)); [discriminate|].
    destruct (existsb _ _) eqn:K; [discriminate|].
    destruct (negb _); [discriminate|].
    injection H as <- _. unfold unique_keys; simpl. rewrite !map_app. simpl.
    repeat split; try assumption.
    apply NoDup_snoc; [exact U7 | apply same_insp_key_false, K].
  - discriminate.
Qed.

Lemma resolves_rowid_order (s s' : store) :
  resolves s s' -> rowid_order s -> rowid_order s'.
Proof.
  intros R (O1 & O2 & O3).
  destruct R as [s | sql s s' r _ H]; [repeat split; assumption|].
  destruct sql as [d | d | v d | camis dba boro building street zip phone cid
                   | camis date time v aid | table b].
  - simpl in H. destruct d as [d|]; [|discriminate].
    destruct (next_autoincrement _ _) as [e|id] eqn:N; [discriminate|].
    injection H as <- _. repeat split; simpl; try assumption. rewrite map_app.
    apply increasing_snoc; [exact O1 | apply (next_autoincrement_fresh _ _ _ N)].
  - simpl in H. destruct d as [d|]; [|discriminate].
    destruct (next_autoincrement _ _) as [e|id] eqn:N; [discriminate|].
    injection H as <- _. repeat split; simpl; try assumption. rewrite map_app.
    apply increasing_snoc; [exact O2 | apply (next_autoincrement_fresh _ _ _ N)].
  - simpl in H. destruct v as [v|], d as [d|]; try discriminate.
    destruct (has_text v fst (tViol s)); [discriminate|].
    injection H as <- _. repeat split; assumption.
  - apply execute_tRest_returns in H. destruct H as (row & -> & K & _).
    repeat split; simpl; try assumption.
    apply increasing_insert_by_camis; [exact O3 | apply has_key_false, K].
  - simpl in H.
    destruct camis as [camis|], date as [date|], time as [time|], v as [v|];
      try discriminate.
    destruct (negb (LIKE _ _ && LIKE _ _)); [discriminate|].
    destruct (existsb _ _); [discriminate|].
    destruct (negb _); [discriminate|].
    injection H as <- _. repeat split; assumption.
  - discriminate.
Qed.

Lemma only_added_refl (s : store) : only_added s s.
Proof.
  repeat split; try (exists []; symmetry; apply app_nil_r).
  apply subsequence_refl.
Qed.

Lemma only_added_trans (s1 s2 s3 : store) :
  only_added s1 s2 -> only_added s2 s3 -> only_added s1 s3.
Proof.
  intros ([a1 A1] & [b1 B1] & [c1 C1] & D1 & [e1 E1])
         ([a2 A2] & [b2 B2] & [c2 C2] & D2 & [e2 E2]).
  repeat split.
  - exists (a1 ++ a2). rewrite A2, A1, app_assoc. reflexivity.
  - exists (b1 ++ b2). rewrite B2, B1, app_assoc. reflexivity.
  - exists (c1 ++ c2). rewrite C2, C1, app_assoc. reflexivity.
  - eapply subsequence_trans; eauto.
  - exists (e1 ++ e2). rewrite E2, E1, app_assoc. reflexivity.
Qed.

Ltac same_table := exists []; symmetry; apply app_nil_r.
Ltac one_more := eexists; reflexivity.
Ltac tables_kept :=
  repeat split; simpl;
  first [one_more | same_table | apply subsequence_refl
        | apply subsequence_insert_by_camis].

Lemma resolves_only_added (s s' : store) : resolves s s' -> only_added s s'.
Proof.
  intros R. destruct R as [s | sql s s' r _ H]; [apply only_added_refl|].
  destruct sql as [d | d | v d | camis dba boro building street zip phone cid
                   | camis date time v aid | table b].
  - simpl in H. destruct d as [d|]; [|discriminate].
    destruct (next_autoincrement _ _) as [e|id]; [discriminate|].
    injection H as <- _. tables_kept.
  - simpl in H. destruct d as [d|]; [|discriminate].
    destruct (next_autoincrement _ _) as [e|id]; [discriminate|].
    injection H as <- _. tables_kept.
  - simpl in H. destruct v as [v|], d as [d|]; try discriminate.
    destruct (has_text v fst (tViol s)); [discriminate|].
    injection H as <- _. tables_kept.
  - apply execute_tRest_returns in H. destruct H as (row & -> & _).
    tables_kept.
  - simpl in H.
    destruct camis as [camis|], date as [date|], time as [time|], v as [v|];
      try discriminate.
    destruct (negb (LIKE _ _ && LIKE _ _)); [discriminate|].
    destruct (existsb _ _); [discriminate|].
    destruct (negb _); [discriminate|].
    injection H as <- _. tables_kept.
  - discriminate.
Qed.

Lemma resolves_star_only_added (s s' : store) :
  resolves_star s s' -> only_added s s'.
Proof.
  induction 1 as [s | s s1 s2 R _ IH]; [apply only_added_refl|].
  eapply only_added_trans; [apply resolves_only_added, R | exact IH].
Qed.

(** * Invariants of a directory scan *)

Lemma sample_world_scan :
  load_new_data 64 sample_world = Some (Return tt, sample_world_scanned).
Proof. vm_compute. reflexivity. Qed.

(** The scan of [mixed_world]: [nyc_a.csv] fails and stays, with its
    first writes pending; [nyc_b.csv] fails and stays; [nyc_c.csv] is
    loaded and archived, and its commit persists the pending rows. *)
Lemma mixed_world_scan :
  load_new_data 64 mixed_world = Some (Return tt, mixed_world_scanned).
Proof. vm_compute. reflexivity. Qed.

Lemma unique_keys_empty : unique_keys empty_store.
Proof. repeat split; constructor. Qed.

Lemma consistent_empty : consistent empty_store.
Proof. split; intros r []. Qed.

Ltac distinct :=
  repeat (constructor; [simpl; intuition (discriminate || congruence)|]);
  constructor.

Lemma unique_keys_sample : unique_keys sample_store.
Proof. repeat split; simpl; distinct. Qed.

Lemma consistent_sample : consistent sample_store.
Proof.
  split.
  - intros r [<- | []]. reflexivity.
  - intros i [<- | []]. repeat split.
Qed.

Lemma rowid_order_sample : rowid_order sample_store.
Proof. repeat split; simpl; constructor. Qed.

(** X1.  A directory scan never creates a duplicate.  When no two rows
    share a cuisine or action identifier or description, a violation
    code, a restaurant identifier or an inspection key, in the committed
    store and in what the connection sees, the same holds after
    [load_new_data], however many files it loaded, however each of them
    failed and however the scan ended. *)
Theorem scan_keeps_keys_unique (fuel : nat) (w w' : world) (o : outcome unit) :
  unique_keys (disk (nycdb w)) ->
  unique_keys (view (nycdb w)) ->
  load_new_data fuel w = Some (o, w') ->
  unique_keys (disk (nycdb w')) /\ unique_keys (view (nycdb w')).
Proof.
  intros Hd Hv H.
  apply (scan_invariant unique_keys resolves_unique_keys _ _ _ _ _ Hd Hv H).
Qed.

Lemma scan_keeps_keys_unique_witness :
  unique_keys (disk (nycdb mixed_world))
  /\ unique_keys (view (nycdb mixed_world))
  /\ load_new_data 64 mixed_world = Some (Return tt, mixed_world_scanned)
  /\ unique_keys (disk (nycdb mixed_world_scanned))
  /\ unique_keys (view (nycdb mixed_world_scanned)).
Proof.
  split; [exact unique_keys_sample|]. split; [exact unique_keys_sample|].
  split; [exact mixed_world_scan|].
  exact (scan_keeps_keys_unique 64 mixed_world mixed_world_scanned (Return tt)
           unique_keys_sample unique_keys_sample mixed_world_scan).
Defined.

(** X2.  A directory scan keeps every reference in place.  When every
    restaurant has its cuisine and every inspection its restaurant,
    violation and action, in the committed store and in what the
    connection sees, they have them after [load_new_data], however it
    ended. *)
Theorem scan_keeps_references (fuel : nat) (w w' : world) (o : outcome unit) :
  consistent (disk (nycdb w)) ->
  consistent (view (nycdb w)) ->
  load_new_data fuel w = Some (o, w') ->
  consistent (disk (nycdb w')) /\ consistent (view (nycdb w')).
Proof.
  intros Hd Hv H.
  apply (scan_invariant consistent resolves_consistent _ _ _ _ _ Hd Hv H).
Qed.

Lemma scan_keeps_references_witness :
  consistent (disk (nycdb mixed_world))
  /\ consistent (view (nycdb mixed_world))
  /\ load_new_data 64 mixed_world = Some (Return tt, mixed_world_scanned)
  /\ consistent (disk (nycdb mixed_world_scanned))
  /\ consistent (view (nycdb mixed_world_scanned)).
Proof.
  split; [exact consistent_sample|]. split; [exact consistent_sample|].
  split; [exact mixed_world_scan|].
  exact (scan_keeps_references 64 mixed_world mixed_world_scanned (Return tt)
           consistent_sample consistent_sample mixed_world_scan).
Defined.

(** X3.  A directory scan never updates or deletes a committed row.
    When what the connection sees is the committed store with rows
    added, then after [load_new_data], however it ended, every table of
    the committed store holds the rows it held, unchanged and in their
    order: [tCuisine], [tAction], [tViol] and [tInsp] with rows added at
    the end, [tRest] with rows added where their [camis] puts them. *)
Theorem scan_only_adds_rows (fuel : nat) (w w' : world) (o : outcome unit) :
  only_added (disk (nycdb w)) (view (nycdb w)) ->
  load_new_data fuel w = Some (o, w') ->
  only_added (disk (nycdb w)) (disk (nycdb w'))
  /\ only_added (disk (nycdb w)) (view (nycdb w')).
Proof.
  intros Hv H.
  refine (scan_invariant (only_added (disk (nycdb w))) _ _ _ _ _ _
            (only_added_refl _) Hv H).
  intros s s' R A. eapply only_added_trans; [exact A | apply resolves_only_added, R].
Qed.

Lemma scan_only_adds_rows_witness :
  only_added (disk (nycdb mixed_world)) (view (nycdb mixed_world))
  /\ load_new_data 64 mixed_world = Some (Return tt, mixed_world_scanned)
  /\ only_added sample_store mixed_store
  /\ only_added sample_store (view (nycdb mixed_world_scanned)).
Proof.
  split; [apply only_added_refl|]. split; [exact mixed_world_scan|].
  exact (scan_only_adds_rows 64 mixed_world mixed_world_scanned (Return tt)
           (only_added_refl _) mixed_world_scan).
Defined.

(** X4.  The tables whose rowid is a column stay in rowid order.  When
    [tCuisine] and [tAction] list their rows by increasing identifier
    and [tRest] by increasing [camis], in the committed store and in
    what the connection sees, they do after [load_new_data], however it
    ended: a new cuisine or action gets an identifier above all the
    others and goes last, a new restaurant goes where its [camis] puts
    it. *)
Theorem scan_keeps_rowid_order (fuel : nat) (w w' : world) (o : outcome unit) :
  rowid_order (disk (nycdb w)) ->
  rowid_order (view (nycdb w)) ->
  load_new_data fuel w = Some (o, w') ->
  rowid_order (disk (nycdb w')) /\ rowid_order (view (nycdb w')).
Proof.
  intros Hd Hv H.
  apply (scan_invariant rowid_order resolves_rowid_order _ _ _ _ _ Hd Hv H).
Qed.

Lemma scan_keeps_rowid_order_witness :
  rowid_order (disk (nycdb mixed_world))
  /\ rowid_order (view (nycdb mixed_world))
  /\ load_new_data 64 mixed_world = Some (Return tt, mixed_world_scanned)
  /\ rowid_order (disk (nycdb mixed_world_scanned))
  /\ rowid_order (view (nycdb mixed_world_scanned)).
Proof.
  split; [exact rowid_order_sample|]. split; [exact rowid_order_sample|].
  split; [exact mixed_world_scan|].
  exact (scan_keeps_rowid_order 64 mixed_world mixed_world_scanned (Return tt)
           rowid_order_sample rowid_order_sample mixed_world_scan).
Defined.

(** * Loads that fail and loads that return *)

Lemma load_nyc_file_returns (fuel : nat) (fs : filesystem) (file_path : string)
    (db db' : NYCDB) (columns : list string) (df : list csv_row)
    (records : list (csv_row * string)) :
  read_csv fs file_path = DataFrame columns df ->
  add_insp_time fuel df = Some records ->
  load_nyc_file fuel fs file_path db = Some (Return tt, db') ->
  exists dbm,
    for_each load_row_all records db = (Return tt, dbm)
    /\ db' = mk_db (view dbm) closed_conn.
Proof.
  intros Hread Ht. unfold load_nyc_file. rewrite Hread, Ht.
  intros H; injection H as H. revert H. unfold bind at 1.
  destruct (for_each (load_row columns) records db) as [[[]|e] dbm] eqn:E;
    [|discriminate].
  intros H. apply commit_close_returns in H. destruct H as [-> _].
  exists dbm. split; [|reflexivity].
  destruct records as [|record records]; [exact E|].
  rewrite <- (for_each_complete columns); [exact E|].
  eapply for_each_returns_complete; [|exact E]. discriminate.
Qed.

Lemma add_insp_time_rows (fuel : nat) (df : list csv_row)
    (records : list (csv_row * string)) :
  add_insp_time fuel df = Some records -> map fst records = df.
Proof.
  unfold add_insp_time.
  destruct (insp_times fuel (List.length df)) as [t|] eqn:E; [|discriminate].
  intros H; injection H as <-. apply insp_times_range in E.
  destruct E as [L _]. apply combine_fst. congruence.
Qed.

(** With sixteen words for each draw the times of a frame of at most a
    hundred rows are there. *)
Lemma add_insp_time_total (fuel : nat) (df : list csv_row) :
  (16 <= fuel)%nat -> (List.length df <= 100)%nat ->
  exists records, add_insp_time fuel df = Some records.
Proof.
  intros Hf Hr. destruct (insp_times_total fuel _ Hf Hr) as [t Ht].
  exists (combine df t). unfold add_insp_time. rewrite Ht. reflexivity.
Qed.

(** X5.  A load that raises persists nothing: whatever the row and the
    call that failed, the committed store is what it was before the
    load.  The rows the load had written are dropped with the
    transaction when an INSERT failed; after any other failure the
    connection sees the committed store, or what it saw before the
    load, with rows added. *)
Theorem failed_load_persists_nothing (fuel : nat) (fs : filesystem)
    (file_path : string) (db db' : NYCDB) (e : exn) :
  load_nyc_file fuel fs file_path db = Some (Raise e, db') ->
  disk db' = disk db
  /\ (only_added (disk db) (view db') \/ only_added (view db) (view db')).
Proof.
  intros H. apply load_nyc_file_outcome in H. destruct H as [[D V] _].
  split; [exact D|].
  destruct V as [V | V]; [left | right]; apply resolves_star_only_added, V.
Qed.

Lemma failed_load_persists_nothing_witness :
  load_nyc_file 64 mixed_files "data/to_load/nyc_a.csv"
                (mk_db sample_store closed_conn)
  = Some (Raise (mk_exn OverflowError (query_params "tRest")), pending_db)
  /\ disk pending_db = sample_store
  /\ (only_added sample_store (view pending_db)
      \/ only_added sample_store (view pending_db)).
Proof.
  assert (H : load_nyc_file 64 mixed_files "data/to_load/nyc_a.csv"
                (mk_db sample_store closed_conn)
              = Some (Raise (mk_exn OverflowError (query_params "tRest")),
                      pending_db))
    by (vm_compute; reflexivity).
  split; [exact H|].
  exact (failed_load_persists_nothing 64 mixed_files "data/to_load/nyc_a.csv"
           (mk_db sample_store closed_conn) pending_db _ H).
Defined.

(** X6.  A load that returns has stored the whole file: for every row of
    the frame, with the time it was given, the committed store holds a
    cuisine and an action with its descriptions, a violation with its
    code, a restaurant with its identifier and an inspection with its
    key. *)
Theorem loaded_file_is_stored (fuel : nat) (fs : filesystem)
    (file_path : string) (db db' : NYCDB) (columns : list string)
    (df : list csv_row) (records : list (csv_row * string)) :
  read_csv fs file_path = DataFrame columns df ->
  add_insp_time fuel df = Some records ->
  load_nyc_file fuel fs file_path db = Some (Return tt, db') ->
  map fst records = df /\ Forall (resolved (disk db')) records.
Proof.
  intros Hread Ht H. split; [apply (add_insp_time_rows _ _ _ Ht)|].
  destruct (load_nyc_file_returns _ _ _ _ _ _ _ _ Hread Ht H) as (dbm & E & ->).
  apply for_each_returns in E. apply E.
Qed.

Lemma loaded_file_is_stored_witness :
  let records := [(sample_row, "13:25:54"%string)] in
  let loaded := mk_db sample_store closed_conn in
  read_csv sample_files "data/to_load/nyc_b.csv"
  = DataFrame all_columns [sample_row]
  /\ add_insp_time 64 [sample_row] = Some records
  /\ load_nyc_file 64 sample_files "data/to_load/nyc_b.csv" new_db
     = Some (Return tt, loaded)
  /\ map fst records = [sample_row]
  /\ Forall (resolved (disk loaded)) records.
Proof.
  intros records loaded.
  assert (H1 : read_csv sample_files "data/to_load/nyc_b.csv"
               = DataFrame all_columns [sample_row]) by reflexivity.
  assert (H2 : add_insp_time 64 [sample_row] = Some records)
    by (vm_compute; reflexivity).
  assert (H3 : load_nyc_file 64 sample_files "data/to_load/nyc_b.csv" new_db
               = Some (Return tt, loaded)) by (vm_compute; reflexivity).
  split; [exact H1|]. split; [exact H2|]. split; [exact H3|].
  exact (loaded_file_is_stored 64 sample_files "data/to_load/nyc_b.csv" new_db
           loaded all_columns [sample_row] records H1 H2 H3).
Defined.

(** * Rows with a missing cell *)

Lemma missing_key_unresolved (s : store) (row : csv_row) (t : string) :
  CAMIS row = None \/ cuisine_desc row = None \/ action_desc row = None
  \/ viol_id row = None \/ insp_date row = None ->
  ~ resolved s (row, t).
Proof.
  intros Hmiss (H1 & H2 & H3 & H4 & H5).
  destruct Hmiss as [E | [E | [E | [E | E]]]]; rewrite E in *.
  - apply H4. reflexivity.
  - apply H1. reflexivity.
  - apply H2. reflexivity.
  - apply H3. reflexivity.
  - apply H5. destruct (CAMIS row); reflexivity.
Qed.

(** X7.  One row with an empty identifier, cuisine, action, violation
    code or date makes the whole file fail.  For a frame of at most a
    hundred rows and a bound of sixteen words or more on each draw,
    [load_nyc_file] raises, with [IntegrityError], [OperationalError],
    [OverflowError] or [KeyError], and nothing of the file is
    persisted. *)
Theorem file_with_missing_key_never_loads (fuel : nat) (fs : filesystem)
    (file_path : string) (db : NYCDB) (columns : list string)
    (df : list csv_row) (row : csv_row) :
  read_csv fs file_path = DataFrame columns df ->
  (List.length df <= 100)%nat ->
  (16 <= fuel)%nat ->
  In row df ->
  CAMIS row = None \/ cuisine_desc row = None \/ action_desc row = None
  \/ viol_id row = None \/ insp_date row = None ->
  exists e db',
    load_nyc_file fuel fs file_path db = Some (Raise e, db')
    /\ pipeline_class (exn_class e)
    /\ disk db' = disk db.
Proof.
  intros Hread Hrows Hfuel Hin Hmiss.
  destruct (add_insp_time_total fuel df Hfuel Hrows) as [records Ht].
  pose proof (add_insp_time_rows _ _ _ Ht) as Hfst.
  unfold load_nyc_file. rewrite Hread, Ht. unfold bind at 1.
  destruct (well_behaved_for_each columns records db) as [[D _] P].
  destruct (for_each (load_row columns) records db) as [[[]|e] dbm] eqn:E.
  - exfalso. rewrite <- Hfst in Hin. apply in_map_iff in Hin.
    destruct Hin as ([row' t] & Hrow & Hin). simpl in Hrow. subst row'.
    assert (Hne : records <> []) by (intros ->; exact Hin).
    rewrite for_each_complete in E
      by (eapply for_each_returns_complete; [exact Hne | exact E]).
    apply for_each_returns in E. destruct E as (_ & _ & HF & _).
    rewrite Forall_forall in HF.
    apply (missing_key_unresolved _ _ _ Hmiss (HF _ Hin)).
  - exists e, dbm. split; [reflexivity|]. split; [|exact D].
    apply P. reflexivity.
Qed.

Lemma file_with_missing_key_never_loads_witness :
  read_csv files_with_bad_row "data/to_load/nyc_c.csv"
  = DataFrame all_columns [sample_row; row_without_violation]
  /\ (List.length [sample_row; row_without_violation] <= 100)%nat
  /\ (16 <= 64)%nat
  /\ In row_without_violation [sample_row; row_without_violation]
  /\ viol_id row_without_violation = None
  /\ exists e db',
       load_nyc_file 64 files_with_bad_row "data/to_load/nyc_c.csv"
                     (mk_db sample_store closed_conn)
       = Some (Raise e, db')
       /\ pipeline_class (exn_class e)
       /\ disk db' = sample_store.
Proof.
  assert (Hrows : (List.length [sample_row; row_without_violation] <= 100)%nat)
    by (simpl; lia).
  assert (Hfuel : (16 <= 64)%nat) by lia.
  assert (Hin : In row_without_violation [sample_row; row_without_violation])
    by (right; left; reflexivity).
  split; [reflexivity|]. split; [exact Hrows|]. split; [exact Hfuel|].
  split; [exact Hin|]. split; [reflexivity|].
  exact (file_with_missing_key_never_loads 64 files_with_bad_row
           "data/to_load/nyc_c.csv" (mk_db sample_store closed_conn)
           all_columns [sample_row; row_without_violation]
           row_without_violation eq_refl Hrows Hfuel Hin
           (or_intror (or_intror (or_intror (or_introl eq_refl))))).
Defined.

Lemma has_text_select (v : string) (s : store) :
  has_text v fst (tViol s) = false <-> SELECT_tViol (Some v) s = [].
Proof.
  split.
  - apply has_text_filter.
  - intros H. unfold has_text. destruct (existsb _ _) eqn:E; [|reflexivity].
    apply existsb_exists in E. destruct E as (r & Hin & Hr).
    exfalso. apply (filter_nonempty (fun r => String.eqb (fst r) v) _ _ Hin Hr).
    exact H.
Qed.

(** X8.  A row without a violation description goes through [load_viol]
    exactly when its code is already in [tViol]: the call then returns
    without a write; for a new code it raises [IntegrityError], rolls
    back and closes. *)
Theorem load_viol_without_description (v : string) (db : NYCDB) :
  load_viol (Some v) None db
  = if has_text v fst (tViol (view db))
    then (Return tt, connected db)
    else (Raise (mk_exn IntegrityError
                   (sql_params (INSERT_tViol (Some v) None))),
          mk_db (disk db) closed_conn).
Proof.
  rewrite load_viol_eq. unfold insert_if_absent.
  destruct (has_text v fst (tViol (view db))) eqn:K.
  - destruct (SELECT_tViol (Some v) (view db)) eqn:Q; [|reflexivity].
    apply has_text_select in Q. congruence.
  - apply has_text_select in K. rewrite K. reflexivity.
Qed.

(** X9.  The first row of a restaurant wins: when [tRest] holds a row
    with the identifier, [load_rest] returns without a write whatever
    the other values are, an empty name or a cuisine that does not
    exist included. *)
Theorem load_rest_existing_camis (camis : Z)
    (dba boro building street : option string) (zip phone : option Z)
    (cuisine_id : Z) (db : NYCDB) (r : rest_row) :
  In r (tRest (view db)) ->
  r_camis r = camis ->
  load_rest (Some camis) dba boro building street zip phone cuisine_id db
  = (Return tt, connected db).
Proof.
  intros Hin Hk. apply load_rest_found. unfold SELECT_tRest.
  apply (filter_nonempty _ _ r Hin). subst camis. apply Z.eqb_refl.
Qed.

Lemma load_rest_existing_camis_witness :
  let db := mk_db sample_store closed_conn in
  let stored :=
    mk_rest 41 "CAFE" "Queens" "1" "Main St" (Some 11101) None 1 eq_refl in
  In stored (tRest (view db))
  /\ r_camis stored = 41
  /\ load_rest (Some 41) None (Some "Bronx"%string) None None None None 99 db
     = (Return tt, connected db).
Proof.
  intros db stored.
  assert (Hin : In stored (tRest (view db))) by (left; reflexivity).
  split; [exact Hin|]. split; [reflexivity|].
  exact (load_rest_existing_camis 41 None (Some "Bronx"%string) None None None
           None 99 db stored Hin eq_refl).
Defined.

(** * Identifiers and descriptions *)

(** X10.  The identifier that [get_cuisine] or [get_action] returns is
    the identifier of a row of its table that holds the description
    asked for; a call with an empty description never returns. *)
Theorem resolved_identifier_has_description
    (resolve : option string -> M Z) (table : store -> list (Z * string))
    (key : option string) (id : Z) (db db' : NYCDB) :
  (resolve = get_cuisine /\ table = tCuisine)
  \/ (resolve = get_action /\ table = tAction) ->
  resolve key db = (Return id, db') ->
  exists description,
    key = Some description /\ In (id, description) (table (view db')).
Proof.
  intros [[-> ->] | [-> ->]] H.
  - apply get_cuisine_returns in H. destruct H as [_ [more Q]].
    destruct key as [d|]; [|discriminate]. exists d. split; [reflexivity|].
    simpl in Q.
    assert (Hin : In id (map fst (filter (fun r => String.eqb (snd r) d)
                                         (tCuisine (view db')))))
      by (rewrite Q; left; reflexivity).
    apply in_map_iff in Hin. destruct Hin as ([id' d'] & Hid & Hin).
    apply filter_In in Hin. destruct Hin as [Hin Hd]. simpl in *.
    apply String.eqb_eq in Hd. subst. exact Hin.
  - apply get_action_returns in H. destruct H as [_ [more Q]].
    destruct key as [d|]; [|discriminate]. exists d. split; [reflexivity|].
    simpl in Q.
    assert (Hin : In id (map fst (filter (fun r => String.eqb (snd r) d)
                                         (tAction (view db')))))
      by (rewrite Q; left; reflexivity).
    apply in_map_iff in Hin. destruct Hin as ([id' d'] & Hid & Hin).
    apply filter_In in Hin. destruct Hin as [Hin Hd]. simpl in *.
    apply String.eqb_eq in Hd. subst. exact Hin.
Qed.

Lemma resolved_identifier_has_description_witness :
  let db' := mk_db empty_store
               (open_conn (with_tAction empty_store
                             [(1, "Violations were cited"%string)] 1)) in
  get_action (Some "Violations were cited"%string) new_db = (Return 1, db')
  /\ exists description,
       Some "Violations were cited"%string = Some description
       /\ In (1, description) (tAction (view db')).
Proof.
  intros db'.
  assert (H : get_action (Some "Violations were cited"%string) new_db
              = (Return 1, db')) by reflexivity.
  split; [exact H|].
  exact (resolved_identifier_has_description get_action tAction _ 1 new_db db'
           (or_intror (conj eq_refl eq_refl)) H).
Defined.

(** * Rows left pending by a failed load *)

(** X23.  A load that returns commits everything its connection saw when
    it began.  A load that failed before it with the connection left
    open, on a missing column or on an identifier beyond 64 bits, has
    its first writes persisted by that commit: the committed store is
    what the connection saw, with rows added, and the connection is
    closed. *)
Theorem load_commits_pending_rows (fuel : nat) (fs : filesystem)
    (file_path : string) (db db' : NYCDB) :
  load_nyc_file fuel fs file_path db = Some (Return tt, db') ->
  conn db' = closed_conn /\ only_added (view db) (disk db').
Proof.
  intros H. pose proof (load_nyc_file_steps _ _ _ _ _ H) as S.
  apply load_nyc_file_outcome in H. destruct H as (dbm & _ & ->).
  split; [reflexivity|].
  change (view dbm) with (view (mk_db (view dbm) closed_conn)).
  clear - S. induction S as [db | db db1 db2 S1 _ IH]; [apply only_added_refl|].
  eapply only_added_trans; [|exact IH].
  apply resolves_only_added, step_resolves, S1.
Qed.

Lemma load_commits_pending_rows_witness :
  load_nyc_file 64 mixed_files "data/to_load/nyc_c.csv" pending_db
  = Some (Return tt, mk_db mixed_store closed_conn)
  /\ conn (mk_db mixed_store closed_conn) = closed_conn
  /\ only_added pending_store mixed_store.
Proof.
  assert (H : load_nyc_file 64 mixed_files "data/to_load/nyc_c.csv" pending_db
              = Some (Return tt, mk_db mixed_store closed_conn))
    by (vm_compute; reflexivity).
  split; [exact H|].
  exact (load_commits_pending_rows 64 mixed_files "data/to_load/nyc_c.csv"
           pending_db (mk_db mixed_store closed_conn) H).
Defined.

(** * The times of a file that grew *)

(** X11.  The times given to the rows always pass the CHECK of the
    [insp_time] column: no load fails on the format of a synthesized
    time. *)
Theorem synthesized_times_pass_check (fuel : nat) (df : list csv_row)
    (records : list (csv_row * string)) :
  add_insp_time fuel df = Some records ->
  Forall (fun record => LIKE (snd record) "__:__:__" = true) records.
Proof.
  unfold add_insp_time.
  destruct (insp_times fuel (List.length df)) as [t|] eqn:E; [|discriminate].
  intros H; injection H as <-. apply insp_times_range in E.
  destruct E as [L F]. apply Forall_forall. intros [row time] Hin.
  apply in_combine_r in Hin. rewrite Forall_forall in F.
  apply synthesized_time_passes_check, F, Hin.
Qed.

Lemma synthesized_times_pass_check_witness :
  add_insp_time 64 [sample_row; second_row]
  = Some [(sample_row, "13:03:23"%string); (second_row, "15:19:39"%string)]
  /\ Forall (fun record => LIKE (snd record) "__:__:__" = true)
            [(sample_row, "13:03:23"%string); (second_row, "15:19:39"%string)].
Proof.
  assert (H : add_insp_time 64 [sample_row; second_row]
              = Some [(sample_row, "13:03:23"%string);
                      (second_row, "15:19:39"%string)])
    by (vm_compute; reflexivity).
  split; [exact H|].
  exact (synthesized_times_pass_check 64 [sample_row; second_row] _ H).
Defined.

Lemma insp_times_known (fuel rows : nat) (t known : list string) :
  insp_times 64 rows = Some known ->
  insp_times fuel rows = Some t ->
  t = known.
Proof.
  intros K H. destruct (Nat.le_ge_cases fuel 64) as [Hle | Hge].
  - rewrite (insp_times_fuel _ _ _ _ Hle H) in K. congruence.
  - rewrite (insp_times_fuel _ _ _ _ Hge K) in H. congruence.
Qed.

Lemma select_insp_row (camis : option Z) (d v : option string) (t : string)
    (s : store) :
  SELECT_tInsp camis d (Some t) v s <> [] ->
  exists r,
    In r (tInsp s)
    /\ Some (i_camis r) = camis
    /\ Some (i_insp_date r) = d
    /\ i_insp_time r = t
    /\ Some (i_viol_id r) = v.
Proof.
  unfold SELECT_tInsp.
  destruct camis as [camis|], d as [d|], v as [v|]; try contradiction.
  intros H. destruct (filter _ _) as [|r more] eqn:Q; [contradiction|].
  assert (Hin : In r (filter (same_insp_key camis d t v) (tInsp s)))
    by (rewrite Q; left; reflexivity).
  apply filter_In in Hin. destruct Hin as [Hin Hk]. unfold same_insp_key in Hk.
  apply andb_prop in Hk. destruct Hk as [Hk H4].
  apply andb_prop in Hk. destruct Hk as [Hk H3].
  apply andb_prop in Hk. destruct Hk as [H1 H2].
  apply Z.eqb_eq in H1. apply String.eqb_eq in H2, H3, H4.
  exists r. repeat split; congruence.
Qed.

Lemma closed_view (db : NYCDB) : conn db = closed_conn -> view db = disk db.
Proof. unfold view. intros ->. reflexivity. Qed.

(** X12.  Deduplication does not survive a file that grows.  When a file
    of one row has been loaded and a file that holds the same row
    followed by another is loaded next, the row gets 13:03:23 where it
    had 13:25:54, its inspection is not recognised, and the committed
    store ends with two inspections of the same restaurant, date and
    violation. *)
Theorem grown_file_duplicates_inspection (fuel : nat) (fs : filesystem)
    (first_path second_path : string) (columns1 columns2 : list string)
    (row other : csv_row) (db db1 db2 : NYCDB) :
  read_csv fs first_path = DataFrame columns1 [row] ->
  read_csv fs second_path = DataFrame columns2 [row; other] ->
  load_nyc_file fuel fs first_path db = Some (Return tt, db1) ->
  load_nyc_file fuel fs second_path db1 = Some (Return tt, db2) ->
  exists r1 r2,
    In r1 (tInsp (disk db2)) /\ In r2 (tInsp (disk db2))
    /\ Some (i_camis r1) = CAMIS row /\ Some (i_camis r2) = CAMIS row
    /\ Some (i_insp_date r1) = insp_date row
    /\ Some (i_insp_date r2) = insp_date row
    /\ Some (i_viol_id r1) = viol_id row
    /\ Some (i_viol_id r2) = viol_id row
    /\ i_insp_time r1 = "13:25:54"%string
    /\ i_insp_time r2 = "13:03:23"%string.
Proof.
  intros R1 R2 L1 L2.
  assert (T1 : add_insp_time fuel [row] = Some [(row, "13:25:54"%string)]).
  { revert L1. unfold load_nyc_file. rewrite R1. unfold add_insp_time.
    destruct (insp_times fuel (List.length [row])) as [t|] eqn:E;
      [|discriminate].
    intros _. rewrite (insp_times_known fuel 1 t ["13:25:54"%string]);
      [reflexivity | vm_compute; reflexivity | exact E]. }
  assert (T2 : add_insp_time fuel [row; other]
               = Some [(row, "13:03:23"%string); (other, "15:19:39"%string)]).
  { revert L2. unfold load_nyc_file. rewrite R2. unfold add_insp_time.
    destruct (insp_times fuel (List.length [row; other])) as [t|] eqn:E;
      [|discriminate].
    intros _.
    rewrite (insp_times_known fuel 2 t ["13:03:23"%string; "15:19:39"%string]);
      [reflexivity | vm_compute; reflexivity | exact E]. }
  destruct (load_nyc_file_returns _ _ _ _ _ _ _ _ R1 T1 L1) as (m1 & E1 & D1).
  destruct (load_nyc_file_returns _ _ _ _ _ _ _ _ R2 T2 L2) as (m2 & E2 & D2).
  apply for_each_returns in E1. destruct E1 as (_ & _ & F1 & _).
  apply for_each_returns in E2. destruct E2 as (_ & G2 & F2 & _).
  apply Forall_inv in F1. unfold resolved in F1.
  destruct F1 as (_ & _ & _ & _ & Q1).
  apply Forall_inv in F2. unfold resolved in F2.
  destruct F2 as (_ & _ & _ & _ & Q2).
  subst db1 db2. simpl in G2. destruct G2 as (_ & _ & _ & _ & G2).
  destruct (G2 (CAMIS row) (insp_date row) (Some "13:25:54"%string)
              (viol_id row)) as [more Q1'].
  assert (Q1'' : SELECT_tInsp (CAMIS row) (insp_date row)
                   (Some "13:25:54"%string) (viol_id row) (view m2) <> [])
    by (rewrite Q1'; apply nonempty_app; exact Q1).
  destruct (select_insp_row _ _ _ _ _ Q1'') as (r1 & I1 & A1 & B1 & C1 & V1).
  destruct (select_insp_row _ _ _ _ _ Q2) as (r2 & I2 & A2 & B2 & C2 & V2).
  exists r1, r2. simpl. repeat split; assumption.
Qed.

Lemma grown_file_duplicates_inspection_witness :
  let db1 := mk_db sample_store closed_conn in
  let db2 := mk_db grown_store closed_conn in
  read_csv grown_files "data/to_load/nyc_1.csv"
  = DataFrame all_columns [sample_row]
  /\ read_csv grown_files "data/to_load/nyc_2.csv"
     = DataFrame all_columns [sample_row; second_row]
  /\ load_nyc_file 64 grown_files "data/to_load/nyc_1.csv" new_db
     = Some (Return tt, db1)
  /\ load_nyc_file 64 grown_files "data/to_load/nyc_2.csv" db1
     = Some (Return tt, db2)
  /\ exists r1 r2,
       In r1 (tInsp (disk db2)) /\ In r2 (tInsp (disk db2))
       /\ Some (i_camis r1) = CAMIS sample_row
       /\ Some (i_camis r2) = CAMIS sample_row
       /\ Some (i_insp_date r1) = insp_date sample_row
       /\ Some (i_insp_date r2) = insp_date sample_row
       /\ Some (i_viol_id r1) = viol_id sample_row
       /\ Some (i_viol_id r2) = viol_id sample_row
       /\ i_insp_time r1 = "13:25:54"%string
       /\ i_insp_time r2 = "13:03:23"%string.
Proof.
  intros db1 db2.
  assert (L1 : load_nyc_file 64 grown_files "data/to_load/nyc_1.csv" new_db
               = Some (Return tt, db1)) by (vm_compute; reflexivity).
  assert (L2 : load_nyc_file 64 grown_files "data/to_load/nyc_2.csv" db1
               = Some (Return tt, db2)) by (vm_compute; reflexivity).
  split; [reflexivity|]. split; [reflexivity|].
  split; [exact L1|]. split; [exact L2|].
  exact (grown_file_duplicates_inspection 64 grown_files
           "data/to_load/nyc_1.csv" "data/to_load/nyc_2.csv"
           all_columns all_columns sample_row second_row new_db db1 db2
           eq_refl eq_refl L1 L2).
Defined.

(** * The gateway with [keep_open] off *)

(** X13.  With [keep_open] off the gateway closes the connection without
    a commit.  [run_action] is then [run_action] with [keep_open] on
    followed by [_close]: it returns the rowid of the row its INSERT
    made, the hidden rowid for [tViol] and [tInsp], or raises for a
    failed one, and in both cases leaves the object closed on the
    committed store, so that the row it reported is not persisted and
    whatever the transaction held is gone.  [run_query] returns the rows
    the transaction saw, or raises when a parameter does not bind, and
    drops the transaction in the same way. *)
Theorem keep_open_off_discards_writes (sql : action_sql) (db : NYCDB) :
  run_action sql false db
  = (lastrowid <- run_action sql true ;; _close ;;; ret lastrowid) db
  /\ run_action sql false db
     = (match execute sql (view db) with
        | inl e => Raise (raised (class_of e) (sql_params sql))
        | inr (_, lastrowid) => Return lastrowid
        end,
        mk_db (disk db) closed_conn)
  /\ forall (A : Type) (query : query_sql A),
       run_query query false db
       = (match query with
          | bound_query rows => Return (rows (view db))
          | unbound_query table b =>
              Raise (raised (class_of (not_bound b)) (query_params table))
          end,
          mk_db (disk db) closed_conn).
Proof.
  assert (E : run_action sql false db
              = (match execute sql (view db) with
                 | inl e => Raise (raised (class_of e) (sql_params sql))
                 | inr (_, lastrowid) => Return lastrowid
                 end,
                 mk_db (disk db) closed_conn)).
  { destruct (execute sql (view db)) as [e | [txn r]] eqn:E.
    - apply run_action_raises, E.
    - unfold run_action, bind. rewrite connect_eq, view_connected, E.
      reflexivity. }
  split; [|split; [exact E|]].
  - rewrite E. unfold bind at 1. rewrite run_action_keep_open.
    destruct (execute sql (view db)) as [e | [txn r]]; reflexivity.
  - intros A [rows | table b]; unfold run_query, bind; rewrite connect_eq;
      reflexivity.
Qed.

(** The row of [tViol] that [run_action] reports, the second of the
    table, is lost with the cuisine the transaction held. *)
Example keep_open_off_loses_reported_row :
  let committed := with_tViol empty_store
                     [("04L"%string, "Evidence of mice"%string)] in
  let pending := with_tCuisine committed [(1, "Thai"%string)] 1 in
  run_action (INSERT_tViol (Some "10F"%string)
                (Some "Non-food contact surface"%string))
             false (mk_db committed (open_conn pending))
  = (Return 2, mk_db committed closed_conn).
Proof. reflexivity. Qed.

(** * Which files a scan loads *)

Lemma decodable_sample : decodable (files sample_world).
Proof.
  intros path c [H | [H | []]]; inversion H; subst; split; discriminate.
Qed.

Lemma decodable_mixed : decodable (files mixed_world).
Proof.
  intros path c [H | [H | [H | []]]]; inversion H; subst; split; discriminate.
Qed.

Lemma small_frames_mixed : small_frames (files mixed_world).
Proof.
  intros path columns df [H | [H | [H | []]]]; inversion H; subst; simpl; lia.
Qed.

Lemma os_rename_small_frames (src dst : string) (fs fs' : filesystem) :
  small_frames fs -> os_rename src dst fs = Return fs' -> small_frames fs'.
Proof.
  intros Hfs. unfold os_rename.
  destruct (lookup_file src fs) as [f|] eqn:L; [|discriminate].
  destruct (String.eqb src dst).
  - intros H; injection H as <-. exact Hfs.
  - intros H; injection H as <-. intros path columns df Hin.
    apply in_app_or in Hin. destruct Hin as [Hin | [Hin | []]].
    + unfold remove_file in Hin. apply filter_In in Hin. destruct Hin as [Hin _].
      apply filter_In in Hin. destruct Hin as [Hin _]. eapply Hfs, Hin.
    + injection Hin as _ ->. apply lookup_file_In in L. eapply Hfs, L.
Qed.

(** A load of a directory of small frames ends. *)
Lemma load_nyc_file_total (fuel : nat) (fs : filesystem) (file_path : string)
    (db : NYCDB) :
  small_frames fs -> (16 <= fuel)%nat ->
  exists r, load_nyc_file fuel fs file_path db = Some r.
Proof.
  intros Hfs Hfuel. unfold load_nyc_file.
  destruct (read_csv fs file_path) as [columns df | c] eqn:R;
    [|eexists; reflexivity].
  assert (Hrows : (List.length df <= 100)%nat).
  { unfold read_csv in R.
    destruct (lookup_file file_path fs) as [f|] eqn:L; [|discriminate].
    subst f. apply lookup_file_In in L. eapply Hfs, L. }
  destruct (add_insp_time_total fuel df Hfuel Hrows) as [records ->].
  eexists; reflexivity.
Qed.

Lemma scan_total (fuel : nat) (paths : list string) (w : world) :
  small_frames (files w) -> (16 <= fuel)%nat ->
  exists r, scan fuel paths w = Some r.
Proof.
  intros Hfs Hfuel. revert w Hfs.
  induction paths as [|file paths IH]; intros w Hfs.
  - eexists; reflexivity.
  - cbn [scan].
    destruct (load_nyc_file_total fuel (files w) file (nycdb w) Hfs Hfuel)
      as [[o db'] ->].
    destruct o as [[]|e].
    + destruct (os_rename file _ (files w)) as [fs'|e] eqn:R.
      * apply IH. simpl. eapply os_rename_small_frames; eauto.
      * destruct (handler e file); [apply IH; exact Hfs | eexists; reflexivity].
    + destruct (handler e file); [apply IH; exact Hfs | eexists; reflexivity].
Qed.

(** X14.  When no file of the intake directory is one that pandas
    rejects as undecodable, [load_new_data] returns, whatever else fails
    in the files, after announcing every matching file in the order of
    the directory.  The frames have at most a hundred rows and each
    draw has sixteen words or more. *)
Theorem scan_returns_when_decodable (fuel : nat) (w : world) :
  decodable (files w) ->
  small_frames (files w) ->
  (16 <= fuel)%nat ->
  exists w',
    load_new_data fuel w = Some (Return tt, w')
    /\ stdout w'
       = stdout w ++ map (String.append "Loading ") (glob_to_load (files w)).
Proof.
  intros Hfs Hsmall Hfuel. unfold load_new_data.
  destruct (scan_total fuel (glob_to_load (files w)) w Hsmall Hfuel) as [r H].
  destruct (scan_isolates_failures _ _ _ _ Hfs H) as (w' & -> & Hout).
  exists w'. split; [exact H | exact Hout].
Qed.

Lemma scan_returns_when_decodable_witness :
  decodable (files mixed_world)
  /\ small_frames (files mixed_world)
  /\ (16 <= 64)%nat
  /\ exists w',
       load_new_data 64 mixed_world = Some (Return tt, w')
       /\ stdout w'
          = stdout mixed_world
            ++ map (String.append "Loading ")
                   (glob_to_load (files mixed_world)).
Proof.
  assert (Hfuel : (16 <= 64)%nat) by lia.
  split; [exact decodable_mixed|]. split; [exact small_frames_mixed|].
  split; [exact Hfuel|].
  exact (scan_returns_when_decodable 64 mixed_world decodable_mixed
           small_frames_mixed Hfuel).
Defined.

(** * Renaming files *)

Lemma lookup_remove_file (p q : string) (fs : filesystem) :
  lookup_file p (remove_file q fs)
  = if String.eqb q p then None else lookup_file p fs.
Proof.
  induction fs as [|[x f] fs IH]; simpl.
  - destruct (String.eqb q p); reflexivity.
  - destruct (String.eqb_spec x q) as [->|Hxq]; simpl.
    + rewrite IH. destruct (String.eqb q p); reflexivity.
    + rewrite IH. destruct (String.eqb_spec x p) as [->|Hxp].
      * destruct (String.eqb_spec q p) as [->|_]; [contradiction | reflexivity].
      * reflexivity.
Qed.

Lemma lookup_snoc (p d : string) (f : read_csv_result) (fs : filesystem) :
  lookup_file p (fs ++ [(d, f)])
  = match lookup_file p fs with
    | Some g => Some g
    | None => if String.eqb d p then Some f else None
    end.
Proof.
  induction fs as [|[x g] fs IH]; simpl; [reflexivity|].
  destruct (String.eqb x p); [reflexivity | exact IH].
Qed.

(** What a path holds after [os.rename]. *)
Lemma os_rename_lookup (src dst : string) (fs fs' : filesystem) (p : string) :
  os_rename src dst fs = Return fs' ->
  src <> dst ->
  lookup_file p fs'
  = if String.eqb dst p then lookup_file src fs
    else if String.eqb src p then None
    else lookup_file p fs.
Proof.
  unfold os_rename. destruct (lookup_file src fs) as [f|] eqn:L; [|discriminate].
  destruct (String.eqb_spec src dst) as [E|_]; [contradiction|].
  intros H _. injection H as <-.
  rewrite lookup_snoc, !lookup_remove_file.
  destruct (String.eqb dst p); [reflexivity|].
  destruct (String.eqb src p); [reflexivity|].
  destruct (lookup_file p fs); reflexivity.
Qed.

Lemma os_rename_returns (src dst : string) (fs : filesystem)
    (f : read_csv_result) :
  lookup_file src fs = Some f -> exists fs', os_rename src dst fs = Return fs'.
Proof.
  intros L. unfold os_rename. rewrite L.
  destruct (String.eqb src dst); eexists; reflexivity.
Qed.

Lemma os_rename_source (src dst : string) (fs fs' : filesystem) :
  os_rename src dst fs = Return fs' -> exists f, lookup_file src fs = Some f.
Proof.
  unfold os_rename. destruct (lookup_file src fs) as [f|]; [|discriminate].
  intros _. exists f. reflexivity.
Qed.

Lemma strip_prefix_append (pre s rest : string) :
  strip_prefix pre s = Some rest -> s = String.append pre rest.
Proof.
  revert s. induction pre as [|p pre IH]; intros s; simpl.
  - intros H; injection H as ->. reflexivity.
  - destruct s as [|c s]; [discriminate|].
    destruct (Ascii.eqb_spec p c) as [->|_]; [|discriminate].
    intros H. rewrite (IH _ H). reflexivity.
Qed.

(** The paths that [glob] returns. *)
Lemma glob_to_load_path (fs : filesystem) (path : string) :
  In path (glob_to_load fs) ->
  In path (map fst fs)
  /\ exists name,
       path = String.append PATH_TO_LOAD name /\ is_file_name name = true.
Proof.
  unfold glob_to_load. intros H. apply filter_In in H. destruct H as [Hin H].
  split; [exact Hin|].
  destruct (strip_prefix PATH_TO_LOAD path) as [name|] eqn:S; [|discriminate].
  apply andb_prop in H. destruct H as [Hn _].
  exists name. split; [apply strip_prefix_append, S | exact Hn].
Qed.

Lemma glob_loaded_path (fs : filesystem) (path : string) :
  In path (glob_loaded fs) ->
  In path (map fst fs)
  /\ exists name,
       path = String.append PATH_LOADED name /\ is_file_name name = true.
Proof.
  unfold glob_loaded. intros H. apply filter_In in H. destruct H as [Hin H].
  split; [exact Hin|].
  destruct (strip_prefix PATH_LOADED path) as [name|] eqn:S; [|discriminate].
  apply andb_prop in H. destruct H as [Hn _].
  exists name. split; [apply strip_prefix_append, S | exact Hn].
Qed.

Lemma intake_is_not_archive (a b : string) :
  String.append PATH_TO_LOAD a <> String.append PATH_LOADED b.
Proof. unfold PATH_TO_LOAD, PATH_LOADED. simpl. discriminate. Qed.

Lemma archive_name (a b : string) :
  String.append PATH_LOADED a = String.append PATH_LOADED b -> a = b.
Proof. unfold PATH_LOADED. simpl. intros H. injection H as ->. reflexivity. Qed.

Lemma intake_name (a b : string) :
  String.append PATH_TO_LOAD a = String.append PATH_TO_LOAD b -> a = b.
Proof. unfold PATH_TO_LOAD. simpl. intros H. injection H as ->. reflexivity. Qed.

Lemma eqb_neq (a b : string) : a <> b -> String.eqb a b = false.
Proof. intros H. destruct (String.eqb_spec a b); [contradiction | reflexivity]. Qed.

(** * A scan loses no file *)

Lemma rename_to_archive_keeps (name n : string) (f : read_csv_result)
    (fs fs' : filesystem) :
  is_file_name n = true ->
  os_rename (String.append PATH_TO_LOAD n)
            (replace (String.append PATH_TO_LOAD n) PATH_TO_LOAD PATH_LOADED)
            fs = Return fs' ->
  lookup_file (String.append PATH_TO_LOAD name) fs = Some f
  \/ (lookup_file (String.append PATH_TO_LOAD name) fs = None
      /\ lookup_file (String.append PATH_LOADED name) fs = Some f) ->
  lookup_file (String.append PATH_TO_LOAD name) fs' = Some f
  \/ (lookup_file (String.append PATH_TO_LOAD name) fs' = None
      /\ lookup_file (String.append PATH_LOADED name) fs' = Some f).
Proof.
  intros Hn R K. rewrite (archive_path _ Hn) in R.
  pose proof (os_rename_lookup _ _ _ _ (String.append PATH_TO_LOAD name) R
                (intake_is_not_archive n n)) as Lp.
  pose proof (os_rename_lookup _ _ _ _ (String.append PATH_LOADED name) R
                (intake_is_not_archive n n)) as La.
  rewrite (eqb_neq _ _ (fun E => intake_is_not_archive name n (eq_sym E))) in Lp.
  rewrite (eqb_neq _ _ (intake_is_not_archive n name)) in La.
  destruct (os_rename_source _ _ _ _ R) as [g Lq].
  destruct (String.eqb_spec n name) as [->|Hne].
  - rewrite String.eqb_refl in Lp, La. right. split; [exact Lp|].
    rewrite La. destruct K as [K | [K _]]; congruence.
  - rewrite (eqb_neq _ _ (fun E => Hne (intake_name _ _ E))) in Lp.
    rewrite (eqb_neq _ _ (fun E => Hne (archive_name _ _ E))) in La.
    rewrite Lp, La. exact K.
Qed.

Lemma scan_keeps_file (fuel : nat) (paths : list string) (w w' : world)
    (o : outcome unit) (name : string) (f : read_csv_result) :
  (forall q, In q paths ->
             exists n, q = String.append PATH_TO_LOAD n
                       /\ is_file_name n = true) ->
  lookup_file (String.append PATH_TO_LOAD name) (files w) = Some f
  \/ (lookup_file (String.append PATH_TO_LOAD name) (files w) = None
      /\ lookup_file (String.append PATH_LOADED name) (files w) = Some f) ->
  scan fuel paths w = Some (o, w') ->
  lookup_file (String.append PATH_TO_LOAD name) (files w') = Some f
  \/ (lookup_file (String.append PATH_TO_LOAD name) (files w') = None
      /\ lookup_file (String.append PATH_LOADED name) (files w') = Some f).
Proof.
  revert w. induction paths as [|q paths IH]; intros w Hp K.
  - simpl. intros H; injection H as _ <-. exact K.
  - cbn [scan].
    assert (Hp' : forall q0, In q0 paths ->
                    exists n, q0 = String.append PATH_TO_LOAD n
                              /\ is_file_name n = true)
      by (intros q0 H0; apply Hp; right; exact H0).
    destruct (Hp q (or_introl eq_refl)) as (n & -> & Hn).
    destruct (load_nyc_file fuel (files w) _ (nycdb w))
      as [[[[]|e] db1]|]; [| |discriminate].
    + destruct (os_rename _ _ (files w)) as [fs'|e] eqn:R.
      * apply IH; [exact Hp'|]. simpl.
        eapply rename_to_archive_keeps; eauto.
      * destruct (handler e _).
        -- apply IH; [exact Hp' | exact K].
        -- intros H; injection H as _ <-. exact K.
    + destruct (handler e _).
      * apply IH; [exact Hp' | exact K].
      * intros H; injection H as _ <-. exact K.
Qed.

(** X15.  A scan loses no file.  Whatever [load_new_data] does and
    however it ends, every file that matched in the intake directory is
    afterwards still at its path or in the archive directory under the
    same name, with its content. *)
Theorem scan_loses_no_file (fuel : nat) (w w' : world) (o : outcome unit)
    (path : string) (f : read_csv_result) :
  In path (glob_to_load (files w)) ->
  lookup_file path (files w) = Some f ->
  load_new_data fuel w = Some (o, w') ->
  lookup_file path (files w') = Some f
  \/ (lookup_file path (files w') = None
      /\ lookup_file (replace path PATH_TO_LOAD PATH_LOADED) (files w') = Some f).
Proof.
  intros Hin L H. destruct (glob_to_load_path _ _ Hin) as (_ & name & -> & Hn).
  rewrite (archive_path _ Hn).
  apply (scan_keeps_file fuel (glob_to_load (files w)) w w' o name f).
  - intros q Hq. apply (glob_to_load_path _ _ Hq).
  - left. exact L.
  - exact H.
Qed.

Lemma scan_loses_no_file_witness :
  In "data/to_load/nyc_b.csv"%string (glob_to_load (files sample_world))
  /\ lookup_file "data/to_load/nyc_b.csv" (files sample_world)
     = Some (DataFrame all_columns [sample_row])
  /\ load_new_data 64 sample_world = Some (Return tt, sample_world_scanned)
  /\ (lookup_file "data/to_load/nyc_b.csv" (files sample_world_scanned)
      = Some (DataFrame all_columns [sample_row])
      \/ (lookup_file "data/to_load/nyc_b.csv" (files sample_world_scanned)
          = None
          /\ lookup_file
               (replace "data/to_load/nyc_b.csv" PATH_TO_LOAD PATH_LOADED)
               (files sample_world_scanned)
             = Some (DataFrame all_columns [sample_row]))).
Proof.
  assert (Hin : In "data/to_load/nyc_b.csv"%string
                   (glob_to_load (files sample_world)))
    by (right; left; reflexivity).
  split; [exact Hin|]. split; [reflexivity|]. split; [exact sample_world_scan|].
  exact (scan_loses_no_file 64 sample_world sample_world_scanned (Return tt)
           "data/to_load/nyc_b.csv" (DataFrame all_columns [sample_row]) Hin eq_refl
           sample_world_scan).
Defined.

(** * Reversing the archive *)

Lemma strip_prefix_loaded (s : string) :
  is_file_name s = true -> strip_prefix PATH_LOADED s = None.
Proof.
  unfold is_file_name, PATH_LOADED.
  destruct s as [|c1 [|c2 [|c3 [|c4 [|c5 s]]]]]; cbn [strip_prefix];
    intros H;
    repeat match goal with
           | |- (if Ascii.eqb ?a ?b then _ else None) = None =>
               destruct (Ascii.eqb_spec a b); [subst | reflexivity]
           end; try reflexivity.
  simpl in H. discriminate.
Qed.

Lemma restore_file_name (name : string) :
  is_file_name name = true ->
  replace_from 0 PATH_LOADED PATH_TO_LOAD name = name.
Proof.
  induction name as [|c name IH]; intros H; [reflexivity|].
  cbn [replace_from]. rewrite (strip_prefix_loaded _ H).
  rewrite IH by (eapply is_file_name_tail; exact H). reflexivity.
Qed.

(** The path an archived file goes back to. *)
Lemma intake_path (name : string) :
  is_file_name name = true ->
  replace (String.append PATH_LOADED name) PATH_LOADED PATH_TO_LOAD
  = String.append PATH_TO_LOAD name.
Proof.
  intros H. pose proof (restore_file_name name H) as E.
  unfold replace, PATH_TO_LOAD, PATH_LOADED in *. simpl.
  rewrite E. reflexivity.
Qed.

Lemma In_lookup (path : string) (fs : filesystem) :
  In path (map fst fs) -> lookup_file path fs <> None.
Proof.
  induction fs as [|[p f] fs IH]; simpl; [intros []|].
  intros [-> | H].
  - rewrite String.eqb_refl. discriminate.
  - destruct (String.eqb p path); [discriminate | apply IH, H].
Qed.

Lemma revert_loop_restores (paths : list string) (fs : filesystem)
    (name : string) (f : read_csv_result) :
  NoDup paths ->
  (forall q, In q paths ->
             exists n, q = String.append PATH_LOADED n
                       /\ is_file_name n = true) ->
  (forall q, In q paths -> lookup_file q fs <> None) ->
  (In (String.append PATH_LOADED name) paths
   /\ lookup_file (String.append PATH_LOADED name) fs = Some f)
  \/ (~ In (String.append PATH_LOADED name) paths
      /\ lookup_file (String.append PATH_TO_LOAD name) fs = Some f
      /\ lookup_file (String.append PATH_LOADED name) fs = None) ->
  exists fs',
    revert_loop paths fs = (Return tt, fs')
    /\ lookup_file (String.append PATH_TO_LOAD name) fs' = Some f
    /\ lookup_file (String.append PATH_LOADED name) fs' = None.
Proof.
  revert fs. induction paths as [|q paths IH]; intros fs Hnd Hform Hpres J.
  - exists fs. split; [reflexivity|].
    destruct J as [[[] _] | (_ & J1 & J2)]. split; assumption.
  - inversion Hnd as [|? ? Hq Hnd']; subst.
    destruct (Hform q (or_introl eq_refl)) as (n & -> & Hn).
    cbn [revert_loop]. rewrite (intake_path _ Hn).
    destruct (lookup_file (String.append PATH_LOADED n) fs) as [g|] eqn:Lq;
      [|exfalso; apply (Hpres _ (or_introl eq_refl)); exact Lq].
    destruct (os_rename_returns _ (String.append PATH_TO_LOAD n) _ _ Lq)
      as [fs1 R].
    rewrite R.
    assert (Hne : String.append PATH_LOADED n <> String.append PATH_TO_LOAD n)
      by (intros E; exact (intake_is_not_archive n n (eq_sym E))).
    assert (L : forall p,
               lookup_file p fs1
               = if String.eqb (String.append PATH_TO_LOAD n) p
                 then Some g
                 else if String.eqb (String.append PATH_LOADED n) p then None
                      else lookup_file p fs).
    { intros p. rewrite (os_rename_lookup _ _ _ _ p R Hne), Lq. reflexivity. }
    apply IH.
    + exact Hnd'.
    + intros q0 H0. apply Hform. right; exact H0.
    + intros q0 H0. rewrite L.
      destruct (Hform q0 (or_intror H0)) as (n0 & -> & _).
      rewrite (eqb_neq _ _ (intake_is_not_archive n n0)).
      destruct (String.eqb_spec (String.append PATH_LOADED n)
                  (String.append PATH_LOADED n0)) as [E|_].
      * rewrite <- E in H0. contradiction.
      * apply Hpres. right; exact H0.
    + rewrite !L.
      rewrite (eqb_neq _ _ (intake_is_not_archive n name)).
      destruct (String.eqb_spec n name) as [->|Hnn].
      * rewrite !String.eqb_refl. right.
        split; [exact Hq|]. split; [|reflexivity].
        destruct J as [[_ J] | [J _]]; [congruence|].
        exfalso. apply J. left; reflexivity.
      * rewrite (eqb_neq _ _ (fun E => Hnn (intake_name _ _ E))).
        rewrite (eqb_neq _ _ (fun E => Hnn (archive_name _ _ E))).
        rewrite (eqb_neq _ _ (fun E => intake_is_not_archive name n (eq_sym E))).
        destruct J as [[[E | J0] J] | (J0 & J1 & J2)].
        -- exfalso. apply Hnn, archive_name, E.
        -- left. split; assumption.
        -- right. split; [|split; assumption].
           intros Hin. apply J0. right; exact Hin.
Qed.

(** X16.  [revert] puts the archive back.  In a directory whose paths
    are distinct, with a matching file in the archive directory,
    [revert] returns, leaves the database alone, and the file is
    afterwards in the intake directory under the same name, with its
    content, and no longer in the archive. *)
Theorem revert_restores_archived_file (w : world) (path : string)
    (f : read_csv_result) :
  well_formed (files w) ->
  In path (glob_loaded (files w)) ->
  lookup_file path (files w) = Some f ->
  exists w',
    revert w = (Return tt, w')
    /\ nycdb w' = nycdb w
    /\ lookup_file (replace path PATH_LOADED PATH_TO_LOAD) (files w') = Some f
    /\ lookup_file path (files w') = None.
Proof.
  intros Hwf Hin L.
  destruct (glob_loaded_path _ _ Hin) as (_ & name & -> & Hn).
  rewrite (intake_path _ Hn).
  destruct (revert_loop_restores (glob_loaded (files w)) (files w) name f)
    as (fs' & R & L1 & L2).
  - apply NoDup_filter. exact Hwf.
  - intros q Hq. apply (glob_loaded_path _ _ Hq).
  - intros q Hq. apply In_lookup. apply (glob_loaded_path _ _ Hq).
  - left. split; assumption.
  - exists (mk_world fs' (nycdb w) (stdout w)). unfold revert. rewrite R.
    repeat split; assumption.
Qed.

Lemma revert_restores_archived_file_witness :
  let w := mk_world archived_files (mk_db sample_store closed_conn) [] in
  well_formed (files w)
  /\ In "data/loaded/nyc_b.csv"%string (glob_loaded (files w))
  /\ lookup_file "data/loaded/nyc_b.csv" (files w)
     = Some (DataFrame all_columns [sample_row])
  /\ exists w',
       revert w = (Return tt, w')
       /\ nycdb w' = nycdb w
       /\ lookup_file (replace "data/loaded/nyc_b.csv" PATH_LOADED PATH_TO_LOAD)
                      (files w')
          = Some (DataFrame all_columns [sample_row])
       /\ lookup_file "data/loaded/nyc_b.csv" (files w') = None.
Proof.
  intros w.
  assert (Hwf : well_formed (files w)).
  { unfold well_formed. simpl. constructor.
    - intros [H | []]. discriminate.
    - constructor; [intros [] | constructor]. }
  assert (Hin : In "data/loaded/nyc_b.csv"%string (glob_loaded (files w)))
    by (left; reflexivity).
  split; [exact Hwf|]. split; [exact Hin|]. split; [reflexivity|].
  exact (revert_restores_archived_file w "data/loaded/nyc_b.csv"
           (DataFrame all_columns [sample_row]) Hwf Hin eq_refl).
Defined.

(** * The files a scan picks *)

Lemma strip_prefix_of_append (pre rest : string) :
  strip_prefix pre (String.append pre rest) = Some rest.
Proof.
  induction pre as [|p pre IH]; simpl; [reflexivity|].
  rewrite Ascii.eqb_refl. exact IH.
Qed.

Lemma fnmatch_literal (pat name : list ascii) :
  Forall (fun p => p <> "*"%char /\ p <> "?"%char) pat ->
  (fnmatch_chars pat name = true <-> name = pat).
Proof.
  intros F. revert name. induction F as [|p pat [Hs Hq] _ IH]; intros name.
  - destruct name; simpl; split; congruence.
  - cbn [fnmatch_chars].
    destruct (Ascii.eqb_spec p "*") as [E|_]; [contradiction|].
    destruct name as [|c name]; [split; discriminate|].
    destruct (Ascii.eqb_spec p "?") as [E|_]; [contradiction|].
    simpl orb. rewrite andb_true_iff, IH, Ascii.eqb_eq. split.
    + intros [-> ->]. reflexivity.
    + intros H; injection H as -> ->. split; reflexivity.
Qed.

Lemma literal_csv (s : string) :
  fnmatch_chars ["."; "c"; "s"; "v"]%char (list_ascii_of_string s) = true
  <-> s = ".csv"%string.
Proof.
  rewrite fnmatch_literal.
  - split.
    + intros H. rewrite <- (string_of_list_ascii_of_string s), H. reflexivity.
    + intros ->. reflexivity.
  - repeat constructor; discriminate.
Qed.

Lemma star_step (pat : list ascii) (c : ascii) (name : list ascii) :
  fnmatch_chars ("*"%char :: pat) (c :: name)
  = (fnmatch_chars pat (c :: name) || fnmatch_chars ("*"%char :: pat) name)%bool.
Proof. reflexivity. Qed.

Lemma star_csv (s : string) :
  fnmatch_chars ["*"; "."; "c"; "s"; "v"]%char (list_ascii_of_string s) = true
  <-> exists middle, s = String.append middle ".csv".
Proof.
  induction s as [|c s IH].
  - split; [discriminate|]. intros [[|m middle] H]; discriminate.
  - cbn [list_ascii_of_string]. rewrite star_step, orb_true_iff.
    change (c :: list_ascii_of_string s)
      with (list_ascii_of_string (String c s)).
    rewrite literal_csv, IH. split.
    + intros [H | [middle ->]].
      * exists EmptyString. exact H.
      * exists (String c middle). reflexivity.
    + intros [[|m middle] H].
      * left. exact H.
      * right. simpl in H. injection H as -> ->. exists middle. reflexivity.
Qed.

(** The names that [FILE_PATTERN] matches. *)
Lemma fnmatch_nyc_csv (name : string) :
  fnmatch_chars (list_ascii_of_string FILE_PATTERN) (list_ascii_of_string name)
  = true
  <-> exists middle,
        name = String.append "nyc" (String.append middle ".csv").
Proof.
  unfold FILE_PATTERN. cbn [list_ascii_of_string].
  destruct name as [|c1 [|c2 [|c3 name]]].
  - split; [discriminate | intros [m H]; discriminate].
  - split; [simpl; rewrite andb_false_r; discriminate
           | intros [m H]; discriminate].
  - split; [simpl; rewrite !andb_false_r; discriminate
           | intros [m H]; discriminate].
  - cbn [list_ascii_of_string].
    change (fnmatch_chars ("n"%char :: "y"%char :: "c"%char
                           :: ["*"; "."; "c"; "s"; "v"]%char)
                          (c1 :: c2 :: c3 :: list_ascii_of_string name))
      with (Ascii.eqb "n" c1
            && (Ascii.eqb "y" c2
                && (Ascii.eqb "c" c3
                    && fnmatch_chars ["*"; "."; "c"; "s"; "v"]%char
                                     (list_ascii_of_string name))))%bool.
    rewrite !andb_true_iff, star_csv. split.
    + intros (H1 & H2 & H3 & middle & ->).
      apply Ascii.eqb_eq in H1, H2, H3. subst. exists middle. reflexivity.
    + intros [middle H]. simpl in H. injection H as -> -> -> ->.
      rewrite !Ascii.eqb_refl. repeat split. exists middle. reflexivity.
Qed.

Lemma is_file_name_csv (middle : string) :
  is_file_name (String.append "nyc" (String.append middle ".csv"))
  = is_file_name middle.
Proof.
  unfold is_file_name. simpl. f_equal.
  induction middle as [|c middle IH]; simpl; [reflexivity|].
  rewrite IH. reflexivity.
Qed.

(** X17.  The files a scan loads are exactly the entries of the intake
    directory itself whose name starts with [nyc] and ends with
    [.csv], in lower case; the part between may be empty and holds no
    slash. *)
Theorem scan_picks_nyc_csv_files (fs : filesystem) (path : string) :
  In path (glob_to_load fs)
  <-> In path (map fst fs)
      /\ exists middle,
           path = String.append "data/to_load/nyc"
                    (String.append middle ".csv")
           /\ is_file_name middle = true.
Proof.
  unfold glob_to_load. rewrite filter_In. split.
  - intros [Hin H]. split; [exact Hin|].
    destruct (strip_prefix PATH_TO_LOAD path) as [name|] eqn:S; [|discriminate].
    apply strip_prefix_append in S. apply andb_prop in H. destruct H as [Hn Hm].
    apply fnmatch_nyc_csv in Hm. destruct Hm as [middle ->].
    exists middle. split; [exact S|]. rewrite is_file_name_csv in Hn. exact Hn.
  - intros [Hin (middle & -> & Hn)]. split; [exact Hin|].
    change (String.append "data/to_load/nyc" (String.append middle ".csv"))
      with (String.append PATH_TO_LOAD
              (String.append "nyc" (String.append middle ".csv"))).
    rewrite strip_prefix_of_append. cbv beta iota.
    rewrite is_file_name_csv, Hn, andb_true_l.
    apply fnmatch_nyc_csv. exists middle. reflexivity.
Qed.
(** * Creating the database *)

Import Bootstrap.

Lemma str_split_cons (sep : ascii) (s : string) :
  exists part parts, str_split sep s = part :: parts.
Proof.
  destruct s as [|c s]; simpl.
  - eauto.
  - destruct (Ascii.eqb c sep); [eauto|].
    destruct (str_split sep s); eauto.
Qed.

Lemma str_join_cons (sep part : string) (parts : list string) :
  parts <> [] ->
  str_join sep (part :: parts)
  = String.append part (String.append sep (str_join sep parts)).
Proof. destruct parts; [congruence | reflexivity]. Qed.

(** Joining the parts of a path gives the path back. *)
Lemma str_join_split (s : string) : str_join "/" (str_split "/" s) = s.
Proof.
  induction s as [|c s IH]; [reflexivity|].
  destruct (str_split_cons "/" s) as (part & parts & E).
  cbn [str_split].
  destruct (Ascii.eqb c "/") eqn:Ec.
  - apply Ascii.eqb_eq in Ec. subst c.
    rewrite str_join_cons by (rewrite E; discriminate).
    rewrite IH. reflexivity.
  - rewrite E in *.
    destruct parts as [|part' parts].
    + cbn [str_join] in *. now rewrite IH.
    + rewrite str_join_cons by discriminate.
      rewrite str_join_cons in IH by discriminate.
      rewrite <- IH. reflexivity.
Qed.

Lemma os_path_exists_empty (m : machine) : os_path_exists "" m = false.
Proof. reflexivity. Qed.

Lemma mem_app (p : string) (l l' : list string) :
  mem p (l ++ l') = mem p l || mem p l'.
Proof. apply existsb_app. Qed.

Lemma keeps_refl (m : machine) : keeps m m.
Proof. exists [], []. now rewrite !app_nil_r. Qed.

Lemma keeps_trans (m1 m2 m3 : machine) :
  keeps m1 m2 -> keeps m2 m3 -> keeps m1 m3.
Proof.
  intros (d1 & b1 & H1 & H2) (d2 & b2 & H3 & H4).
  exists (d1 ++ d2), (b1 ++ b2).
  rewrite H3, H4, H1, H2, !app_assoc. tauto.
Qed.

Lemma keeps_exists (m m' : machine) (p : string) :
  keeps m m' -> os_path_exists p m = true -> os_path_exists p m' = true.
Proof.
  intros (dirs & dbs & H1 & H2). unfold os_path_exists.
  rewrite H1, H2, map_app, !mem_app.
  destruct (negb (String.eqb p "")); [|discriminate]. simpl.
  destruct (mem p (directories m)), (mem p (map fst (databases m)));
    simpl; try discriminate; try reflexivity.
  all: intros _; now rewrite ?orb_true_r.
Qed.

Lemma mem_refl (p : string) (l : list string) : mem p (l ++ [p]) = true.
Proof. rewrite mem_app. simpl. now rewrite String.eqb_refl, orb_true_r. Qed.

Lemma os_mkdir_returns (p : string) (m m' : machine) :
  os_mkdir p m = inr m' -> keeps m m' /\ os_path_exists p m' = true.
Proof.
  unfold os_mkdir.
  destruct (String.eqb p "") eqn:E0; [discriminate|].
  destruct (os_path_exists p m); [discriminate|].
  destruct (negb (parent_exists p m)); [discriminate|].
  intros H. injection H as <-. split.
  - exists [p], []. simpl. now rewrite app_nil_r.
  - unfold os_path_exists. simpl. now rewrite E0, mem_refl.
Qed.

Lemma sqlite3_connect_returns (p : string) (m m' : machine) :
  sqlite3_connect p m = inr m' ->
  keeps m m' /\ mem p (map fst (databases m')) = true.
Proof.
  unfold sqlite3_connect.
  destruct (mem p (directories m)); [discriminate|].
  destruct (mem p (map fst (databases m))) eqn:E.
  - intros H. injection H as <-. split; [apply keeps_refl | exact E].
  - destruct (negb (parent_exists p m)); [discriminate|].
    intros H. injection H as <-. split.
    + exists [], [(p, mk_sqlite [] empty_store)]. simpl. now rewrite app_nil_r.
    + simpl. rewrite map_app. apply mem_refl.
Qed.

Section Check_exists.

Variable path : string.
Hypothesis path_named : path <> ""%string.

Lemma last_part (i : nat) :
  Nat.eqb i (List.length (str_split "/" path) - 1) = true ->
  str_join "/" (firstn (i + 1) (str_split "/" path)) = path.
Proof.
  intros H. apply Nat.eqb_eq in H.
  destruct (str_split_cons "/" path) as (part & parts & E).
  rewrite firstn_all2; [apply str_join_split|].
  rewrite E in *. simpl in *. lia.
Qed.

Lemma check_loop_create (indices : list nat) :
  forall existed c m r m',
    check_loop true path (str_split "/" path)
               (List.length (str_split "/" path)) indices existed c m
    = (inr r, m') ->
    keeps m m'
    /\ Forall (fun i =>
                 os_path_exists
                   (str_join "/" (firstn (i + 1) (str_split "/" path))) m'
                 = true) indices.
Proof.
  induction indices as [|i indices IH]; intros existed c m r m' H.
  - simpl in H. injection H as _ <-. split; [apply keeps_refl | constructor].
  - cbn [check_loop] in H. cbv zeta in H.
    destruct (os_path_exists _ m) eqn:Ex.
    + apply IH in H. destruct H as (K & F). split; [exact K|].
      constructor; [|exact F]. now apply (keeps_exists m).
    + cbn [negb] in H. cbv iota in H.
      destruct (Nat.eqb i _) eqn:Ei.
      * destruct (sqlite3_connect path m) as [e|m1] eqn:Ec; [discriminate|].
        apply sqlite3_connect_returns in Ec. destruct Ec as (K1 & M).
        apply IH in H. destruct H as (K & F).
        split; [now apply (keeps_trans m m1)|].
        constructor; [|exact F].
        apply (keeps_exists m1); [exact K|].
        rewrite (last_part i Ei). unfold os_path_exists.
        rewrite M, orb_true_r.
        destruct (String.eqb path "") eqn:E0; [|reflexivity].
        apply String.eqb_eq in E0. contradiction.
      * destruct (os_mkdir _ m) as [e|m1] eqn:Em; [discriminate|].
        apply os_mkdir_returns in Em. destruct Em as (K1 & M).
        apply IH in H. destruct H as (K & F).
        split; [now apply (keeps_trans m m1)|].
        constructor; [|exact F].
        now apply (keeps_exists m1).
Qed.

End Check_exists.

Lemma check_loop_without_create (path : string) (parts : list string) (n : nat)
    (indices : list nat) (existed : bool) (c : connection) (m : machine) :
  check_loop false path parts n indices existed c m
  = match find (fun part => negb (os_path_exists part m))
               (map (fun i => str_join "/" (firstn (i + 1) parts)) indices) with
    | Some part =>
        (inl (FileNotFound (String.append part " does not exist.")), m)
    | None => (inr (existed, c), m)
    end.
Proof.
  induction indices as [|i indices IH]; [reflexivity|].
  cbn [check_loop map find]. cbv zeta.
  destruct (os_path_exists _ m); simpl; [exact IH | reflexivity].
Qed.

Lemma find_db_last (p : string) (d : sqlite_db) (dbs : list (string * sqlite_db)) :
  mem p (map fst dbs) = false -> find_db p (dbs ++ [(p, d)]) = Some d.
Proof.
  induction dbs as [|[q d'] dbs IH]; simpl; intros H.
  - now rewrite String.eqb_refl.
  - apply orb_false_elim in H. destruct H as (H1 & H2).
    rewrite H1. now apply IH.
Qed.

Lemma set_db_last (p : string) (d d' : sqlite_db)
    (dbs : list (string * sqlite_db)) :
  mem p (map fst dbs) = false ->
  set_db p d' (dbs ++ [(p, d)]) = dbs ++ [(p, d')].
Proof.
  induction dbs as [|[q d0] dbs IH]; simpl; intros H.
  - now rewrite String.eqb_refl.
  - apply orb_false_elim in H. destruct H as (H1 & H2).
    rewrite H1. now rewrite IH.
Qed.

(** A table that is not there is added to the file. *)
Lemma create_table_returns (name p : string) (dirs : list string)
    (dbs : list (string * sqlite_db)) (tbls : list string) (r : store) :
  mem p dirs = false ->
  mem p (map fst dbs) = false ->
  mem name tbls = false ->
  create_table name p (mk_machine dirs (dbs ++ [(p, mk_sqlite tbls r)]))
  = inr (mk_machine dirs (dbs ++ [(p, mk_sqlite (tbls ++ [name]) r)])).
Proof.
  intros H1 H2 H3. unfold create_table, sqlite3_connect.
  cbn [directories databases].
  rewrite H1, map_app. cbn [map fst]. rewrite mem_refl.
  cbn [directories databases].
  rewrite (find_db_last _ _ _ H2). cbn [tables rows]. rewrite H3.
  now rewrite (set_db_last _ _ _ _ H2).
Qed.

Lemma _create_tables_returns (p : string) (dirs : list string)
    (dbs : list (string * sqlite_db)) :
  mem p dirs = false ->
  mem p (map fst dbs) = false ->
  _create_tables p (mk_machine dirs (dbs ++ [(p, mk_sqlite [] empty_store)]))
  = (None, mk_machine dirs (dbs ++ [(p, mk_sqlite table_names empty_store)])).
Proof.
  intros H1 H2. unfold _create_tables, table_names. cbn [create_tables].
  repeat (rewrite (create_table_returns _ _ _ _ _ _ H1 H2) by reflexivity;
          cbn [app]).
  reflexivity.
Qed.

(** X18.  [BaseDB] refuses every absolute path, with or without
    [create]: the first part of the path is the empty string, which does
    not exist and cannot be made; a [FileNotFoundError] is raised and
    nothing is created. *)
Theorem absolute_path_is_refused (create : bool) (rest : string) (m : machine) :
  _check_exists create (String "/" rest) m
  = (inl (FileNotFound (if create then "" else " does not exist.")), m).
Proof.
  unfold _check_exists. cbv zeta.
  change (str_split "/" (String "/" rest)) with (""%string :: str_split "/" rest).
  destruct (str_split_cons "/" rest) as (part & parts & E). rewrite E.
  cbn [List.length seq check_loop Nat.add firstn str_join].
  rewrite os_path_exists_empty.
  destruct create; reflexivity.
Qed.

(** X19.  Without [create], [_check_exists] changes nothing on the
    machine; it raises [FileNotFoundError] naming the first prefix of
    the path that does not exist, and returns with [_existed] set when
    there is none. *)
Theorem check_exists_without_create (path : string) (m : machine) :
  _check_exists false path m
  = match find (fun part => negb (os_path_exists part m)) (prefixes path) with
    | Some part =>
        (inl (FileNotFound (String.append part " does not exist.")), m)
    | None => (inr (true, no_conn), m)
    end.
Proof.
  unfold _check_exists, prefixes. cbv zeta.
  apply check_loop_without_create.
Qed.

(** X20.  When [_check_exists] returns with [create] on, every prefix of
    the path, the database file included, exists, and every directory
    and database file that was there before still is. *)
Theorem check_exists_creates_path (path : string) (m m' : machine)
    (r : bool * connection) :
  path <> ""%string ->
  _check_exists true path m = (inr r, m') ->
  Forall (fun part => os_path_exists part m' = true) (prefixes path)
  /\ keeps m m'.
Proof.
  intros Hp H. unfold _check_exists in H. cbv zeta in H.
  apply (check_loop_create path Hp) in H. destruct H as (K & F).
  split; [|exact K].
  unfold prefixes. cbv zeta. apply Forall_map. exact F.
Qed.

Lemma check_exists_creates_path_witness :
  PATH_DB <> ""%string
  /\ _check_exists true PATH_DB empty_machine
     = (inr (false, closed_conn),
        mk_machine ["data"%string] [(PATH_DB, mk_sqlite [] empty_store)])
  /\ Forall (fun part =>
               os_path_exists part
                 (mk_machine ["data"%string]
                             [(PATH_DB, mk_sqlite [] empty_store)]) = true)
            (prefixes PATH_DB)
  /\ keeps empty_machine
           (mk_machine ["data"%string] [(PATH_DB, mk_sqlite [] empty_store)]).
Proof.
  split; [discriminate|]. split; [reflexivity|].
  apply (check_exists_creates_path PATH_DB empty_machine _ (false, closed_conn));
    [discriminate | reflexivity].
Defined.

(** X21.  On a machine where the database file does not exist,
    [NYCDB(create=True)] returns, with the connection closed: the
    directory is made when it is missing, and the file is created with
    the five tables, all empty; nothing else changes. *)
Theorem fresh_database_has_empty_tables (m : machine) :
  os_path_exists PATH_DB m = false ->
  mem "data" (map fst (databases m)) = false ->
  NYCDB_init true m
  = (inr (false, closed_conn),
     mk_machine
       (if mem "data" (directories m) then directories m
        else directories m ++ ["data"%string])
       (databases m ++ [(PATH_DB, mk_sqlite table_names empty_store)])).
Proof.
  intros H1 H2. destruct m as [dirs dbs]. simpl in H2.
  unfold os_path_exists in H1. simpl in H1.
  apply orb_false_elim in H1. destruct H1 as (Hd & Hb).
  unfold NYCDB_init, _check_exists. cbv zeta.
  change (str_split "/" PATH_DB) with ["data"%string; "nyc_health.sqlite"%string].
  cbn [List.length seq check_loop Nat.add firstn].
  change (str_join "/" ["data"%string]) with "data"%string.
  change (str_join "/" ["data"%string; "nyc_health.sqlite"%string]) with PATH_DB.
  cbn [Nat.eqb Nat.sub negb].
  unfold os_path_exists at 1. cbn [directories databases].
  rewrite H2, orb_false_r.
  change (negb ("data" =? "")%string) with true. rewrite andb_true_l.
  destruct (mem "data" dirs) eqn:Ed.
  - unfold os_path_exists. cbn [directories databases].
    rewrite Hd, Hb. cbn [orb andb].
    rewrite andb_false_r.
    unfold sqlite3_connect. cbn [directories databases].
    rewrite Hd, Hb. unfold parent_exists.
    change (dirname PATH_DB) with "data"%string. cbn [directories].
    rewrite Ed. cbn [orb negb].
    rewrite orb_true_r. cbn [negb].
    now rewrite (_create_tables_returns PATH_DB dirs dbs Hd Hb).
  - unfold os_mkdir. change ("data" =? "")%string with false.
    unfold os_path_exists at 1. cbn [directories databases].
    rewrite Ed, H2. cbn [orb andb]. rewrite andb_false_r.
    unfold parent_exists at 1. change (dirname "data") with ""%string.
    cbn [orb negb String.eqb].
    assert (Hd' : mem PATH_DB (dirs ++ ["data"%string]) = false).
    { rewrite mem_app, Hd. reflexivity. }
    unfold os_path_exists. cbn [directories databases].
    rewrite Hd', Hb. cbn [orb]. rewrite andb_false_r.
    unfold sqlite3_connect. cbn [directories databases].
    rewrite Hd', Hb. unfold parent_exists.
    change (dirname PATH_DB) with "data"%string. cbn [directories].
    rewrite mem_refl, orb_true_r. cbn [negb].
    now rewrite (_create_tables_returns PATH_DB _ dbs Hd' Hb).
Qed.

Lemma fresh_database_has_empty_tables_witness :
  os_path_exists PATH_DB empty_machine = false
  /\ mem "data" (map fst (databases empty_machine)) = false
  /\ NYCDB_init true empty_machine
     = (inr (false, closed_conn),
        mk_machine ["data"%string]
                   [(PATH_DB, mk_sqlite table_names empty_store)]).
Proof.
  split; [reflexivity|]. split; [reflexivity|].
  apply (fresh_database_has_empty_tables empty_machine); reflexivity.
Defined.

(** X22.  When the directory and a file at the database's path exist,
    [NYCDB()] returns without touching the machine, whatever [create]
    is and whatever the file holds: a file without tables is left
    without tables, and no connection is made. *)
Theorem existing_file_gets_no_tables (create : bool) (m : machine) :
  os_path_exists "data" m = true ->
  os_path_exists PATH_DB m = true ->
  NYCDB_init create m = (inr (true, no_conn), m).
Proof.
  intros H1 H2. unfold NYCDB_init, _check_exists. cbv zeta.
  change (str_split "/" PATH_DB) with ["data"%string; "nyc_health.sqlite"%string].
  cbn [List.length seq check_loop Nat.add firstn].
  change (str_join "/" ["data"%string]) with "data"%string.
  change (str_join "/" ["data"%string; "nyc_health.sqlite"%string]) with PATH_DB.
  now rewrite H1, H2.
Qed.

Lemma existing_file_gets_no_tables_witness :
  os_path_exists "data" machine_with_empty_file = true
  /\ os_path_exists PATH_DB machine_with_empty_file = true
  /\ NYCDB_init true machine_with_empty_file
     = (inr (true, no_conn), machine_with_empty_file).
Proof.
  split; [reflexivity|]. split; [reflexivity|].
  apply (existing_file_gets_no_tables true machine_with_empty_file); reflexivity.
Defined.
